(** * Constrained Monte Carlo integrator (src/simulate/cmc.cpp)

    A shallow embedding of [cmc::polar_rot_matrix], [sim::CMCinit] and
    [sim::ConstrainedMonteCarlo], written once over an interface for the
    C++ type [double] and read at two instances:

    - [R_arith], [R_libm]: exact real arithmetic (the idealised reading in
      which the algebraic laws of the algorithm are stated);
    - [float_arith]: IEEE 754 binary64 through Rocq's primitive floats
      (the reading in which infinities and NaN exist), with the functions
      of the C mathematical library left open.

    The energy function, the material table and the random number
    generator live in other translation units; they are the fields of
    [env]. *)

From Stdlib Require Import Floats.
From Stdlib Require Import ZArith List Bool Reals Lra Lia.
Import ListNotations.

Set Implicit Arguments.
Set Warnings "-inexact-float".

(** ** The interface for [double] *)

Class Arith (T : Type) : Type := {
  dadd : T -> T -> T;
  dsub : T -> T -> T;
  dmul : T -> T -> T;
  ddiv : T -> T -> T;
  dneg : T -> T;
  dsqrt : T -> T;            (* sqrt of <cmath> *)
  dfabs : T -> T;            (* std::fabs *)
  dlt : T -> T -> bool;      (* a <  b *)
  dge : T -> T -> bool;      (* a >= b *)
  of_int : Z -> T;           (* implicit conversion int -> double *)
  to_int : T -> Z;           (* int(x): truncation towards zero *)
  (* the floating literals of the source *)
  d0 : T;                    (* 0.0 *)
  d1 : T;                    (* 1.0 *)
  d2 : T;                    (* 2.0 *)
  d180 : T;                  (* 180.0 *)
  d360 : T;                  (* 360.0 *)
  pi_literal : T;            (* 3.14159265358979323846264338327 *)
  M_PI : T;                  (* the macro M_PI of <cmath> *)
  inv_mu_B : T;              (* 1.07828231e23 *)
  mu_B : T;                  (* 9.27400915e-24 *)
  k_B : T                    (* 1.3806503e-23 *)
}.

(** The functions of <cmath> that are not basic IEEE operations: their
    bits are fixed by the platform's library, not by the source. *)
Class Libm (T : Type) : Type := {
  dexp : T -> T;
  dsin : T -> T;
  dcos : T -> T
}.

Declare Scope dbl_scope.
Delimit Scope dbl_scope with D.
Infix "+" := dadd : dbl_scope.
Infix "-" := dsub : dbl_scope.
Infix "*" := dmul : dbl_scope.
Infix "/" := ddiv : dbl_scope.
Notation "- x" := (dneg x) : dbl_scope.
Infix "<?" := dlt : dbl_scope.
Infix ">=?" := dge (at level 70) : dbl_scope.

(** ** Exact reals *)

(** In this reading a quotient whose denominator is zero is 0, where a
    double gives an infinity or NaN: what is stated at this instance
    either does not depend on the quotients or carries the hypothesis that
    the denominators are not zero. The behaviour of the code at a zero
    denominator is stated in the IEEE reading. *)

Definition Rltb (a b : R) : bool := if Rlt_dec a b then true else false.
Definition Rgeb (a b : R) : bool := if Rge_dec a b then true else false.

(** [int(x)] on a real: the integer part, rounded towards zero. *)
Definition Rtrunc (x : R) : Z :=
  if Rle_dec 0 x then Int_part x else (- Int_part (- x))%Z.

#[export] Instance R_arith : Arith R := {|
  dadd := Rplus; dsub := Rminus; dmul := Rmult; ddiv := Rdiv; dneg := Ropp;
  dsqrt := sqrt; dfabs := Rabs;
  dlt := Rltb; dge := Rgeb;
  of_int := IZR; to_int := Rtrunc;
  d0 := 0%R; d1 := 1%R; d2 := 2%R; d180 := 180%R; d360 := 360%R;
  pi_literal := 3.14159265358979323846264338327%R;
  M_PI := 3.14159265358979323846%R;
  inv_mu_B := 1.07828231e23%R;
  mu_B := 9.27400915e-24%R;
  k_B := 1.3806503e-23%R
|}.

#[export] Instance R_libm : Libm R := {|
  dexp := exp; dsin := sin; dcos := cos
|}.

(** ** IEEE 754 binary64 *)

(** [int(x)] on a finite double ([m * 2^e] truncated towards zero); the
    conversion of an infinity or a NaN is undefined in C++ and read as 0. *)
Definition float_to_int (x : float) : Z :=
  match Prim2SF x with
  | S754_finite s m e =>
      let a := if (0 <=? e)%Z then (Zpos m * 2 ^ e)%Z
               else (Zpos m / 2 ^ (- e))%Z in
      if s then (- a)%Z else a
  | _ => 0%Z
  end.

Definition float_of_int (z : Z) : float :=
  if (z <? 0)%Z then PrimFloat.opp (PrimFloat.of_uint63 (Uint63.of_Z (- z)))
  else PrimFloat.of_uint63 (Uint63.of_Z z).

#[export] Instance float_arith : Arith float := {|
  dadd := PrimFloat.add; dsub := PrimFloat.sub; dmul := PrimFloat.mul;
  ddiv := PrimFloat.div; dneg := PrimFloat.opp;
  dsqrt := PrimFloat.sqrt; dfabs := PrimFloat.abs;
  dlt := PrimFloat.ltb; dge := fun a b => PrimFloat.leb b a;
  of_int := float_of_int; to_int := float_to_int;
  d0 := 0%float; d1 := 1%float; d2 := 2%float; d180 := 180%float;
  d360 := 360%float;
  pi_literal := 3.14159265358979323846264338327%float;
  M_PI := 3.14159265358979323846%float;
  inv_mu_B := 1.07828231e23%float;
  mu_B := 9.27400915e-24%float;
  k_B := 1.3806503e-23%float
|}.

(** ** Arrays *)

(** [a[i] = v]. Indexing outside an array is undefined in C++; the model
    leaves the array unchanged there, and reads the default. *)
Fixpoint upd {A : Type} (i : nat) (v : A) (l : list A) : list A :=
  match l, i with
  | [], _ => []
  | _ :: t, O => v :: t
  | h :: t, S j => h :: upd j v t
  end.

(** [double v[3]] and [double m[3][3]] (rows of columns). *)
Record vec3 (T : Type) : Type := V3 { v0 : T; v1 : T; v2 : T }.
Definition mat3 (T : Type) : Type := vec3 (vec3 T).

Arguments V3 {T} _ _ _.
Arguments v0 {T} _.
Arguments v1 {T} _.
Arguments v2 {T} _.

(** ** The program *)

Section Integrator.

Context {T : Type} {A : Arith T} {L : Libm T}.
(** [G]: the hidden state of the Mersenne twister behind [mtrandom]. *)
Variable G : Type.

Local Open Scope dbl_scope.

(** The nine multiplications and six additions the source writes out for
    [out = matmul(m, v)], in the source's order of association. *)
Definition matvec (m : mat3 T) (v : vec3 T) : vec3 T :=
  V3 (v0 (v0 m) * v0 v + v1 (v0 m) * v1 v + v2 (v0 m) * v2 v)
     (v0 (v1 m) * v0 v + v1 (v1 m) * v1 v + v2 (v1 m) * v2 v)
     (v0 (v2 m) * v0 v + v1 (v2 m) * v1 v + v2 (v2 m) * v2 v).

(** Modelled from the spec: [vmath::matmul] on two 3x3 matrices (vmath.hpp
    is not among the sources); "R = R_y(a) . R_z(b) (matrix product, 3x3)". *)
Definition matmul (a b : mat3 T) : mat3 T :=
  let row (r : vec3 T) :=
    V3 (v0 r * v0 (v0 b) + v1 r * v0 (v1 b) + v2 r * v0 (v2 b))
       (v0 r * v1 (v0 b) + v1 r * v1 (v1 b) + v2 r * v1 (v2 b))
       (v0 r * v2 (v0 b) + v1 r * v2 (v1 b) + v2 r * v2 (v2 b)) in
  V3 (row (v0 a)) (row (v1 a)) (row (v2 a)).

(** Modelled from the spec: [vmath::matmul] on the 1x3 reference vector and
    a 3x3 matrix; "c = z . R, i.e. the third row of R" for z = (0,0,1). *)
Definition rowmul (r : vec3 T) (b : mat3 T) : vec3 T :=
  V3 (v0 r * v0 (v0 b) + v1 r * v0 (v1 b) + v2 r * v0 (v2 b))
     (v0 r * v1 (v0 b) + v1 r * v1 (v1 b) + v2 r * v1 (v2 b))
     (v0 r * v2 (v0 b) + v1 r * v2 (v1 b) + v2 r * v2 (v2 b)).

(** Modelled from the spec: [vmath::transpose]; "transpose(R)". *)
Definition transpose (m : mat3 T) : mat3 T :=
  V3 (V3 (v0 (v0 m)) (v0 (v1 m)) (v0 (v2 m)))
     (V3 (v1 (v0 m)) (v1 (v1 m)) (v1 (v2 m)))
     (V3 (v2 (v0 m)) (v2 (v1 m)) (v2 (v2 m))).

(** Modelled from the spec: [vmath::sign] (vmath.hpp is not among the
    sources); "Treat sign(0) = +1". *)
Definition sign (a : T) : T := if a <? d0 then - d1 else d1.

(** [cmc::polar_rot_matrix]: the triple
    (polar_matrix, polar_matrix_tp, polar_vector). *)
Definition polar_rot_matrix (phi theta : T) : mat3 T * mat3 T * vec3 T :=
  let ddx := d0 in
  let ddy := phi in
  let ddz := theta in
  let dx := (ddx / d360) * d2 * pi_literal in
  let dy := (ddy / d360) * d2 * pi_literal in
  let dz := (ddz / d360) * d2 * pi_literal in
  let reference_vector := V3 d0 d0 d1 in
  let sin_x := dsin dx in
  let cos_x := dcos dx in
  let sin_y := dsin dy in
  let cos_y := dcos dy in
  let sin_z := dsin dz in
  let cos_z := dcos dz in
  let x_rotation_matrix :=
    V3 (V3 d1 d0 d0) (V3 d0 cos_x sin_x) (V3 d0 (- sin_x) cos_x) in
  let y_rotation_matrix :=
    V3 (V3 cos_y d0 (- sin_y)) (V3 d0 d1 d0) (V3 sin_y d0 cos_y) in
  let z_rotation_matrix :=
    V3 (V3 cos_z sin_z d0) (V3 (- sin_z) cos_z d0) (V3 d0 d0 d1) in
  let polar_matrix := matmul y_rotation_matrix z_rotation_matrix in
  let polar_matrix_tp := transpose polar_matrix in
  let polar_vector := rowmul reference_vector polar_matrix in
  (polar_matrix, polar_matrix_tp, polar_vector).

(** The globals of [atoms::], [cmc::], [sim::] and [mtrandom::] that the
    integrator reads or writes. *)
Record globals : Type := Globals {
  num_atoms : nat;
  x_spin_array : list T;
  y_spin_array : list T;
  z_spin_array : list T;
  type_array : list nat;
  mc_success : T;
  mc_total : T;
  sphere_reject : T;
  energy_reject : T;
  is_initialised : bool;
  polar_vector : vec3 T;
  polar_matrix_tp : mat3 T;
  polar_matrix : mat3 T;
  hamiltonian_simulation_flags : list Z;
  mt : G
}.

(** What the other translation units provide. *)
Record env : Type := Env {
  temperature : T;                          (* sim::temperature *)
  constraint_phi : T;                       (* sim::constraint_phi *)
  constraint_theta : T;                     (* sim::constraint_theta *)
  mu_s_SI : nat -> T;                       (* mp::material[imat].mu_s_SI *)
  calculate_spin_energy : globals -> nat -> T;
  grnd : G -> T * G;                        (* mtrandom::grnd() *)
  gaussian : G -> T * G                     (* mtrandom::gaussian() *)
}.

(** Reading and writing the three spin arrays at one site. *)
Definition spin_at (g : globals) (i : nat) : vec3 T :=
  V3 (nth i (x_spin_array g) d0) (nth i (y_spin_array g) d0)
     (nth i (z_spin_array g) d0).

Definition set_spin (g : globals) (i : nat) (s : vec3 T) : globals :=
  Globals (num_atoms g)
    (upd i (v0 s) (x_spin_array g)) (upd i (v1 s) (y_spin_array g))
    (upd i (v2 s) (z_spin_array g))
    (type_array g) (mc_success g) (mc_total g) (sphere_reject g)
    (energy_reject g) (is_initialised g) (polar_vector g)
    (polar_matrix_tp g) (polar_matrix g) (hamiltonian_simulation_flags g)
    (mt g).

Definition set_mt (g : globals) (r : G) : globals :=
  Globals (num_atoms g) (x_spin_array g) (y_spin_array g) (z_spin_array g)
    (type_array g) (mc_success g) (mc_total g) (sphere_reject g)
    (energy_reject g) (is_initialised g) (polar_vector g)
    (polar_matrix_tp g) (polar_matrix g) (hamiltonian_simulation_flags g) r.

(** The four statistics, written together. *)
Definition set_stats (g : globals) (success total sphere energy : T)
  : globals :=
  Globals (num_atoms g) (x_spin_array g) (y_spin_array g) (z_spin_array g)
    (type_array g) success total sphere energy (is_initialised g)
    (polar_vector g) (polar_matrix_tp g) (polar_matrix g)
    (hamiltonian_simulation_flags g) (mt g).

(** [sim::CMCinit]. *)
Definition CMCinit (e : env) (g : globals) : globals :=
  let '(pm, pm_tp, pv) :=
    polar_rot_matrix (constraint_phi e) (constraint_theta e) in
  let sx := dsin (constraint_phi e * M_PI / d180)
            * dcos (constraint_theta e * M_PI / d180) in
  let sy := dsin (constraint_phi e * M_PI / d180)
            * dsin (constraint_theta e * M_PI / d180) in
  let sz := dcos (constraint_phi e * M_PI / d180) in
  let fill (v : T) (a : list T) :=
    fold_left (fun a atom => upd atom v a) (seq 0 (num_atoms g)) a in
  Globals (num_atoms g)
    (fill sx (x_spin_array g)) (fill sy (y_spin_array g))
    (fill sz (z_spin_array g))
    (type_array g) (mc_success g) (mc_total g) (sphere_reject g)
    (energy_reject g) true pv pm_tp pm
    (upd 3 0%Z (hamiltonian_simulation_flags g)) (mt g).

(** *** One iteration of the loop of [sim::ConstrainedMonteCarlo] *)

(** The locals after the first spin has been moved and the second one
    picked (the statements before the sphere test). *)
Record first_move : Type := FirstMove {
  atom_number1 : nat;
  imat1 : nat;
  spin1_initial : vec3 T;
  spin1_init_mvd : vec3 T;
  spin1_moved : vec3 T;      (* spin1_final before it is normalised *)
  spin1_final : vec3 T;
  spin1_fin_mvd : vec3 T;
  delta_energy1 : T;
  atom_number2 : nat;
  imat2 : nat;
  spin2_initial : vec3 T;
  spin2_init_mvd : vec3 T;
  spin2_fin_mvd_0 : T;
  spin2_fin_mvd_1 : T;
  globals1 : globals
}.

(** A call of the generator [f]: the number it returns, and the globals
    with the generator's state advanced. *)
Definition draw (f : G -> T * G) (g : globals) : T * globals :=
  (fst (f (mt g)), set_mt g (snd (f (mt g)))).

(** [int(mtrandom::grnd()*atoms::num_atoms)], used as an array index. *)
Definition pick_atom (g : globals) (u : T) : nat :=
  Z.to_nat (to_int (u * of_int (Z.of_nat (num_atoms g)))).

Definition move_first (e : env) (g : globals) : first_move :=
  (* Randomly select spin number 1 *)
  let '(u, g) := draw (grnd e) g in
  let atom_number1 := pick_atom g u in
  let imat1 := nth atom_number1 (type_array g) O in
  (* Save initial Spin 1 *)
  let spin1_initial := spin_at g atom_number1 in
  let spin1_init_mvd := matvec (polar_matrix g) spin1_initial in
  (* move spin randomly cf Pierre Asselin *)
  let '(n0, g) := draw (gaussian e) g in
  let '(n1, g) := draw (gaussian e) g in
  let '(n2, g) := draw (gaussian e) g in
  let spin1_moved :=
    V3 (n0 + v0 spin1_initial) (n1 + v1 spin1_initial)
       (n2 + v2 spin1_initial) in
  let sqrt_ran :=
    d1 / dsqrt (v0 spin1_moved * v0 spin1_moved
                + v1 spin1_moved * v1 spin1_moved
                + v2 spin1_moved * v2 spin1_moved) in
  let spin1_final :=
    V3 (v0 spin1_moved * sqrt_ran) (v1 spin1_moved * sqrt_ran)
       (v2 spin1_moved * sqrt_ran) in
  let spin1_fin_mvd := matvec (polar_matrix g) spin1_final in
  (* Calculate current energy *)
  let Eold := calculate_spin_energy e g atom_number1 in
  (* Copy new spin position (provisionally accept move) *)
  let g := set_spin g atom_number1 spin1_final in
  (* Calculate new energy *)
  let Enew := calculate_spin_energy e g atom_number1 in
  (* Calculate difference in Joules/mu_B *)
  let delta_energy1 := (Enew - Eold) * mu_s_SI e imat1 * inv_mu_B in
  (* Randomly select spin number 2 *)
  let '(u, g) := draw (grnd e) g in
  let atom_number2 := pick_atom g u in
  let imat2 := nth atom_number2 (type_array g) O in
  (* Save initial Spin 2 *)
  let spin2_initial := spin_at g atom_number2 in
  let spin2_init_mvd := matvec (polar_matrix g) spin2_initial in
  (* Calculate new spin based on constraint Mx=My=0 *)
  let spin2_fin_mvd_0 :=
    v0 spin1_init_mvd + v0 spin2_init_mvd - v0 spin1_fin_mvd in
  let spin2_fin_mvd_1 :=
    v1 spin1_init_mvd + v1 spin2_init_mvd - v1 spin1_fin_mvd in
  FirstMove atom_number1 imat1 spin1_initial spin1_init_mvd spin1_moved
    spin1_final spin1_fin_mvd delta_energy1 atom_number2 imat2 spin2_initial
    spin2_init_mvd spin2_fin_mvd_0 spin2_fin_mvd_1 g.

(** The condition of the sphere test. *)
Definition on_sphere (m : first_move) : bool :=
  ((spin2_fin_mvd_0 m * spin2_fin_mvd_0 m
    + spin2_fin_mvd_1 m * spin2_fin_mvd_1 m) <? d1)
  && negb (Nat.eqb (atom_number1 m) (atom_number2 m)).

(** The locals after the second spin has been moved (the statements
    between the sphere test and the energy test). *)
Record second_move : Type := SecondMove {
  spin2_fin_mvd : vec3 T;
  spin2_final : vec3 T;
  delta_energy2 : T;
  delta_energy21 : T;
  Mz_old : T;
  Mz_new : T;
  globals2 : globals
}.

Definition move_second (e : env) (m : first_move) (M_other : vec3 T)
  : second_move :=
  let g := globals1 m in
  let spin2_fin_mvd_2 :=
    sign (v2 (spin2_init_mvd m))
    * dsqrt (d1 - spin2_fin_mvd_0 m * spin2_fin_mvd_0 m
             - spin2_fin_mvd_1 m * spin2_fin_mvd_1 m) in
  let spin2_fin_mvd :=
    V3 (spin2_fin_mvd_0 m) (spin2_fin_mvd_1 m) spin2_fin_mvd_2 in
  let spin2_final := matvec (polar_matrix_tp g) spin2_fin_mvd in
  (* Calculate current energy *)
  let Eold := calculate_spin_energy e g (atom_number2 m) in
  (* Copy new spin position (provisionally accept move) *)
  let g := set_spin g (atom_number2 m) spin2_final in
  (* Calculate new energy *)
  let Enew := calculate_spin_energy e g (atom_number2 m) in
  (* Calculate difference in Joules/mu_B *)
  let delta_energy2 := (Enew - Eold) * mu_s_SI e (imat2 m) * inv_mu_B in
  (* Calculate Delta E for both spins *)
  let delta_energy21 := delta_energy1 m + delta_energy2 in
  (* Compute Mz_other, Mz, Mz' *)
  let c := polar_vector g in
  let s1i := spin1_initial m in
  let s1f := spin1_final m in
  let s2i := spin2_initial m in
  let Mz_old := v0 M_other * v0 c + v1 M_other * v1 c + v2 M_other * v2 c in
  let Mz_new :=
    (v0 M_other + v0 s1f + v0 spin2_final - v0 s1i - v0 s2i) * v0 c
    + (v1 M_other + v1 s1f + v1 spin2_final - v1 s1i - v1 s2i) * v1 c
    + (v2 M_other + v2 s1f + v2 spin2_final - v2 s1i - v2 s2i) * v2 c in
  SecondMove spin2_fin_mvd spin2_final delta_energy2 delta_energy21
    Mz_old Mz_new g.

Definition kBTBohr (e : env) : T := mu_B / (temperature e * k_B).

Definition probability (e : env) (m : first_move) (q : second_move) : T :=
  dexp (- delta_energy21 q * kBTBohr e)
  * ((Mz_new q / Mz_old q) * (Mz_new q / Mz_old q))
  * dfabs (v2 (spin2_init_mvd m) / v2 (spin2_fin_mvd q)).

(** [M_other + spin1_final + spin2_final - spin1_initial - spin2_initial],
    component by component. *)
Definition moved_M (m : first_move) (q : second_move) (M_other : vec3 T)
  : vec3 T :=
  V3 (v0 M_other + v0 (spin1_final m) + v0 (spin2_final q)
      - v0 (spin1_initial m) - v0 (spin2_initial m))
     (v1 M_other + v1 (spin1_final m) + v1 (spin2_final q)
      - v1 (spin1_initial m) - v1 (spin2_initial m))
     (v2 M_other + v2 (spin1_final m) + v2 (spin2_final q)
      - v2 (spin1_initial m) - v2 (spin2_initial m)).

(** The four ways through the loop body. *)

(** [if(delta_energy21<0.0) continue;]: the rest of the body, the
    increment of [mc_total] included, is skipped. *)
Definition path_continue (q : second_move) (M_other : vec3 T)
  : globals * vec3 T :=
  (globals2 q, M_other).

Definition path_accept (m : first_move) (q : second_move) (r : G)
  (M_other : vec3 T) : globals * vec3 T :=
  let g := set_mt (globals2 q) r in
  (set_stats g (mc_success g + d1) (mc_total g + d1) (sphere_reject g)
     (energy_reject g),
   moved_M m q M_other).

Definition path_energy_reject (m : first_move) (q : second_move) (r : G)
  (M_other : vec3 T) : globals * vec3 T :=
  let g := set_mt (globals2 q) r in
  (* reset spin positions *)
  let g := set_spin g (atom_number1 m) (spin1_initial m) in
  let g := set_spin g (atom_number2 m) (spin2_initial m) in
  (set_stats g (mc_success g) (mc_total g + d1) (sphere_reject g)
     (energy_reject g + d1),
   M_other).

Definition path_sphere_reject (m : first_move) (M_other : vec3 T)
  : globals * vec3 T :=
  let g := globals1 m in
  let g := set_spin g (atom_number1 m) (spin1_initial m) in
  (set_stats g (mc_success g) (mc_total g + d1) (sphere_reject g + d1)
     (energy_reject g),
   M_other).

(** The second half of the loop body: the sphere test, the energy test and
    the Metropolis test, on the locals [m] of the first half. *)
Definition decide_move (e : env) (m : first_move) (M_other : vec3 T)
  : globals * vec3 T :=
  if on_sphere m then
    let q := move_second e m M_other in
    (* Check for lower energy state and accept unconditionally *)
    if delta_energy21 q <? d0 then path_continue q M_other
    (* Otherwise evaluate probability for move *)
    else
      let p := probability e m q in
      let '(u, g) := draw (grnd e) (globals2 q) in
      if (p >=? u) && (Mz_new q >=? d0)
      then path_accept m q (mt g) M_other
      else path_energy_reject m q (mt g) M_other
  (* if s2 not on unit sphere *)
  else path_sphere_reject m M_other.

(** The loop body: one trial move of a pair of spins. *)
Definition trial (e : env) (g : globals) (M_other : vec3 T)
  : globals * vec3 T :=
  decide_move e (move_first e g) M_other.

(** [for (int mcs=0;mcs<atoms::num_atoms;mcs++)]. *)
Fixpoint mc_loop (e : env) (n : nat) (g : globals) (M_other : vec3 T)
  : globals * vec3 T :=
  match n with
  | O => (g, M_other)
  | S k => let '(g', M') := trial e g M_other in mc_loop e k g' M'
  end.

(** The loop that sums the spins into [M_other] before the trials. *)
Definition sum_spins (g : globals) : vec3 T :=
  fold_left
    (fun M atom =>
       V3 (v0 M + nth atom (x_spin_array g) d0)
          (v1 M + nth atom (y_spin_array g) d0)
          (v2 M + nth atom (z_spin_array g) d0))
    (seq 0 (num_atoms g)) (V3 d0 d0 d0).

(** The state in which the loop of trials is entered. *)
Definition sweep_entry (e : env) (g : globals) : globals * vec3 T :=
  (* check for cmc initialisation *)
  let g := if is_initialised g then g else CMCinit e g in
  (g, sum_spins g).

(** The body of [sim::ConstrainedMonteCarlo], with the final value of the
    local [M_other] kept beside the globals. *)
Definition sweep (e : env) (g : globals) : globals * vec3 T :=
  let '(g, M_other) := sweep_entry e g in
  mc_loop e (num_atoms g) g M_other.

Definition EXIT_SUCCESS : Z := 0.

(** [sim::ConstrainedMonteCarlo]. *)
Definition ConstrainedMonteCarlo (e : env) (g : globals) : globals * Z :=
  (fst (sweep e g), EXIT_SUCCESS).

End Integrator.

Arguments Globals {T G}.
Arguments Env {T G}.

(** ** Properties of states *)

Section Predicates.

Context {T : Type} {A : Arith T} {G : Type}.

Local Open Scope dbl_scope.

(** What the first half of a trial on [g] leaves in its locals [m]: the
    saved spins, their images in the constraint frame, the normalised first
    spin, the in-plane part asked of the second one, and the globals with
    the first spin written. *)
Definition is_first_move (g : globals (T:=T) G) (m : first_move G) : Prop :=
  let t := spin1_moved m in
  let sqrt_ran := d1 / dsqrt (v0 t * v0 t + v1 t * v1 t + v2 t * v2 t) in
  spin1_initial m = spin_at g (atom_number1 m)
  /\ spin1_init_mvd m = matvec (polar_matrix g) (spin1_initial m)
  /\ spin1_final m
     = V3 (v0 t * sqrt_ran) (v1 t * sqrt_ran) (v2 t * sqrt_ran)
  /\ spin1_fin_mvd m = matvec (polar_matrix g) (spin1_final m)
  /\ spin2_initial m
     = spin_at (set_spin g (atom_number1 m) (spin1_final m))
         (atom_number2 m)
  /\ spin2_init_mvd m = matvec (polar_matrix g) (spin2_initial m)
  /\ spin2_fin_mvd_0 m
     = v0 (spin1_init_mvd m) + v0 (spin2_init_mvd m) - v0 (spin1_fin_mvd m)
  /\ spin2_fin_mvd_1 m
     = v1 (spin1_init_mvd m) + v1 (spin2_init_mvd m) - v1 (spin1_fin_mvd m)
  /\ globals1 m
     = set_mt (set_spin g (atom_number1 m) (spin1_final m))
         (mt (globals1 m)).

(** The three spin arrays have [num_atoms] entries each. *)
Definition well_formed (g : globals (T:=T) G) : Prop :=
  length (x_spin_array g) = num_atoms g
  /\ length (y_spin_array g) = num_atoms g
  /\ length (z_spin_array g) = num_atoms g.

(** The spin field: the three arrays together. *)
Definition spin_arrays (g : globals (T:=T) G)
  : list T * list T * list T :=
  (x_spin_array g, y_spin_array g, z_spin_array g).

End Predicates.

Section RealPredicates.

Variable G : Type.

Local Open Scope R_scope.

Definition unit_vec (s : vec3 R) : Prop :=
  v0 s * v0 s + v1 s * v1 s + v2 s * v2 s = 1.

(** Every spin of the field is a unit vector. *)
Definition unit_spins (g : globals G) : Prop :=
  forall i, (i < num_atoms g)%nat -> unit_vec (spin_at g i).

(** mc_total = mc_success + energy_reject + sphere_reject. *)
Definition counters_consistent (g : globals (T:=R) G) : Prop :=
  mc_total g = mc_success g + energy_reject g + sphere_reject g.

(** The sum of a list of reals, as mathematics writes it. *)
Definition Rsum (l : list R) : R := fold_right Rplus 0 l.

(** The total magnetisation, the sum of all spin vectors. *)
Definition total_spin (g : globals (T:=R) G) : vec3 R :=
  V3 (Rsum (x_spin_array g)) (Rsum (y_spin_array g))
     (Rsum (z_spin_array g)).

Definition identity3 : mat3 R :=
  V3 (V3 1 0 0) (V3 0 1 0) (V3 0 0 1).

(** [polar_matrix_tp] is the transpose of [polar_matrix], and their product
    is the identity. *)
Definition orthogonal_frame (g : globals (T:=R) G) : Prop :=
  polar_matrix_tp g = transpose (polar_matrix g)
  /\ matmul (polar_matrix g) (polar_matrix_tp g) = identity3.

(** The contract of [mtrandom::grnd]: a number of the interval [0,1). *)
Definition grnd_in_unit_interval (e : env (T:=R) G) : Prop :=
  forall r, 0 <= fst (grnd e r) < 1.

End RealPredicates.

(** ** A scripted generator and two concrete inputs *)

(** A generator that reads its numbers off a tape. *)
Definition pop {T : Type} (d : T) (tape : list T) : T * list T :=
  match tape with
  | [] => (d, [])
  | u :: rest => (u, rest)
  end.

Section RealExample.

Local Open Scope R_scope.

(** Two spins along the constraint direction +z (the state [CMCinit]
    leaves for phi = theta = 0), nothing counted yet. The tape holds the
    numbers the generator will return: 0 picks site 0, (3,0,3) is the
    Gaussian step, 1/2 picks site 1; [rest] is what follows. *)
Definition ex_globals (rest : list R) : globals (list R) :=
  Globals 2%nat [0; 0] [0; 0] [1; 1] [O; O] 0 0 0 0 true
    (V3 0 0 1) identity3 identity3 [1; 1; 1; 0]%Z
    (0 :: 3 :: 0 :: 3 :: 1/2 :: rest).

(** Two energy functions: a field along -z, in which the energy of a site
    is the z component of its spin, and no field at all. *)
Definition field_down (g : globals (T:=R) (list R)) (atom : nat) : R :=
  nth atom (z_spin_array g) 0.

Definition no_field (g : globals (T:=R) (list R)) (atom : nat) : R := 0.

(** One material of one Bohr magneton at 300 K, with the constraint along
    +z (phi = theta = 0). *)
Definition ex_env (E : globals (T:=R) (list R) -> nat -> R)
  : env (list R) :=
  Env 300 0 0 (fun _ => 9.27400915e-24) E (pop 0) (pop 0).

Definition ex_M_other : vec3 R := V3 0 0 2.

(** The same surroundings with a generator that always returns 0: every
    trial picks site 0 twice. *)
Definition ex_still_env : env (list R) :=
  Env 300 0 0 (fun _ => 9.27400915e-24) field_down
    (fun r => (0, r)) (fun r => (0, r)).

(** The same state once the first site and its three Gaussian numbers have
    been drawn, and the states with the first and with both spins moved. *)
Definition ex_drawn (rest : list R) : globals (list R) :=
  Globals 2%nat [0; 0] [0; 0] [1; 1] [O; O] 0 0 0 0 true
    (V3 0 0 1) identity3 identity3 [1; 1; 1; 0]%Z (1/2 :: rest).

Definition ex_moved1 (tape : list R) : globals (list R) :=
  Globals 2%nat [3/5; 0] [0; 0] [4/5; 1] [O; O] 0 0 0 0 true
    (V3 0 0 1) identity3 identity3 [1; 1; 1; 0]%Z tape.

Definition ex_moved2 (tape : list R) : globals (list R) :=
  Globals 2%nat [3/5; -3/5] [0; 0] [4/5; 4/5] [O; O] 0 0 0 0 true
    (V3 0 0 1) identity3 identity3 [1; 1; 1; 0]%Z tape.

(** The locals of the trial on [ex_globals rest] after its first half, for
    an energy function [E]. *)
Definition ex_first_move (E : globals (T:=R) (list R) -> nat -> R)
  (rest : list R) : first_move (list R) :=
  FirstMove 0 0 (V3 0 0 1) (V3 0 0 1) (V3 3 0 4) (V3 (3/5) 0 (4/5))
    (V3 (3/5) 0 (4/5))
    ((E (ex_moved1 (1/2 :: rest)) 0%nat - E (ex_drawn rest) 0%nat)
     * 9.27400915e-24 * 1.07828231e23)
    1 0 (V3 0 0 1) (V3 0 0 1) (-3/5) 0 (ex_moved1 rest).

(** The locals after the second half in the field along -z. *)
Definition ex_second_move (rest : list R) : second_move (list R) :=
  SecondMove (V3 (-3/5) 0 (4/5)) (V3 (-3/5) 0 (4/5))
    ((4/5 - 1) * 9.27400915e-24 * 1.07828231e23)
    ((4/5 - 1) * 9.27400915e-24 * 1.07828231e23
     + (4/5 - 1) * 9.27400915e-24 * 1.07828231e23)
    2 (8/5) (ex_moved2 rest).

End RealExample.

Section FloatExample.

Local Open Scope float_scope.

(** Four spins whose z components sum to zero, with the constraint along
    +z, no field (every site energy is 0) and T = 300 K. *)
Definition fex_globals : globals (list float) :=
  Globals 4%nat [0; 0; 0.8; 0.8] [0; 0; 0; 0] [1; -1; 0.6; -0.6]
    [O; O; O; O] 0 0 0 0 true
    (V3 0 0 1) (V3 (V3 1 0 0) (V3 0 1 0) (V3 0 0 1))
    (V3 (V3 1 0 0) (V3 0 1 0) (V3 0 0 1)) [1; 1; 1; 0]%Z
    [0; 3; 0; 3; 0.5; 0.25].

Definition fex_env : env (list float) :=
  Env 300 0 0 (fun _ => 9.27400915e-24) (fun _ _ => 0) (pop 0) (pop 0).

(** Two opposed spins along the constraint axis, and a generator whose
    Gaussian numbers are all zero: the pair move changes nothing. *)
Definition fex_opposed : globals (list float) :=
  Globals 2%nat [0; 0] [0; 0] [1; -1] [O; O] 0 0 0 0 true
    (V3 0 0 1) (V3 (V3 1 0 0) (V3 0 1 0) (V3 0 0 1))
    (V3 (V3 1 0 0) (V3 0 1 0) (V3 0 0 1)) [1; 1; 1; 0]%Z
    [0; 0; 0; 0; 0.5; 0.25].

(** One spin along +z whose Gaussian step (0,0,-1) cancels it. *)
Definition fex_cancelled : globals (list float) :=
  Globals 2%nat [0; 0] [0; 0] [1; -1] [O; O] 0 0 0 0 true
    (V3 0 0 1) (V3 (V3 1 0 0) (V3 0 1 0) (V3 0 0 1))
    (V3 (V3 1 0 0) (V3 0 1 0) (V3 0 0 1)) [1; 1; 1; 0]%Z
    [0; 0; 0; -1; 0.5; 0.25].

End FloatExample.

(** ** Further properties of states *)

Section MorePredicates.

Context {T : Type} {A : Arith T} {L : Libm T} {G : Type}.

Local Open Scope dbl_scope.

(** The direction [sim::CMCinit] gives every spin: the local variables
    [sx], [sy], [sz]. *)
Definition constraint_direction (e : env (T:=T) G) : vec3 T :=
  V3 (dsin (constraint_phi e * M_PI / d180)
      * dcos (constraint_theta e * M_PI / d180))
     (dsin (constraint_phi e * M_PI / d180)
      * dsin (constraint_theta e * M_PI / d180))
     (dcos (constraint_phi e * M_PI / d180)).

(** The projection of a magnetisation on the constraint vector, as the
    loop body computes it for [Mz_old]. *)
Definition Mz_of (g : globals (T:=T) G) (M : vec3 T) : T :=
  v0 M * v0 (polar_vector g) + v1 M * v1 (polar_vector g)
  + v2 M * v2 (polar_vector g).

(** Two states with the same system, frame and flags: they differ at most
    in the spins, in the statistics and in the generator. *)
Definition same_setup (a b : globals (T:=T) G) : Prop :=
  num_atoms a = num_atoms b
  /\ type_array a = type_array b
  /\ is_initialised a = is_initialised b
  /\ polar_vector a = polar_vector b
  /\ polar_matrix_tp a = polar_matrix_tp b
  /\ polar_matrix a = polar_matrix b
  /\ hamiltonian_simulation_flags a = hamiltonian_simulation_flags b.

(** The four statistics together. *)
Definition stats (g : globals (T:=T) G) : T * T * T * T :=
  (mc_success g, mc_total g, sphere_reject g, energy_reject g).

(** The surroundings [e] with other values in [sim::constraint_phi] and
    [sim::constraint_theta]. *)
Definition with_angles (e : env (T:=T) G) (phi theta : T) : env G :=
  Env (temperature e) phi theta (mu_s_SI e) (calculate_spin_energy e)
    (grnd e) (gaussian e).

End MorePredicates.

Section MoreRealPredicates.

Variable G : Type.

Local Open Scope R_scope.

(** The two components of the total magnetisation that lie in the plane
    normal to the constraint direction: x and y in the constraint frame. *)
Definition in_plane (g : globals (T:=R) G) (s : vec3 R) : R * R :=
  (v0 (matvec (polar_matrix g) s), v1 (matvec (polar_matrix g) s)).

(** No Gaussian step of the generator cancels the spin it is added to. *)
Definition never_cancels (e : env (T:=R) G) : Prop :=
  forall g : globals (T:=R) G,
    well_formed g -> unit_spins g ->
    let t := spin1_moved (move_first e g) in
    v0 t * v0 t + v1 t * v1 t + v2 t * v2 t <> 0.

End MoreRealPredicates.

Section MoreExamples.

Local Open Scope R_scope.

(** One spin along +z. *)
Definition ex_single : globals (list R) :=
  Globals 1%nat [0] [0] [1] [O] 0 0 0 0 true
    (V3 0 0 1) identity3 identity3 [1; 1; 1; 0]%Z [].

(** A generator whose uniform numbers are all 0 and whose Gaussian
    numbers are all 2. *)
Definition ex_drift_env : env (list R) :=
  Env 300 0 0 (fun _ => 9.27400915e-24) field_down
    (fun r => (0, r)) (fun r => (2, r)).

(** Two spins that were never initialised, with stale statistics. *)
Definition ex_raw : globals (list R) :=
  Globals 2%nat [1; 0] [0; 1] [0; 0] [O; O] 7 9 1 1 false
    (V3 0 0 0) (V3 (V3 0 0 0) (V3 0 0 0) (V3 0 0 0))
    (V3 (V3 0 0 0) (V3 0 0 0) (V3 0 0 0)) [1; 1; 1; 1]%Z [].

(** No atom at all, and nothing initialised. *)
Definition ex_empty : globals (list R) :=
  Globals 0%nat [] [] [] [] 0 0 0 0 false
    (V3 0 0 0) (V3 (V3 0 0 0) (V3 0 0 0) (V3 0 0 0))
    (V3 (V3 0 0 0) (V3 0 0 0) (V3 0 0 0)) [1; 1; 1; 1]%Z [].

End MoreExamples.

Section MoreFloatExamples.

Local Open Scope float_scope.

(** A stand-in for the C library: the values C fixes for exp at its
    special arguments (NaN at NaN, +0 at -infinity), and the polynomials
    of first order elsewhere. *)
Definition ex_libm : Libm float := {|
  dexp := fun x => if x =? neg_infinity then 0 else 1 + x;
  dsin := fun x => x;
  dcos := fun _ => 1
|}.

(** The surroundings of [fex_env] at temperature zero, and with an energy
    function that returns NaN. *)
Definition fex_cold_env : env (list float) :=
  Env 0 0 0 (fun _ => 9.27400915e-24) (fun _ _ => 0) (pop 0) (pop 0).

Definition fex_nan_env : env (list float) :=
  Env 300 0 0 (fun _ => 9.27400915e-24) (fun _ _ => nan) (pop 0) (pop 0).

End MoreFloatExamples.

Section HalfExamples.

(** Generators whose uniform numbers are all 1/2 and whose Gaussian
    numbers are all 0, in both readings. *)
Definition ex_half_env : env (list R) :=
  Env 300%R 0%R 0%R (fun _ => 9.27400915e-24%R) field_down
    (fun r => ((1 / 2)%R, r)) (fun r => (0%R, r)).

Definition fex_half_env : env (list float) :=
  Env 300%float 0%float 0%float (fun _ => 9.27400915e-24%float)
    (fun _ _ => 0%float) (fun r => (0.5%float, r)) (fun r => (0%float, r)).

End HalfExamples.

Section AlignedExample.

Local Open Scope float_scope.

(** Two spins along the constraint direction +z, as [ex_globals], in
    binary64: site 0 steps by (3,0,3), site 1 is the partner, and the
    number drawn for the test is 0.25. *)
Definition fex_aligned : globals (list float) :=
  Globals 2%nat [0; 0] [0; 0] [1; 1] [O; O] 0 0 0 0 true
    (V3 0 0 1) (V3 (V3 1 0 0) (V3 0 1 0) (V3 0 0 1))
    (V3 (V3 1 0 0) (V3 0 1 0) (V3 0 0 1)) [1; 1; 1; 0]%Z
    [0; 3; 0; 3; 0.5; 0.25].

End AlignedExample.

(** * Lemmas *)

(** ** Arrays *)

Section ArrayLemmas.

Context {A : Type}.

Lemma upd_length (i : nat) (v : A) (l : list A) :
  length (upd i v l) = length l.
Proof.
  revert i; induction l as [|h t IH]; intros [|j]; simpl; auto.
Qed.

Lemma nth_upd_same (i : nat) (v d : A) (l : list A) :
  (i < length l)%nat -> nth i (upd i v l) d = v.
Proof.
  revert i; induction l as [|h t IH]; intros [|j] Hi; simpl in *;
    try lia; auto.
  apply IH; lia.
Qed.

Lemma nth_upd_other (i j : nat) (v d : A) (l : list A) :
  i <> j -> nth j (upd i v l) d = nth j l d.
Proof.
  revert i j; induction l as [|h t IH]; intros [|i] [|j] Hij; simpl;
    auto; try congruence.
Qed.

Lemma upd_beyond (i : nat) (v : A) (l : list A) :
  (length l <= i)%nat -> upd i v l = l.
Proof.
  revert i; induction l as [|h t IH]; intros [|j] Hi; simpl in *;
    auto; try lia.
  f_equal; apply IH; lia.
Qed.

Lemma upd_upd_same (i : nat) (v w : A) (l : list A) :
  upd i v (upd i w l) = upd i v l.
Proof.
  revert i; induction l as [|h t IH]; intros [|j]; simpl; auto.
  f_equal; apply IH.
Qed.

Lemma upd_nth_same (i : nat) (d : A) (l : list A) :
  upd i (nth i l d) l = l.
Proof.
  revert i; induction l as [|h t IH]; intros [|j]; simpl; auto.
  f_equal; apply IH.
Qed.

Lemma upd_swap (i j : nat) (v w : A) (l : list A) :
  i <> j -> upd i v (upd j w l) = upd j w (upd i v l).
Proof.
  revert i j; induction l as [|h t IH]; intros [|i] [|j] Hij; simpl;
    auto; try congruence.
  f_equal; apply IH; congruence.
Qed.

(** Writing a value and then the old one back leaves the array as it was,
    whatever was written to another cell in between. *)
Lemma upd_restore (i : nat) (v d : A) (l : list A) :
  upd i (nth i l d) (upd i v l) = l.
Proof.
  rewrite upd_upd_same; apply upd_nth_same.
Qed.

Lemma upd_restore_two (i j : nat) (v w d : A) (l : list A) :
  i <> j ->
  upd j (nth j l d) (upd i (nth i l d) (upd j w (upd i v l))) = l.
Proof.
  intros Hij.
  rewrite (upd_swap (i := i) (j := j)) by exact Hij.
  rewrite upd_upd_same, upd_restore. apply upd_nth_same.
Qed.

End ArrayLemmas.

(** ** Real numbers *)

Section RealLemmas.

Local Open Scope R_scope.

Lemma Rltb_true (a b : R) : a < b -> Rltb a b = true.
Proof. intros H; unfold Rltb; destruct (Rlt_dec a b); tauto. Qed.

Lemma Rltb_false (a b : R) : b <= a -> Rltb a b = false.
Proof. intros H; unfold Rltb; destruct (Rlt_dec a b); auto; lra. Qed.

Lemma Rltb_true_iff (a b : R) : Rltb a b = true <-> a < b.
Proof.
  unfold Rltb; destruct (Rlt_dec a b); split; auto; discriminate.
Qed.

Lemma Rltb_false_iff (a b : R) : Rltb a b = false <-> b <= a.
Proof.
  unfold Rltb; destruct (Rlt_dec a b); split; auto;
    try discriminate; lra.
Qed.

Lemma Rgeb_true_iff (a b : R) : Rgeb a b = true <-> b <= a.
Proof.
  unfold Rgeb; destruct (Rge_dec a b); split; auto;
    try discriminate; lra.
Qed.

Lemma Rgeb_false_iff (a b : R) : Rgeb a b = false <-> a < b.
Proof.
  unfold Rgeb; destruct (Rge_dec a b); split; auto;
    try discriminate; lra.
Qed.

(** Truncation is the identity on the integers. *)
Lemma Rtrunc_IZR (z : Z) : Rtrunc (IZR z) = z.
Proof.
  unfold Rtrunc; destruct (Rle_dec 0 (IZR z)).
  - symmetry; apply Int_part_spec; lra.
  - rewrite <- opp_IZR.
    rewrite <- (Int_part_spec (IZR (- z)) (- z)%Z) by lra.
    lia.
Qed.

(** A number of [0,1) scaled by [n] truncates to an index below [n]. *)
Lemma Rtrunc_scaled_lt (u : R) (n : nat) :
  0 <= u < 1 -> (0 < n)%nat ->
  (Z.to_nat (Rtrunc (u * IZR (Z.of_nat n))) < n)%nat.
Proof.
  intros [H0 H1] Hn.
  assert (Hpos : 0 < IZR (Z.of_nat n)) by (apply IZR_lt; lia).
  set (x := u * IZR (Z.of_nat n)).
  assert (Hx0 : 0 <= x) by (unfold x; nra).
  assert (Hx1 : x < IZR (Z.of_nat n)) by (unfold x; nra).
  unfold Rtrunc; destruct (Rle_dec 0 x) as [_|Hn0]; [|tauto].
  destruct (base_Int_part x) as [Hle Hgt].
  assert (Int_part x < Z.of_nat n)%Z by (apply lt_IZR; lra).
  assert (-1 < Int_part x)%Z by (apply lt_IZR; lra).
  lia.
Qed.

Lemma exp_upper (x : R) : 0 <= x <= 1 / 10 -> exp x <= 10 / 9.
Proof.
  intros [H0 H1].
  pose proof (exp_ineq1_le (- x)) as Hlow.
  rewrite exp_Ropp in Hlow.
  pose proof (exp_pos x) as Hpos.
  assert (Hinv : / exp x * exp x = 1) by (apply Rinv_l; lra).
  assert (H9 : 9 / 10 <= / exp x) by lra.
  nra.
Qed.

End RealLemmas.

(** ** The structure of one trial, for any reading of [double] *)

Section Structure.

Context {T : Type} {A : Arith T} {G : Type}.

Local Open Scope dbl_scope.

Lemma move_first_spec (e : env G) (g : globals G) :
  is_first_move g (move_first e g).
Proof.
  unfold is_first_move; cbv zeta.
  repeat (split; [vm_compute; reflexivity|]).
  vm_compute; reflexivity.
Qed.

(** The two sites are the generator's first and fifth numbers. *)
Lemma move_first_atoms (e : env G) (g : globals G) :
  let m := move_first e g in
  let r1 := grnd e (mt g) in
  let r4 :=
    snd (gaussian e (snd (gaussian e (snd (gaussian e (snd r1)))))) in
  atom_number1 m = pick_atom g (fst r1)
  /\ atom_number2 m = pick_atom g (fst (grnd e r4)).
Proof. cbv zeta; split; vm_compute; reflexivity. Qed.

Lemma on_sphere_distinct (m : first_move G) :
  on_sphere m = true -> atom_number1 m <> atom_number2 m.
Proof.
  unfold on_sphere; intros H.
  apply andb_true_iff in H; destruct H as [_ H].
  apply negb_true_iff, Nat.eqb_neq in H; exact H.
Qed.

Lemma on_sphere_inside (m : first_move G) :
  on_sphere m = true ->
  (spin2_fin_mvd_0 m * spin2_fin_mvd_0 m
   + spin2_fin_mvd_1 m * spin2_fin_mvd_1 m <? d1) = true.
Proof.
  unfold on_sphere; intros H.
  apply andb_true_iff in H; tauto.
Qed.

Lemma same_site_off_sphere (m : first_move G) :
  atom_number1 m = atom_number2 m -> on_sphere m = false.
Proof.
  unfold on_sphere; intros H; rewrite H, Nat.eqb_refl.
  apply andb_false_r.
Qed.

(** *** The globals after the first half *)

Section FirstHalf.

Variable g : globals (T:=T) G.
Variable m : first_move (T:=T) G.
Hypothesis Hm : is_first_move g m.

Lemma first_move_stats :
  mc_success (globals1 m) = mc_success g
  /\ mc_total (globals1 m) = mc_total g
  /\ sphere_reject (globals1 m) = sphere_reject g
  /\ energy_reject (globals1 m) = energy_reject g.
Proof.
  destruct Hm as (_ & _ & _ & _ & _ & _ & _ & _ & Hg).
  rewrite Hg; repeat split.
Qed.

Lemma first_move_frame :
  num_atoms (globals1 m) = num_atoms g
  /\ polar_matrix (globals1 m) = polar_matrix g
  /\ polar_matrix_tp (globals1 m) = polar_matrix_tp g
  /\ polar_vector (globals1 m) = polar_vector g.
Proof.
  destruct Hm as (_ & _ & _ & _ & _ & _ & _ & _ & Hg).
  rewrite Hg; repeat split.
Qed.

Lemma first_move_arrays :
  spin_arrays (globals1 m)
  = spin_arrays (set_spin g (atom_number1 m) (spin1_final m)).
Proof.
  destruct Hm as (_ & _ & _ & _ & _ & _ & _ & _ & Hg).
  rewrite Hg; reflexivity.
Qed.

(** Undoing the first move gives back the spin field of [g]. *)
Lemma restore_first :
  spin_arrays (set_spin (globals1 m) (atom_number1 m) (spin1_initial m))
  = spin_arrays g.
Proof.
  pose proof first_move_arrays as Ha.
  destruct Hm as (Hi & _).
  unfold spin_arrays in *; injection Ha as Hx Hy Hz.
  cbn [set_spin x_spin_array y_spin_array z_spin_array] in *.
  rewrite Hx, Hy, Hz, Hi; cbn [spin_at v0 v1 v2].
  rewrite !upd_restore; reflexivity.
Qed.

(** Undoing both moves, the first one first, does so too when the two sites
    differ. *)
Lemma restore_both (g2 : globals G) (s : vec3 T) :
  atom_number1 m <> atom_number2 m ->
  spin_arrays g2 = spin_arrays (set_spin (globals1 m) (atom_number2 m) s) ->
  spin_arrays
    (set_spin (set_spin g2 (atom_number1 m) (spin1_initial m))
       (atom_number2 m) (spin2_initial m))
  = spin_arrays g.
Proof.
  intros Hne H2.
  pose proof first_move_arrays as Ha.
  destruct Hm as (Hi & _ & _ & _ & Hj & _).
  unfold spin_arrays in *.
  injection Ha as Hx Hy Hz; injection H2 as Hx2 Hy2 Hz2.
  cbn [set_spin x_spin_array y_spin_array z_spin_array] in *.
  rewrite Hx2, Hy2, Hz2, Hx, Hy, Hz, Hi, Hj.
  cbn [spin_at set_spin x_spin_array y_spin_array z_spin_array v0 v1 v2].
  rewrite !nth_upd_other by exact Hne.
  rewrite !upd_restore_two by exact Hne; reflexivity.
Qed.

End FirstHalf.

(** *** The four ways through the second half *)

Context {L : Libm T}.

Variable e : env (T:=T) G.
Variable m : first_move (T:=T) G.
Variable M : vec3 T.

Lemma decide_sphere_reject :
  on_sphere m = false -> decide_move e m M = path_sphere_reject m M.
Proof.
  intros H; unfold decide_move; rewrite H; reflexivity.
Qed.

Lemma decide_continue :
  on_sphere m = true ->
  (delta_energy21 (move_second e m M) <? d0) = true ->
  decide_move e m M = path_continue (move_second e m M) M.
Proof.
  intros H1 H2; unfold decide_move; rewrite H1; cbv zeta.
  rewrite H2; reflexivity.
Qed.

Lemma decide_metropolis :
  let q := move_second e m M in
  let u := fst (grnd e (mt (globals2 q))) in
  let r := snd (grnd e (mt (globals2 q))) in
  on_sphere m = true ->
  (delta_energy21 q <? d0) = false ->
  decide_move e m M
  = if (probability e m q >=? u) && (Mz_new q >=? d0)
    then path_accept m q r M
    else path_energy_reject m q r M.
Proof.
  intros q u r H1 H2; unfold decide_move; rewrite H1; cbv zeta.
  fold q; rewrite H2; reflexivity.
Qed.

Lemma second_move_stats :
  let q := move_second e m M in
  mc_success (globals2 q) = mc_success (globals1 m)
  /\ mc_total (globals2 q) = mc_total (globals1 m)
  /\ sphere_reject (globals2 q) = sphere_reject (globals1 m)
  /\ energy_reject (globals2 q) = energy_reject (globals1 m)
  /\ num_atoms (globals2 q) = num_atoms (globals1 m)
  /\ mt (globals2 q) = mt (globals1 m).
Proof. repeat split. Qed.

Lemma second_move_arrays :
  let q := move_second e m M in
  spin_arrays (globals2 q)
  = spin_arrays (set_spin (globals1 m) (atom_number2 m) (spin2_final q)).
Proof. reflexivity. Qed.

End Structure.

(** In a goal about [trial e g M], replaces the first half [move_first e g]
    by any [m] with [Hm : is_first_move g m]. *)
Ltac first_half e g m Hm :=
  cbv zeta; unfold trial;
  generalize (move_first_spec e g); generalize (move_first e g);
  intros m Hm.

(** ** The real example, run by hand *)

(** Unfolds the program and the example, and nothing of the reals. *)
Ltac run :=
  cbv beta iota zeta delta
    [move_first move_second draw on_sphere probability kBTBohr moved_M sign
     path_continue path_accept path_energy_reject path_sphere_reject
     ex_env ex_globals ex_M_other ex_drawn ex_moved1 ex_moved2
     ex_first_move ex_second_move identity3 pop field_down no_field total_spin Rsum
     fold_right fold_left seq sum_spins
     spin_at set_spin set_mt set_stats matvec
     num_atoms x_spin_array y_spin_array z_spin_array type_array mc_success
     mc_total sphere_reject energy_reject is_initialised polar_vector
     polar_matrix_tp polar_matrix hamiltonian_simulation_flags mt
     temperature constraint_phi constraint_theta mu_s_SI
     calculate_spin_energy grnd gaussian
     atom_number1 imat1 spin1_initial spin1_init_mvd spin1_moved spin1_final
     spin1_fin_mvd delta_energy1 atom_number2 imat2 spin2_initial
     spin2_init_mvd spin2_fin_mvd_0 spin2_fin_mvd_1 globals1
     spin2_fin_mvd spin2_final delta_energy2 delta_energy21 Mz_old Mz_new
     globals2
     v0 v1 v2 nth upd fst snd negb andb Nat.eqb
     dadd dsub dmul ddiv dneg dsqrt dexp dfabs dlt dge of_int
     to_int d0 d1 inv_mu_B mu_B k_B R_arith R_libm].

Ltac fields := repeat (f_equal; try lra).

Section ExampleRun.

Local Open Scope R_scope.

Lemma ex_pick_first (g : globals (T:=R) (list R)) :
  num_atoms g = 2%nat -> pick_atom g 0 = 0%nat.
Proof.
  intros H; unfold pick_atom; rewrite H; cbn [dmul of_int to_int R_arith].
  replace (0 * IZR (Z.of_nat 2)) with (IZR 0) by (simpl; lra).
  rewrite Rtrunc_IZR; reflexivity.
Qed.

Lemma ex_pick_second (g : globals (T:=R) (list R)) :
  num_atoms g = 2%nat -> pick_atom g (1 / 2) = 1%nat.
Proof.
  intros H; unfold pick_atom; rewrite H; cbn [dmul of_int to_int R_arith].
  replace (1 / 2 * IZR (Z.of_nat 2)) with (IZR 1) by (simpl; lra).
  rewrite Rtrunc_IZR; reflexivity.
Qed.

Lemma ex_sqrt_25 :
  sqrt ((3 + 0) * (3 + 0) + (0 + 0) * (0 + 0) + (3 + 1) * (3 + 1)) = 5.
Proof. apply sqrt_lem_1; lra. Qed.

Lemma ex_sqrt_16_25 : sqrt (1 - - 3 / 5 * (- 3 / 5) - 0 * 0) = 4 / 5.
Proof. apply sqrt_lem_1; lra. Qed.

(** The first half of the trial: site 0 moves from (0,0,1) to
    (3/5,0,4/5), site 1 is picked, and the constraint asks for
    (-3/5, 0) as the in-plane part of its new spin. *)
Lemma ex_first (E : globals (T:=R) (list R) -> nat -> R) (rest : list R) :
  move_first (ex_env E) (ex_globals rest) = ex_first_move E rest.
Proof.
  unfold move_first.
  cbv beta iota zeta delta
    [draw fst snd ex_env ex_globals grnd gaussian mt set_mt pop num_atoms
     x_spin_array y_spin_array z_spin_array type_array mc_success mc_total
     sphere_reject energy_reject is_initialised polar_vector polar_matrix_tp
     polar_matrix hamiltonian_simulation_flags].
  rewrite !ex_pick_first by reflexivity.
  cbv beta iota zeta delta
    [set_spin set_mt mt num_atoms x_spin_array y_spin_array z_spin_array
     type_array mc_success mc_total sphere_reject energy_reject
     is_initialised polar_vector polar_matrix_tp polar_matrix
     hamiltonian_simulation_flags].
  rewrite !ex_pick_second by reflexivity.
  run.
  rewrite !ex_sqrt_25.
  fields.
Qed.

Lemma ex_on_sphere (E : globals (T:=R) (list R) -> nat -> R)
  (rest : list R) :
  on_sphere (ex_first_move E rest) = true.
Proof.
  run. rewrite Rltb_true by lra. reflexivity.
Qed.

(** In the field along -z both moves lower the energy. *)
Lemma ex_second_field_down (rest : list R) :
  move_second (ex_env field_down) (ex_first_move field_down rest) ex_M_other
  = ex_second_move rest.
Proof.
  run.
  rewrite Rltb_false by lra.
  rewrite !ex_sqrt_16_25.
  fields.
Qed.

Lemma ex_energy_gain (rest : list R) :
  delta_energy21 (ex_second_move rest) < 0.
Proof. cbn [delta_energy21 ex_second_move]; lra. Qed.

Lemma ex_trial_field_down (rest : list R) :
  trial (ex_env field_down) (ex_globals rest) ex_M_other
  = (ex_moved2 rest, ex_M_other).
Proof.
  unfold trial; rewrite ex_first, decide_continue.
  - rewrite ex_second_field_down; reflexivity.
  - apply ex_on_sphere.
  - rewrite ex_second_field_down.
    apply Rltb_true, ex_energy_gain.
Qed.

End ExampleRun.

(** * The claims *)

(** ** Counters *)

Section Counters.

Variable G : Type.
Variable e : env (T:=R) G.

Local Open Scope R_scope.

Lemma decide_counters (g : globals G) (m : first_move G) (M : vec3 R) :
  is_first_move g m ->
  counters_consistent g ->
  counters_consistent (fst (decide_move e m M)).
Proof.
  unfold counters_consistent; intros Hm H.
  destruct (first_move_stats Hm) as (Hs & Ht & Hsr & Her).
  destruct (on_sphere m) eqn:Hsph.
  - destruct (delta_energy21 (move_second e m M) <? d0)%D eqn:Hde.
    + rewrite decide_continue by assumption.
      cbn [path_continue fst move_second globals2 set_spin mc_total
           mc_success energy_reject sphere_reject].
      rewrite Hs, Ht, Hsr, Her; exact H.
    + rewrite decide_metropolis by assumption.
      match goal with |- context [if ?c then _ else _] => destruct c end;
        cbn [path_accept path_energy_reject fst move_second globals2
             set_spin set_mt set_stats mc_total mc_success energy_reject
             sphere_reject dadd d1 R_arith];
        rewrite Hs, Ht, Hsr, Her; lra.
  - rewrite decide_sphere_reject by assumption.
    cbn [path_sphere_reject fst set_spin set_stats mc_total mc_success
         energy_reject sphere_reject dadd d1 R_arith].
    rewrite Hs, Ht, Hsr, Her; lra.
Qed.

(** C4. After every trial of the loop (after any number [n] of them) the
    statistics satisfy
    mc_total = mc_success + energy_reject + sphere_reject,
    provided they did before the first one: no way through the loop body
    breaks the identity (the [continue] leaves all four untouched). *)
Theorem C4_counters_consistent (n : nat) (g : globals G) (M : vec3 R) :
  counters_consistent g ->
  counters_consistent (fst (mc_loop e n g M)).
Proof.
  revert g M; induction n as [|k IH]; intros g M H; simpl.
  - exact H.
  - destruct (trial e g M) as [g' M'] eqn:Ht.
    apply IH. change g' with (fst (g', M')); rewrite <- Ht.
    unfold trial; apply decide_counters with (g := g);
      [apply move_first_spec | exact H].
Qed.

End Counters.

(** The statistics of [ex_globals] are all zero; the identity holds there
    and after the trial. *)
Lemma C4_counters_consistent_witness :
  counters_consistent (ex_globals [])
  /\ counters_consistent
       (fst (mc_loop (ex_env field_down) 1 (ex_globals []) ex_M_other)).
Proof.
  assert (H : counters_consistent (ex_globals []))
    by (unfold counters_consistent; simpl; lra).
  split; [exact H|].
  exact (@C4_counters_consistent (list R) (ex_env field_down) 1
           (ex_globals []) ex_M_other H).
Defined.

(** ** The spin field after a trial, for any reading of [double] *)

Section FieldAfterTrial.

Context {T : Type} {A : Arith T} {L : Libm T} {G : Type}.

Local Open Scope dbl_scope.

Lemma set_spin_arrays (a b : globals (T:=T) G) (i : nat) (s : vec3 T) :
  spin_arrays a = spin_arrays b ->
  spin_arrays (set_spin a i s) = spin_arrays (set_spin b i s).
Proof.
  unfold spin_arrays; intros H; injection H as Hx Hy Hz.
  cbn [set_spin x_spin_array y_spin_array z_spin_array].
  rewrite Hx, Hy, Hz; reflexivity.
Qed.

Lemma set_stats_arrays (a : globals (T:=T) G) (s t p n : T) :
  spin_arrays (set_stats a s t p n) = spin_arrays a.
Proof. reflexivity. Qed.

Lemma set_mt_arrays (a : globals (T:=T) G) (r : G) :
  spin_arrays (set_mt a r) = spin_arrays a.
Proof. reflexivity. Qed.

(** The spin field and the generator after the second half, by the way
    taken: the field is the one before the trial after a reject, and holds
    both new spins otherwise; the generator is asked for a number only when
    the Metropolis test is evaluated. *)
Lemma decide_field (e : env G) (g : globals G) (m : first_move G)
  (M : vec3 T) :
  let q := move_second e m M in
  let u := fst (grnd e (mt (globals2 q))) in
  let r := snd (grnd e (mt (globals2 q))) in
  let moved :=
    set_spin (set_spin g (atom_number1 m) (spin1_final m))
      (atom_number2 m) (spin2_final q) in
  let g' := fst (decide_move e m M) in
  is_first_move g m ->
  num_atoms g' = num_atoms g
  /\ (on_sphere m = false ->
      spin_arrays g' = spin_arrays g /\ mt g' = mt (globals1 m))
  /\ (on_sphere m = true ->
      (delta_energy21 q <? d0) = true ->
      spin_arrays g' = spin_arrays moved /\ mt g' = mt (globals1 m))
  /\ (on_sphere m = true ->
      (delta_energy21 q <? d0) = false ->
      mt g' = r
      /\ spin_arrays g'
         = if (probability e m q >=? u) && (Mz_new q >=? d0)
           then spin_arrays moved
           else spin_arrays g).
Proof.
  intros q u r moved g' Hm.
  destruct (first_move_frame Hm) as (Hn & _).
  assert (Hmoved : spin_arrays (globals2 q) = spin_arrays moved).
  { unfold q; rewrite second_move_arrays.
    apply set_spin_arrays, first_move_arrays; exact Hm. }
  assert (Hn2 : num_atoms (globals2 q) = num_atoms g) by exact Hn.
  subst g'.
  destruct (on_sphere m) eqn:Hsph.
  - destruct (delta_energy21 q <? d0) eqn:Hde.
    + unfold q in Hde; rewrite decide_continue by assumption.
      cbn [path_continue fst]; fold q.
      split; [exact Hn2|].
      split; [discriminate|]. split; [|discriminate].
      intros _ _; split; [exact Hmoved | reflexivity].
    + unfold q in Hde; rewrite decide_metropolis by assumption.
      fold q; fold u; fold r.
      destruct ((probability e m q >=? u) && (Mz_new q >=? d0)).
      * cbn [path_accept fst].
        split; [exact Hn2|].
        split; [discriminate|]. split; [discriminate|].
        intros _ _; split; [reflexivity|].
        rewrite set_stats_arrays, set_mt_arrays; exact Hmoved.
      * cbn [path_energy_reject fst].
        split; [exact Hn2|].
        split; [discriminate|]. split; [discriminate|].
        intros _ _; split; [reflexivity|].
        rewrite set_stats_arrays.
        apply (restore_both Hm (on_sphere_distinct _ Hsph)
                 (s := spin2_final q)).
        rewrite set_mt_arrays; unfold q; apply second_move_arrays.
  - rewrite decide_sphere_reject by assumption.
    cbn [path_sphere_reject fst].
    split; [exact Hn|].
    split; [|split; discriminate].
    intros _; split; [|reflexivity].
    rewrite set_stats_arrays; apply restore_first; exact Hm.
Qed.

(** C1 (amended). For a pair move that passes the sphere test, the
    criterion is evaluated only when delta_energy21 < 0 is false: then a
    number u is drawn and the move stands if P >= u and Mz_new >= 0, and
    both sites are restored otherwise. When delta_energy21 < 0 the move
    stands unconditionally: both sites keep their new spins, and
    no number is drawn from the generator. *)
Theorem C1_criterion_only_without_energy_gain
  (e : env G) (g : globals G) (M : vec3 T) :
  let m := move_first e g in
  let q := move_second e m M in
  let u := fst (grnd e (mt (globals2 q))) in
  let r := snd (grnd e (mt (globals2 q))) in
  let g' := fst (trial e g M) in
  let moved :=
    set_spin (set_spin g (atom_number1 m) (spin1_final m))
      (atom_number2 m) (spin2_final q) in
  on_sphere m = true ->
  ((delta_energy21 q <? d0) = true ->
     spin_arrays g' = spin_arrays moved /\ mt g' = mt (globals1 m))
  /\ ((delta_energy21 q <? d0) = false ->
        mt g' = r
        /\ spin_arrays g'
           = if (probability e m q >=? u) && (Mz_new q >=? d0)
             then spin_arrays moved
             else spin_arrays g).
Proof.
  intros m q u r g' moved Hsph.
  pose proof (decide_field e M (move_first_spec e g)) as H.
  cbv zeta in H; destruct H as (_ & _ & Hc & Hp).
  split; [apply Hc | apply Hp]; exact Hsph.
Qed.

End FieldAfterTrial.

Section EnergyShortcutExample.

Local Open Scope R_scope.

Lemma ex_probability (rest : list R) :
  probability (ex_env field_down) (ex_first_move field_down rest)
    (ex_second_move rest) < 9 / 10.
Proof.
  run.
  set (x := - ((4 / 5 - 1) * 9.27400915e-24 * 1.07828231e23
               + (4 / 5 - 1) * 9.27400915e-24 * 1.07828231e23)
            * (9.27400915e-24 / (300 * 1.3806503e-23))).
  assert (Hx : 0 <= x <= 1 / 10) by (unfold x; split; lra).
  pose proof (exp_upper Hx) as Hexp.
  pose proof (exp_pos x) as Hpos.
  rewrite Rabs_pos_eq by lra.
  nra.
Qed.

(** C1, as stated, fails on the trial of [ex_globals] in the field along
    -z: the pair move passes the sphere test and lowers the energy; the
    number the generator would return next is 9/10 and P < 9/10, so the
    full criterion would reject; but the move stands, and the number is
    still on the tape. *)
Lemma C1_counterexample :
  let e := ex_env field_down in
  let g := ex_globals [9/10] in
  let m := move_first e g in
  let q := move_second e m ex_M_other in
  let g' := fst (trial e g ex_M_other) in
  on_sphere m = true
  /\ delta_energy21 q < 0
  /\ probability e m q < fst (grnd e (mt (globals2 q)))
  /\ spin_arrays g' = ([3/5; -3/5], [0; 0], [4/5; 4/5])
  /\ spin_arrays g = ([0; 0], [0; 0], [1; 1])
  /\ mt g' = [9/10].
Proof.
  cbv zeta.
  rewrite ex_first, ex_second_field_down, ex_trial_field_down.
  split; [apply ex_on_sphere|].
  split; [apply ex_energy_gain|].
  split; [|repeat split].
  cbn [globals2 ex_second_move mt ex_moved2 grnd ex_env pop fst].
  apply ex_probability.
Qed.

(** The hypothesis of C1 (amended) holds on [ex_globals], where the
    energy falls: the move stands and the generator is not asked. *)
Lemma C1_criterion_only_without_energy_gain_witness :
  let e := ex_env field_down in
  let g := ex_globals [9/10] in
  on_sphere (move_first e g) = true
  /\ mt (fst (trial e g ex_M_other)) = mt (globals1 (move_first e g)).
Proof.
  cbv zeta.
  assert (Hs : on_sphere (move_first (ex_env field_down) (ex_globals [9/10]))
               = true)
    by (rewrite ex_first; apply ex_on_sphere).
  split; [exact Hs|].
  refine (proj2 (proj1 (@C1_criterion_only_without_energy_gain R R_arith
            R_libm (list R) (ex_env field_down) (ex_globals [9/10])
            ex_M_other Hs) _)).
  rewrite ex_first, ex_second_field_down.
  apply Rltb_true, ex_energy_gain.
Defined.

Lemma ex_pick_last (g : globals (T:=R) (list R)) :
  num_atoms g = 2%nat -> pick_atom g (9 / 10) = 1%nat.
Proof.
  intros H; unfold pick_atom; rewrite H; cbn [dmul of_int to_int R_arith].
  unfold Rtrunc; destruct (Rle_dec 0 (9 / 10 * IZR (Z.of_nat 2))) as [_|Hn].
  - rewrite <- (Int_part_spec (9 / 10 * IZR (Z.of_nat 2)) 1);
      [reflexivity | simpl; lra].
  - exfalso; apply Hn; simpl; lra.
Qed.

Lemma ex_sum_spins (rest : list R) :
  sum_spins (ex_globals rest) = ex_M_other.
Proof. run; fields. Qed.

Lemma ex_total_spin (rest : list R) :
  total_spin (ex_globals rest) = ex_M_other.
Proof. run; fields. Qed.

Lemma ex_total_spin_moved (rest : list R) :
  total_spin (ex_moved2 rest) = V3 0 0 (8 / 5).
Proof. run; fields. Qed.

(** The second trial of the sweep picks site 1 twice. *)
Lemma ex_second_trial_total (M : vec3 R) :
  mc_total
    (fst (trial (ex_env field_down) (ex_moved2 [9/10; 0; 0; 0; 9/10]) M))
  = 1.
Proof.
  set (e := ex_env field_down).
  set (g := ex_moved2 [9/10; 0; 0; 0; 9/10]).
  pose proof (move_first_atoms e g) as Ha; cbv zeta in Ha.
  destruct Ha as [H1 H2].
  destruct (first_move_stats (move_first_spec e g)) as (_ & Ht & _).
  unfold trial; rewrite decide_sphere_reject.
  - cbn [path_sphere_reject fst set_stats set_spin mc_total dadd d1 R_arith].
    rewrite Ht; unfold g; cbn [ex_moved2 mc_total]; lra.
  - apply same_site_off_sphere.
    rewrite H1, H2; unfold e, g.
    cbn [ex_env ex_moved2 grnd gaussian mt pop fst snd].
    rewrite !ex_pick_last by reflexivity; reflexivity.
Qed.

(** C2, on the failing input: the first trial of [ex_globals] moves both
    spins (the [continue] of the energy test accepts the move) and leaves
    mc_total as it was; the sweep of num_atoms = 2 trials then ends with
    mc_total raised by 1, not by 2. *)
Theorem C2_continue_skips_mc_total :
  let e := ex_env field_down in
  let g := ex_globals [9/10; 0; 0; 0; 9/10] in
  let g' := fst (trial e g ex_M_other) in
  spin_arrays g = ([0; 0], [0; 0], [1; 1])
  /\ spin_arrays g' = ([3/5; -3/5], [0; 0], [4/5; 4/5])
  /\ mc_total g = 0
  /\ mc_total g' = 0
  /\ num_atoms g = 2%nat
  /\ mc_total (fst (sweep e g)) = 1.
Proof.
  cbv zeta.
  rewrite ex_trial_field_down.
  repeat split.
  unfold sweep, sweep_entry.
  cbn [ex_globals is_initialised].
  change (Globals 2 [0; 0] [0; 0] [1; 1] [0%nat; 0%nat] 0 0 0 0 true
            (V3 0 0 1) identity3 identity3 [1%Z; 1%Z; 1%Z; 0%Z]
            [0; 3; 0; 3; 1 / 2; 9 / 10; 0; 0; 0; 9 / 10])
    with (ex_globals [9/10; 0; 0; 0; 9/10]).
  rewrite ex_sum_spins.
  cbn [num_atoms ex_globals mc_loop].
  rewrite ex_trial_field_down.
  destruct (trial (ex_env field_down) (ex_moved2 [9/10; 0; 0; 0; 9/10])
              ex_M_other) as [g2 M2] eqn:Ht.
  cbn [fst].
  change g2 with (fst (g2, M2)); rewrite <- Ht.
  apply ex_second_trial_total.
Qed.

(** C3, on the failing input: before the trial M_other is the sum of the
    spins, (0,0,2); the trial moves both spins, so that their sum becomes
    (0,0,8/5), and leaves M_other at (0,0,2). *)
Theorem C3_continue_leaves_M_other_stale :
  let e := ex_env field_down in
  let g := ex_globals [9/10] in
  let g' := fst (trial e g ex_M_other) in
  let M' := snd (trial e g ex_M_other) in
  total_spin g = V3 0 0 2
  /\ ex_M_other = V3 0 0 2
  /\ total_spin g' = V3 0 0 (8 / 5)
  /\ M' = V3 0 0 2.
Proof.
  cbv zeta.
  rewrite ex_trial_field_down; cbn [fst snd].
  rewrite ex_total_spin, ex_total_spin_moved.
  repeat split.
Qed.

End EnergyShortcutExample.


(** ** Rotations of real vectors *)

Section RealAlgebra.

Local Open Scope R_scope.

Ltac arith :=
  unfold matvec, matmul, rowmul, transpose, identity3;
  cbn [v0 v1 v2 dadd dsub dmul ddiv dneg R_arith d0 d1].

Lemma matvec_matmul (a b : mat3 R) (v : vec3 R) :
  matvec a (matvec b v) = matvec (matmul a b) v.
Proof.
  destruct a as [[a00 a01 a02] [a10 a11 a12] [a20 a21 a22]].
  destruct b as [[b00 b01 b02] [b10 b11 b12] [b20 b21 b22]].
  destruct v as [x y z]; arith.
  f_equal; ring.
Qed.

Lemma matvec_identity (v : vec3 R) : matvec identity3 v = v.
Proof. destruct v as [x y z]; arith; f_equal; ring. Qed.

(** A matrix whose rows are orthonormal: its transpose keeps the length of
    a vector. *)
Lemma transpose_keeps_unit (p : mat3 R) (v : vec3 R) :
  matmul p (transpose p) = identity3 ->
  unit_vec v -> unit_vec (matvec (transpose p) v).
Proof.
  destruct p as [[p00 p01 p02] [p10 p11 p12] [p20 p21 p22]].
  destruct v as [x y z]; unfold unit_vec; arith.
  intros H Hv; injection H as H00 H01 H02 H10 H11 H12 H20 H21 H22.
  replace ((p00 * x + p10 * y + p20 * z) * (p00 * x + p10 * y + p20 * z)
           + (p01 * x + p11 * y + p21 * z) * (p01 * x + p11 * y + p21 * z)
           + (p02 * x + p12 * y + p22 * z) * (p02 * x + p12 * y + p22 * z))
    with (x * x * (p00 * p00 + p01 * p01 + p02 * p02)
          + y * y * (p10 * p10 + p11 * p11 + p12 * p12)
          + z * z * (p20 * p20 + p21 * p21 + p22 * p22)
          + 2 * x * y * (p00 * p10 + p01 * p11 + p02 * p12)
          + 2 * x * z * (p00 * p20 + p01 * p21 + p02 * p22)
          + 2 * y * z * (p10 * p20 + p11 * p21 + p12 * p22))
    by ring.
  rewrite H00, H11, H22, H01, H02, H12; lra.
Qed.

End RealAlgebra.

(** ** The frame of [cmc::polar_rot_matrix] *)

Section Frame.

Local Open Scope R_scope.

(** The matrices [CMCinit] stores are an orthogonal matrix, its transpose
    and its third row, whatever the two angles. *)
Lemma polar_rot_matrix_orthogonal (phi theta : R) :
  let pm := fst (fst (polar_rot_matrix phi theta)) in
  let tp := snd (fst (polar_rot_matrix phi theta)) in
  let pv := snd (polar_rot_matrix phi theta) in
  tp = transpose pm /\ matmul pm tp = identity3 /\ pv = v2 pm.
Proof.
  unfold polar_rot_matrix; cbv zeta; cbn [fst snd].
  cbn [dsin dcos R_libm dmul ddiv dneg R_arith d0 d1 d2 d360 pi_literal].
  set (a := phi / 360 * 2 * 3.14159265358979323846264338327).
  set (b := theta / 360 * 2 * 3.14159265358979323846264338327).
  pose proof (sin2_cos2 a) as Ha; pose proof (sin2_cos2 b) as Hb.
  unfold Rsqr in Ha, Hb.
  set (sy := sin a) in *; set (cy := cos a) in *.
  set (sz := sin b) in *; set (cz := cos b) in *.
  split; [reflexivity|].
  split.
  - unfold matmul, transpose, identity3; cbn [v0 v1 v2 dadd dmul R_arith].
    assert (Hm : cy * sy * (sz * sz + cz * cz) = cy * sy)
      by (rewrite Hb; ring).
    f_equal; f_equal; ring_simplify; nra.
  - unfold rowmul, matmul; cbn [v0 v1 v2 dadd dmul R_arith].
    f_equal; ring.
Qed.

End Frame.

(** ** The pair move in exact arithmetic *)

Section PairMove.

Variable G : Type.
Variable e : env (T:=R) G.
Variable g : globals (T:=R) G.
Variable m : first_move (T:=R) G.
Variable M : vec3 R.
Hypothesis Hm : is_first_move g m.

Local Open Scope R_scope.

Let q := move_second e m M.

Ltac arith :=
  unfold matvec, matmul, rowmul, transpose, identity3;
  cbn [v0 v1 v2 dadd dsub dmul ddiv dneg dsqrt dfabs R_arith d0 d1].

(** The second spin in the constraint frame, and back in the laboratory
    frame. *)
Lemma spin2_final_spec :
  spin2_final q = matvec (polar_matrix_tp g) (spin2_fin_mvd q)
  /\ v0 (spin2_fin_mvd q) = spin2_fin_mvd_0 m
  /\ v1 (spin2_fin_mvd q) = spin2_fin_mvd_1 m
  /\ v2 (spin2_fin_mvd q)
     = sign (v2 (spin2_init_mvd m))
       * sqrt (1 - spin2_fin_mvd_0 m * spin2_fin_mvd_0 m
               - spin2_fin_mvd_1 m * spin2_fin_mvd_1 m).
Proof.
  destruct (first_move_frame Hm) as (_ & _ & Htp & _).
  rewrite <- Htp; repeat split.
Qed.

Lemma sign_square (a : R) : sign a * sign a = 1.
Proof.
  unfold sign; cbn [dlt dneg d0 d1 R_arith].
  destruct (Rltb a 0); lra.
Qed.

Lemma sign_nonzero (a : R) : sign a <> 0.
Proof.
  unfold sign; cbn [dlt dneg d0 d1 R_arith].
  destruct (Rltb a 0); lra.
Qed.

(** Inside the sphere test the argument of the square root is positive. *)
Lemma inside_positive :
  on_sphere m = true ->
  0 < 1 - spin2_fin_mvd_0 m * spin2_fin_mvd_0 m
      - spin2_fin_mvd_1 m * spin2_fin_mvd_1 m.
Proof.
  intros H; apply on_sphere_inside in H.
  cbn [dlt dadd dmul d1 R_arith] in H.
  apply Rltb_true_iff in H; lra.
Qed.

Lemma unit_spin2_fin_mvd :
  on_sphere m = true -> unit_vec (spin2_fin_mvd q).
Proof.
  intros H; pose proof (inside_positive H) as Hpos.
  destruct spin2_final_spec as (_ & H0 & H1 & H2).
  unfold unit_vec; rewrite H0, H1, H2.
  set (s := sign (v2 (spin2_init_mvd m))).
  set (w := 1 - spin2_fin_mvd_0 m * spin2_fin_mvd_0 m
            - spin2_fin_mvd_1 m * spin2_fin_mvd_1 m) in *.
  replace (s * sqrt w * (s * sqrt w))
    with ((s * s) * (sqrt w * sqrt w)) by ring.
  unfold s; rewrite sign_square, sqrt_sqrt by lra.
  unfold w; ring.
Qed.

Lemma unit_spin2_final :
  orthogonal_frame g -> on_sphere m = true -> unit_vec (spin2_final q).
Proof.
  intros [Htp Ho] H.
  destruct spin2_final_spec as (Hf & _); rewrite Hf, Htp.
  apply transpose_keeps_unit; [rewrite <- Htp; exact Ho|].
  apply unit_spin2_fin_mvd; exact H.
Qed.

Lemma unit_spin1_final :
  let t := spin1_moved m in
  v0 t * v0 t + v1 t * v1 t + v2 t * v2 t <> 0 ->
  unit_vec (spin1_final m).
Proof.
  intros t Ht.
  destruct Hm as (_ & _ & Hs & _); cbv zeta in Hs; fold t in Hs.
  unfold unit_vec; rewrite Hs; arith.
  set (n := v0 t * v0 t + v1 t * v1 t + v2 t * v2 t) in *.
  assert (Hn : 0 < n).
  { assert (0 <= n) by (unfold n; nra). lra. }
  assert (Hq : sqrt n * sqrt n = n) by (apply sqrt_sqrt; lra).
  assert (Hq0 : sqrt n <> 0).
  { intros H0; rewrite H0 in Hq; lra. }
  replace (v0 t * (1 / sqrt n) * (v0 t * (1 / sqrt n))
           + v1 t * (1 / sqrt n) * (v1 t * (1 / sqrt n))
           + v2 t * (1 / sqrt n) * (v2 t * (1 / sqrt n)))
    with (n / (sqrt n * sqrt n)) by (unfold n; field; exact Hq0).
  rewrite Hq; field; lra.
Qed.

(** The second new spin, seen from the constraint frame, is the vector the
    constraint asked for. *)
Lemma spin2_final_back :
  orthogonal_frame g ->
  matvec (polar_matrix g) (spin2_final q) = spin2_fin_mvd q.
Proof.
  intros [Htp Ho].
  destruct spin2_final_spec as (Hf & _).
  rewrite Hf, matvec_matmul, Ho; apply matvec_identity.
Qed.

End PairMove.

Section Conservation.

Variable G : Type.
Variable e : env (T:=R) G.
Variable g : globals (T:=R) G.
Variable M : vec3 R.

Local Open Scope R_scope.

(** C5. For every pair move that passes the sphere test (every accepted
    move is one), the change
    dM = spin1_final + spin2_final - spin1_initial - spin2_initial
    of the total magnetisation has no component along the two in-plane
    axes of the constraint frame: (R.dM).x = 0 and (R.dM).y = 0, exactly
    in real arithmetic, for an orthogonal frame R. *)
Theorem C5_in_plane_magnetisation_conserved :
  let m := move_first e g in
  let q := move_second e m M in
  let dM :=
    V3 (v0 (spin1_final m) + v0 (spin2_final q)
        - v0 (spin1_initial m) - v0 (spin2_initial m))
       (v1 (spin1_final m) + v1 (spin2_final q)
        - v1 (spin1_initial m) - v1 (spin2_initial m))
       (v2 (spin1_final m) + v2 (spin2_final q)
        - v2 (spin1_initial m) - v2 (spin2_initial m)) in
  orthogonal_frame g ->
  on_sphere m = true ->
  v0 (matvec (polar_matrix g) dM) = 0
  /\ v1 (matvec (polar_matrix g) dM) = 0.
Proof.
  first_half e g m Hm.
  set (q := move_second e m M).
  intros Ho Hsph.
  pose proof (spin2_final_back e M Hm Ho) as Hback; fold q in Hback.
  pose proof (spin2_final_spec e M Hm) as Hf; cbv zeta in Hf; fold q in Hf.
  destruct Hf as (_ & H0 & H1 & _).
  destruct Hm as (_ & Hi1 & _ & Hf1 & _ & Hi2 & Hx & Hy & _).
  assert (Hx' : v0 (matvec (polar_matrix g) (spin2_final q))
                = v0 (matvec (polar_matrix g) (spin1_initial m))
                  + v0 (matvec (polar_matrix g) (spin2_initial m))
                  - v0 (matvec (polar_matrix g) (spin1_final m))).
  { rewrite Hback, H0, Hx, Hi1, Hi2, Hf1; reflexivity. }
  assert (Hy' : v1 (matvec (polar_matrix g) (spin2_final q))
                = v1 (matvec (polar_matrix g) (spin1_initial m))
                  + v1 (matvec (polar_matrix g) (spin2_initial m))
                  - v1 (matvec (polar_matrix g) (spin1_final m))).
  { rewrite Hback, H1, Hy, Hi1, Hi2, Hf1; reflexivity. }
  clear Hback H0 H1 Hx Hy Hi1 Hi2 Hf1.
  revert Hx' Hy'.
  destruct (polar_matrix g) as [[p00 p01 p02] [p10 p11 p12] [p20 p21 p22]].
  destruct (spin1_final m) as [a0 a1 a2].
  destruct (spin2_final q) as [b0 b1 b2].
  destruct (spin1_initial m) as [c0 c1 c2].
  destruct (spin2_initial m) as [e0 e1 e2].
  unfold matvec;
    cbn [v0 v1 v2 dadd dsub dmul R_arith];
    intros Hx' Hy'; split; lra.
Qed.

End Conservation.

(** ** The Metropolis test *)

Section MetropolisEffects.

Context {T : Type} {A : Arith T} {L : Libm T} {G : Type}.

Local Open Scope dbl_scope.

(** What the two branches of the Metropolis test leave, for any reading
    of [double]: the spin field, M_other, the four statistics and the
    generator. *)
Lemma metropolis_effects (e : env (T:=T) G) (g : globals (T:=T) G)
  (m : first_move (T:=T) G) (M : vec3 T) :
  let q := move_second e m M in
  let u := fst (grnd e (mt (globals2 q))) in
  let r := snd (grnd e (mt (globals2 q))) in
  let moved :=
    set_spin (set_spin g (atom_number1 m) (spin1_final m))
      (atom_number2 m) (spin2_final q) in
  let g' := fst (decide_move e m M) in
  let M' := snd (decide_move e m M) in
  is_first_move g m ->
  on_sphere m = true ->
  (delta_energy21 q <? d0) = false ->
  ((probability e m q >=? u) && (Mz_new q >=? d0) = true ->
     spin_arrays g' = spin_arrays moved
     /\ M' = moved_M m q M
     /\ mc_success g' = mc_success g + d1
     /\ mc_total g' = mc_total g + d1
     /\ energy_reject g' = energy_reject g
     /\ sphere_reject g' = sphere_reject g
     /\ mt g' = r)
  /\ ((probability e m q >=? u) && (Mz_new q >=? d0) = false ->
        spin_arrays g' = spin_arrays g
        /\ M' = M
        /\ energy_reject g' = energy_reject g + d1
        /\ mc_total g' = mc_total g + d1
        /\ mc_success g' = mc_success g
        /\ sphere_reject g' = sphere_reject g
        /\ mt g' = r).
Proof.
  intros q u r moved g' M' Hm Hsph Hde.
  destruct (first_move_stats Hm) as (Hsu & Hto & Hsr & Her).
  assert (Hmoved : spin_arrays (globals2 q) = spin_arrays moved).
  { unfold q; rewrite second_move_arrays.
    apply set_spin_arrays, first_move_arrays; exact Hm. }
  unfold g', M'; rewrite (decide_metropolis e m M Hsph Hde).
  fold q; fold u; fold r.
  split; intros Htest; rewrite Htest.
  - cbn [path_accept fst snd].
    rewrite set_stats_arrays, set_mt_arrays.
    split; [exact Hmoved|]. split; [reflexivity|].
    unfold q;
      cbn [set_stats set_mt set_spin move_second globals2 mc_success
           mc_total energy_reject sphere_reject mt].
    rewrite Hsu, Hto, Hsr, Her; repeat split.
  - cbn [path_energy_reject fst snd].
    rewrite set_stats_arrays.
    split.
    { apply (restore_both Hm (on_sphere_distinct _ Hsph)
               (s := spin2_final q)).
      rewrite set_mt_arrays; unfold q; apply second_move_arrays. }
    split; [reflexivity|].
    unfold q;
      cbn [set_stats set_mt set_spin move_second globals2 mc_success
           mc_total energy_reject sphere_reject mt].
    rewrite Hsu, Hto, Hsr, Her; repeat split.
Qed.

End MetropolisEffects.

Section Acceptance.

Context {L : Libm float}.
Variable G : Type.
Variable e : env (T:=float) G.
Variable g : globals (T:=float) G.
Variable M : vec3 float.

Local Open Scope float_scope.

(** C6. In IEEE binary64 arithmetic, as the code computes, and for
    whatever function the library's exp is: when the Metropolis test is
    evaluated (the move passed the sphere test and delta_energy21 < 0 is
    false), the probability is
    P = exp(-(dE1+dE2) beta) (Mz_new/Mz_old)^2 |s2_init_cf.z / s2_fin_cf.z|
    with beta = mu_B/(T k_B), the quotients being infinite or NaN where a
    denominator is zero. If Mz_new >= 0 and P >= u for the number u drawn,
    the move is accepted: both sites keep their new spins, M_other moves
    by what the two spins moved, mc_success and mc_total grow by 1. If
    not, it is an energy reject: the spin field is the one before the
    trial, M_other stays, energy_reject and mc_total grow by 1. *)
Theorem C6_metropolis_acceptance :
  let m := move_first e g in
  let q := move_second e m M in
  let u := fst (grnd e (mt (globals2 q))) in
  let r := snd (grnd e (mt (globals2 q))) in
  let g' := fst (trial e g M) in
  let M' := snd (trial e g M) in
  let beta := 9.27400915e-24 / (temperature e * 1.3806503e-23) in
  let P :=
    dexp (- (delta_energy1 m + delta_energy2 q) * beta)
    * (Mz_new q / Mz_old q * (Mz_new q / Mz_old q))
    * abs (v2 (spin2_init_mvd m) / v2 (spin2_fin_mvd q)) in
  let moved :=
    set_spin (set_spin g (atom_number1 m) (spin1_final m))
      (atom_number2 m) (spin2_final q) in
  let s1 := spin1_final m in
  let s2 := spin2_final q in
  let i1 := spin1_initial m in
  let i2 := spin2_initial m in
  on_sphere m = true ->
  (delta_energy1 m + delta_energy2 q <? 0) = false ->
  probability e m q = P
  /\ ((0 <=? Mz_new q) && (u <=? P) = true ->
      spin_arrays g' = spin_arrays moved
      /\ M' = V3 (v0 M + v0 s1 + v0 s2 - v0 i1 - v0 i2)
                 (v1 M + v1 s1 + v1 s2 - v1 i1 - v1 i2)
                 (v2 M + v2 s1 + v2 s2 - v2 i1 - v2 i2)
      /\ mc_success g' = mc_success g + 1
      /\ mc_total g' = mc_total g + 1
      /\ energy_reject g' = energy_reject g
      /\ sphere_reject g' = sphere_reject g
      /\ mt g' = r)
  /\ ((0 <=? Mz_new q) && (u <=? P) = false ->
      spin_arrays g' = spin_arrays g
      /\ M' = M
      /\ energy_reject g' = energy_reject g + 1
      /\ mc_total g' = mc_total g + 1
      /\ mc_success g' = mc_success g
      /\ sphere_reject g' = sphere_reject g
      /\ mt g' = r).
Proof.
  first_half e g m Hm.
  set (q := move_second e m M).
  intros Hsph Hde.
  pose proof (metropolis_effects e M Hm Hsph Hde) as H; cbv zeta in H.
  fold q in H.
  cbn [dge dadd d0 d1 float_arith] in H.
  rewrite (andb_comm (_ <=? probability e m q)) in H.
  split; [reflexivity|].
  exact H.
Qed.

End Acceptance.

Section AcceptanceWitness.

Local Open Scope float_scope.

Lemma spin_arrays_x {T G : Type} (a b : globals (T:=T) G) :
  spin_arrays a = spin_arrays b -> x_spin_array a = x_spin_array b.
Proof. unfold spin_arrays; intros H; injection H; auto. Qed.

(** On [fex_aligned], without a field, the pair move of sites 0 and 1
    passes the sphere test with delta_energy21 = 0; Mz_old = 2 and
    Mz_new > 0, P is about 0.8 for an exp with exp(-0) = 1, the number
    drawn is 0.25, and the move is accepted. *)
Lemma C6_metropolis_acceptance_witness :
  let g := fex_aligned in
  let M := sum_spins g in
  let m := move_first fex_env g in
  let q := move_second fex_env m M in
  on_sphere m = true
  /\ (delta_energy1 m + delta_energy2 q <? 0) = false
  /\ Mz_old q = 2
  /\ (0 <=? Mz_new q)
     && (fst (grnd fex_env (mt (globals2 q)))
         <=? probability (L := ex_libm) fex_env m q) = true
  /\ mc_success (fst (trial (L := ex_libm) fex_env g M)) = mc_success g + 1
  /\ x_spin_array (fst (trial (L := ex_libm) fex_env g M))
     = [0.60000000000000009; -0.60000000000000009].
Proof.
  cbv zeta.
  set (g := fex_aligned).
  set (M := sum_spins g).
  assert (H1 : on_sphere (move_first fex_env g) = true)
    by (vm_compute; reflexivity).
  assert (H2 : (delta_energy1 (move_first fex_env g)
                + delta_energy2 (move_second fex_env (move_first fex_env g) M)
                <? 0) = false)
    by (vm_compute; reflexivity).
  assert (H3 : (0 <=? Mz_new (move_second fex_env (move_first fex_env g) M))
               && (fst (grnd fex_env
                          (mt (globals2
                                 (move_second fex_env
                                    (move_first fex_env g) M))))
                   <=? probability (L := ex_libm) fex_env
                         (move_first fex_env g)
                         (move_second fex_env (move_first fex_env g) M))
               = true)
    by (vm_compute; reflexivity).
  pose proof (@C6_metropolis_acceptance ex_libm (list float) fex_env g M
                H1 H2) as H; cbv zeta in H.
  destruct H as (HP & Hacc & _).
  rewrite <- HP in Hacc.
  destruct (Hacc H3) as (Ha & _ & Hs & _).
  split; [exact H1|]. split; [exact H2|].
  split; [vm_compute; reflexivity|].
  split; [exact H3|]. split; [exact Hs|].
  rewrite (spin_arrays_x Ha); vm_compute; reflexivity.
Defined.

End AcceptanceWitness.

Section AcceptanceExact.

Variable G : Type.
Variable e : env (T:=R) G.
Variable g : globals (T:=R) G.
Variable M : vec3 R.

Local Open Scope R_scope.

(** X25. The same test read in exact arithmetic, where none of the
    three denominators is zero (the temperature and Mz_old by hypothesis,
    the z component of the second new spin by the sphere test): the
    probability is
    P = exp(-(dE1+dE2) beta) (Mz_new/Mz_old)^2 |s2_init_cf.z / s2_fin_cf.z|
    with beta = mu_B/(k_B T), and the move is accepted (both spins stay,
    M_other moves with them, mc_success and mc_total count it) if and only
    if Mz_new >= 0 and P >= u; otherwise it is an energy reject (the spin
    field and M_other as before the trial, energy_reject and mc_total
    count it). *)
Theorem X25_metropolis_acceptance_exact :
  let m := move_first e g in
  let q := move_second e m M in
  let u := fst (grnd e (mt (globals2 q))) in
  let r := snd (grnd e (mt (globals2 q))) in
  let g' := fst (trial e g M) in
  let M' := snd (trial e g M) in
  let beta := 9.27400915e-24 / (1.3806503e-23 * temperature e) in
  let P :=
    exp (- (delta_energy1 m + delta_energy2 q) * beta)
    * (Mz_new q / Mz_old q) ^ 2
    * Rabs (v2 (spin2_init_mvd m) / v2 (spin2_fin_mvd q)) in
  let moved :=
    set_spin (set_spin g (atom_number1 m) (spin1_final m))
      (atom_number2 m) (spin2_final q) in
  let s1 := spin1_final m in
  let s2 := spin2_final q in
  let i1 := spin1_initial m in
  let i2 := spin2_initial m in
  on_sphere m = true ->
  ~ delta_energy1 m + delta_energy2 q < 0 ->
  temperature e <> 0 ->
  Mz_old q <> 0 ->
  probability e m q = P
  /\ v2 (spin2_fin_mvd q) <> 0
  /\ (0 <= Mz_new q /\ u <= P ->
      spin_arrays g' = spin_arrays moved
      /\ M' = V3 (v0 M + v0 s1 + v0 s2 - v0 i1 - v0 i2)
                 (v1 M + v1 s1 + v1 s2 - v1 i1 - v1 i2)
                 (v2 M + v2 s1 + v2 s2 - v2 i1 - v2 i2)
      /\ mc_success g' = mc_success g + 1
      /\ mc_total g' = mc_total g + 1
      /\ energy_reject g' = energy_reject g
      /\ sphere_reject g' = sphere_reject g
      /\ mt g' = r)
  /\ (~ (0 <= Mz_new q /\ u <= P) ->
      spin_arrays g' = spin_arrays g
      /\ M' = M
      /\ energy_reject g' = energy_reject g + 1
      /\ mc_total g' = mc_total g + 1
      /\ mc_success g' = mc_success g
      /\ sphere_reject g' = sphere_reject g
      /\ mt g' = r).
Proof.
  first_half e g m Hm.
  set (q := move_second e m M).
  set (u := fst (grnd e (mt (globals2 q)))).
  set (beta := 9.27400915e-24 / (1.3806503e-23 * temperature e)).
  set (P := exp (- (delta_energy1 m + delta_energy2 q) * beta)
            * (Mz_new q / Mz_old q) ^ 2
            * Rabs (v2 (spin2_init_mvd m) / v2 (spin2_fin_mvd q))).
  intros Hsph Hde _ _.
  assert (HP : probability e m q = P).
  { unfold probability, kBTBohr, P, beta.
    cbn [dexp dmul ddiv dneg dfabs R_arith R_libm mu_B k_B].
    replace (delta_energy21 q) with (delta_energy1 m + delta_energy2 q)
      by reflexivity.
    replace (1.3806503e-23 * temperature e)
      with (temperature e * 1.3806503e-23) by ring.
    ring. }
  assert (Hde' : (delta_energy21 q <? d0)%D = false).
  { apply Rltb_false_iff.
    change (delta_energy21 q) with (delta_energy1 m + delta_energy2 q).
    cbn [d0 R_arith]; lra. }
  assert (Hz : v2 (spin2_fin_mvd q) <> 0).
  { pose proof (inside_positive m Hsph) as Hpos.
    pose proof (spin2_final_spec e M Hm) as Hf; cbv zeta in Hf.
    destruct Hf as (_ & _ & _ & Hz).
    unfold q; rewrite Hz.
    apply Rmult_integral_contrapositive_currified.
    - apply sign_nonzero.
    - pose proof (sqrt_lt_R0 _ Hpos); lra. }
  pose proof (metropolis_effects e M Hm Hsph Hde') as H; cbv zeta in H.
  fold q in H; fold u in H.
  cbn [dge dadd d0 d1 R_arith] in H.
  rewrite HP in H.
  destruct H as [Hacc Hrej].
  split; [exact HP|]. split; [exact Hz|].
  split.
  - intros [H0 Hu]; apply Hacc.
    apply andb_true_iff; split; apply Rgeb_true_iff; assumption.
  - intros Hn; apply Hrej.
    apply andb_false_iff.
    destruct (Rle_dec u P) as [Hu|Hu].
    + right; apply Rgeb_false_iff.
      destruct (Rle_dec 0 (Mz_new q)) as [H0|H0]; [tauto | lra].
    + left; apply Rgeb_false_iff; lra.
Qed.

End AcceptanceExact.

(** ** Unit spins *)

Section UnitSpins.

Variable G : Type.

Local Open Scope R_scope.

Lemma unit_spins_arrays (g g' : globals (T:=R) G) :
  num_atoms g' = num_atoms g ->
  spin_arrays g' = spin_arrays g ->
  unit_spins g -> unit_spins g'.
Proof.
  unfold spin_arrays; intros Hn Ha Hu i Hi.
  injection Ha as Hx Hy Hz.
  unfold spin_at; rewrite Hx, Hy, Hz.
  apply Hu; rewrite <- Hn; exact Hi.
Qed.

Lemma set_spin_well_formed (g : globals (T:=R) G) (i : nat) (s : vec3 R) :
  well_formed g -> well_formed (set_spin g i s).
Proof.
  unfold well_formed, set_spin;
    cbn [x_spin_array y_spin_array z_spin_array num_atoms].
  rewrite !upd_length; tauto.
Qed.

(** Writing a unit vector into a field of unit spins. *)
Lemma set_spin_unit (g : globals (T:=R) G) (i : nat) (s : vec3 R) :
  well_formed g -> unit_spins g -> unit_vec s ->
  unit_spins (set_spin g i s).
Proof.
  intros (Lx & Ly & Lz) Hu Hs j Hj.
  cbn [set_spin num_atoms] in Hj.
  unfold spin_at, set_spin;
    cbn [x_spin_array y_spin_array z_spin_array].
  destruct (Nat.eq_dec i j) as [->|Hne].
  - rewrite !nth_upd_same by lia.
    destruct s; exact Hs.
  - rewrite !nth_upd_other by exact Hne.
    apply Hu; exact Hj.
Qed.

(** C7. After a trial every spin of the field is a unit vector, if every
    spin was one before (in a well-formed state with an orthogonal frame),
    and the first spin plus its Gaussian step is not the zero vector, so
    that its normalisation is defined: the first new spin is normalised,
    the second one is a unit vector of the constraint frame rotated back,
    and the rejects restore the saved spins. *)
Theorem C7_unit_spins_preserved
  (e : env (T:=R) G) (g : globals (T:=R) G) (M : vec3 R) :
  let t := spin1_moved (move_first e g) in
  well_formed g ->
  orthogonal_frame g ->
  unit_spins g ->
  v0 t * v0 t + v1 t * v1 t + v2 t * v2 t <> 0 ->
  unit_spins (fst (trial e g M)).
Proof.
  first_half e g m Hm.
  intros Hwf Ho Hu Ht.
  pose proof (decide_field e M Hm) as Hd; cbv zeta in Hd.
  destruct Hd as (Hn & Hoff & Hcont & Hmet).
  assert (Hmoved : on_sphere m = true ->
                   unit_spins
                     (set_spin (set_spin g (atom_number1 m) (spin1_final m))
                        (atom_number2 m)
                        (spin2_final (move_second e m M)))).
  { intros Hsph; apply set_spin_unit.
    - apply set_spin_well_formed; exact Hwf.
    - apply set_spin_unit; auto.
      apply (unit_spin1_final Hm); exact Ht.
    - apply (unit_spin2_final e M Hm); assumption. }
  destruct (on_sphere m) eqn:Hsph.
  - destruct (delta_energy21 (move_second e m M) <? d0)%D eqn:Hde.
    + destruct (Hcont eq_refl eq_refl) as (Ha & _).
      eapply unit_spins_arrays; [|exact Ha|]; [exact Hn | auto].
    + destruct (Hmet eq_refl eq_refl) as (_ & Ha).
      match type of Ha with context [if ?c then _ else _] =>
        destruct c end.
      * eapply unit_spins_arrays; [|exact Ha|]; [exact Hn | auto].
      * exact (unit_spins_arrays Hn Ha Hu).
  - destruct (Hoff eq_refl) as (Ha & _).
    exact (unit_spins_arrays Hn Ha Hu).
Qed.

End UnitSpins.

(** ** What a trial never changes *)

Section Unchanged.

Variable G : Type.
Variable e : env (T:=R) G.
Variable g : globals (T:=R) G.
Variable M : vec3 R.

Local Open Scope R_scope.

Lemma spin_arrays_well_formed (a b : globals (T:=R) G) :
  num_atoms a = num_atoms b ->
  spin_arrays a = spin_arrays b ->
  well_formed b -> well_formed a.
Proof.
  unfold well_formed, spin_arrays; intros Hn H; injection H as Hx Hy Hz.
  rewrite Hx, Hy, Hz, Hn; tauto.
Qed.

(** X6. A trial changes neither the number of atoms, nor the frame, nor
    the initialisation flag; the spin arrays keep their num_atoms entries,
    and an orthogonal frame stays one. *)
Theorem X6_trial_keeps_frame_and_sizes :
  let g' := fst (trial e g M) in
  num_atoms g' = num_atoms g
  /\ polar_matrix g' = polar_matrix g
  /\ polar_matrix_tp g' = polar_matrix_tp g
  /\ polar_vector g' = polar_vector g
  /\ is_initialised g' = is_initialised g
  /\ (well_formed g -> well_formed g')
  /\ (orthogonal_frame g -> orthogonal_frame g').
Proof.
  first_half e g m Hm.
  pose proof (decide_field e M Hm) as Hd; cbv zeta in Hd.
  destruct Hd as (Hn & Hoff & Hcont & Hmet).
  assert (Hg1 : globals1 m
                = set_mt (set_spin g (atom_number1 m) (spin1_final m))
                    (mt (globals1 m)))
    by (destruct Hm as (_ & _ & _ & _ & _ & _ & _ & _ & Hg1); exact Hg1).
  assert (Hfr : polar_matrix (fst (decide_move e m M)) = polar_matrix g
                /\ polar_matrix_tp (fst (decide_move e m M))
                   = polar_matrix_tp g
                /\ polar_vector (fst (decide_move e m M)) = polar_vector g
                /\ is_initialised (fst (decide_move e m M))
                   = is_initialised g).
  { unfold decide_move.
    destruct (on_sphere m);
      [destruct (delta_energy21 (move_second e m M) <? d0)%D;
       [|cbv zeta; unfold draw; cbn [fst snd mt set_mt];
         match goal with |- context [if ?c then _ else _] => destruct c end]
      |];
      cbn [path_continue path_accept path_energy_reject path_sphere_reject
           fst set_stats set_mt set_spin move_second globals2 polar_matrix
           polar_matrix_tp polar_vector is_initialised];
      rewrite Hg1; repeat split. }
  destruct Hfr as (Hp & Htp & Hv & Hi).
  split; [exact Hn|]. split; [exact Hp|]. split; [exact Htp|].
  split; [exact Hv|]. split; [exact Hi|]. split.
  - intros Hwf.
    assert (Hw1 : well_formed
                    (set_spin (set_spin g (atom_number1 m) (spin1_final m))
                       (atom_number2 m)
                       (spin2_final (move_second e m M))))
      by (do 2 apply set_spin_well_formed; exact Hwf).
    destruct (on_sphere m) eqn:Hsph.
    + destruct (delta_energy21 (move_second e m M) <? d0)%D eqn:Hde.
      * destruct (Hcont eq_refl eq_refl) as (Ha & _).
        eapply spin_arrays_well_formed; [|exact Ha|exact Hw1]; exact Hn.
      * destruct (Hmet eq_refl eq_refl) as (_ & Ha).
        match type of Ha with context [if ?c then _ else _] =>
          destruct c end.
        -- eapply spin_arrays_well_formed; [|exact Ha|exact Hw1]; exact Hn.
        -- exact (spin_arrays_well_formed Hn Ha Hwf).
    + destruct (Hoff eq_refl) as (Ha & _).
      exact (spin_arrays_well_formed Hn Ha Hwf).
  - unfold orthogonal_frame; rewrite Hp, Htp; tauto.
Qed.

End Unchanged.

(** ** The sphere test *)

Section SphereTest.

Variable G : Type.
Variable e : env (T:=R) G.
Variable g : globals (T:=R) G.
Variable M : vec3 R.

Local Open Scope R_scope.

(** C8. A trial is a sphere reject exactly when
    x^2 + y^2 >= 1 or the two sites coincide, for (x,y) the in-plane part
    asked of the second spin; it then leaves the spin field as it was
    (site 1 restored, site 2 never written), adds 1 to sphere_reject and to
    mc_total, and leaves M_other. The boundary x^2 + y^2 = 1 is rejected.
    When the trial goes on, sphere_reject stays, the argument
    1 - x^2 - y^2 of the square root is positive and the z component of
    the second spin in the constraint frame, the denominator of the
    Jacobian in P, is not zero. *)
Theorem C8_sphere_reject :
  let m := move_first e g in
  let g' := fst (trial e g M) in
  let x := spin2_fin_mvd_0 m in
  let y := spin2_fin_mvd_1 m in
  (on_sphere m = false
   <-> 1 <= x * x + y * y \/ atom_number2 m = atom_number1 m)
  /\ (on_sphere m = false ->
      spin_arrays g' = spin_arrays g
      /\ sphere_reject g' = sphere_reject g + 1
      /\ mc_total g' = mc_total g + 1
      /\ mc_success g' = mc_success g
      /\ energy_reject g' = energy_reject g
      /\ snd (trial e g M) = M)
  /\ (x * x + y * y = 1 -> on_sphere m = false)
  /\ (on_sphere m = true ->
      sphere_reject g' = sphere_reject g
      /\ 0 < 1 - x * x - y * y
      /\ v2 (spin2_fin_mvd (move_second e m M)) <> 0).
Proof.
  first_half e g m Hm.
  set (x := spin2_fin_mvd_0 m).
  set (y := spin2_fin_mvd_1 m).
  assert (Hiff : on_sphere m = false
                 <-> 1 <= x * x + y * y \/ atom_number2 m = atom_number1 m).
  { unfold on_sphere; fold x; fold y.
    cbn [dlt dadd dmul d1 R_arith].
    rewrite andb_false_iff, Rltb_false_iff, negb_false_iff, Nat.eqb_eq.
    intuition congruence. }
  destruct (first_move_stats Hm) as (Hsu & Hto & Hsr & Her).
  split; [exact Hiff|]. split; [|split].
  - intros Hoff.
    rewrite decide_sphere_reject by assumption.
    cbn [path_sphere_reject fst snd].
    rewrite set_stats_arrays, (restore_first Hm).
    cbn [set_stats set_spin sphere_reject mc_total mc_success energy_reject
         dadd d1 R_arith].
    rewrite Hsu, Hto, Hsr, Her; repeat split.
  - intros H1; apply Hiff; left; lra.
  - intros Hon.
    pose proof (inside_positive m Hon) as Hpos.
    fold x in Hpos; fold y in Hpos.
    split; [|split; [exact Hpos|]].
    + destruct (delta_energy21 (move_second e m M) <? d0)%D eqn:Hde.
      * rewrite decide_continue by assumption.
        cbn [path_continue fst move_second globals2 set_spin sphere_reject].
        exact Hsr.
      * rewrite decide_metropolis by assumption.
        match goal with |- context [if ?c then _ else _] => destruct c end;
          cbn [path_accept path_energy_reject fst set_stats set_mt set_spin
               move_second globals2 sphere_reject];
          exact Hsr.
    + pose proof (spin2_final_spec e M Hm) as Hf; cbv zeta in Hf.
      destruct Hf as (_ & _ & _ & Hz).
      rewrite Hz; fold x; fold y.
      apply Rmult_integral_contrapositive_currified.
      * apply sign_nonzero.
      * pose proof (sqrt_lt_R0 _ Hpos); lra.
Qed.

End SphereTest.

(** ** The magnetisation at the entry of a sweep *)

Section SweepEntry.

Variable G : Type.

Local Open Scope R_scope.

Lemma Rsum_step (xs : list R) (s n : nat) :
  Rsum (firstn (S n) (skipn s xs))
  = nth s xs 0 + Rsum (firstn n (skipn (S s) xs)).
Proof.
  revert s; induction xs as [|x t IH]; intros s.
  - rewrite !skipn_nil, !firstn_nil; destruct s; simpl; lra.
  - destruct s as [|s'].
    + reflexivity.
    + change (skipn (S s') (x :: t)) with (skipn s' t).
      change (skipn (S (S s')) (x :: t)) with (skipn (S s') t).
      change (nth (S s') (x :: t) 0) with (nth s' t 0).
      apply IH.
Qed.

(** The summing loop, started anywhere: it adds the spins it passes. *)
Lemma sum_loop (xs ys zs : list R) (n s : nat) (a b c : R) :
  fold_left
    (fun M atom =>
       V3 (v0 M + nth atom xs 0) (v1 M + nth atom ys 0)
          (v2 M + nth atom zs 0))
    (seq s n) (V3 a b c)
  = V3 (a + Rsum (firstn n (skipn s xs)))
       (b + Rsum (firstn n (skipn s ys)))
       (c + Rsum (firstn n (skipn s zs))).
Proof.
  revert s a b c; induction n as [|k IH]; intros s a b c.
  - simpl; f_equal; lra.
  - cbn [seq fold_left v0 v1 v2].
    rewrite IH, !Rsum_step; f_equal; lra.
Qed.

Lemma sum_spins_total (g : globals (T:=R) G) :
  well_formed g -> sum_spins g = total_spin g.
Proof.
  intros (Lx & Ly & Lz).
  unfold sum_spins, total_spin; cbn [dadd d0 R_arith].
  rewrite sum_loop; cbn [skipn].
  rewrite <- Lx at 1; rewrite <- Ly at 1; rewrite <- Lz at 1.
  rewrite !firstn_all; f_equal; lra.
Qed.

Lemma fill_length (v : R) (n : nat) (a : list R) :
  length (fold_left (fun a atom => upd atom v a) (seq 0 n) a) = length a.
Proof.
  generalize 0%nat; revert a; induction n as [|k IH]; intros a s; simpl.
  - reflexivity.
  - rewrite IH; apply upd_length.
Qed.

Lemma CMCinit_well_formed (e : env (T:=R) G) (g : globals (T:=R) G) :
  well_formed g -> well_formed (CMCinit e g).
Proof.
  unfold well_formed, CMCinit.
  destruct (polar_rot_matrix (constraint_phi e) (constraint_theta e))
    as [[pm pm_tp] pv].
  cbn [x_spin_array y_spin_array z_spin_array num_atoms].
  rewrite !fill_length; tauto.
Qed.

(** C10. The loop of trials of a sweep is entered with M_other equal to the
    sum of all the spins of the field as it is then (after [CMCinit], when
    that has not run before): the sweep takes no magnetisation from
    outside, so nothing an earlier sweep left in its M_other matters. *)
Theorem C10_sweep_enters_with_total_spin
  (e : env (T:=R) G) (g : globals (T:=R) G) :
  let g0 := if is_initialised g then g else CMCinit e g in
  well_formed g ->
  sweep_entry e g = (g0, total_spin g0)
  /\ sweep e g = mc_loop e (num_atoms g0) g0 (total_spin g0).
Proof.
  intros g0 Hwf.
  assert (Hwf0 : well_formed g0).
  { unfold g0; destruct (is_initialised g);
      [exact Hwf | apply CMCinit_well_formed; exact Hwf]. }
  assert (He : sweep_entry e g = (g0, total_spin g0)).
  { unfold sweep_entry; fold g0. rewrite sum_spins_total by exact Hwf0.
    reflexivity. }
  split; [exact He|].
  unfold sweep; rewrite He; reflexivity.
Qed.

End SweepEntry.

Section FrameOfInit.

Variable G : Type.

Local Open Scope R_scope.

(** X4. [CMCinit] leaves an orthogonal frame in the globals, whatever
    the two angles: polar_matrix_tp is the transpose of polar_matrix, their
    product is the identity, and polar_vector is the third row of
    polar_matrix, a unit vector. *)
Theorem X4_CMCinit_frame_orthogonal
  (e : env (T:=R) G) (g : globals (T:=R) G) :
  let g' := CMCinit e g in
  orthogonal_frame g'
  /\ polar_vector g' = v2 (polar_matrix g')
  /\ unit_vec (polar_vector g')
  /\ is_initialised g' = true.
Proof.
  pose proof (polar_rot_matrix_orthogonal (constraint_phi e)
                (constraint_theta e)) as H; cbv zeta in H.
  unfold orthogonal_frame, CMCinit; cbv zeta.
  destruct (polar_rot_matrix (constraint_phi e) (constraint_theta e))
    as [[pm tp] pv].
  cbn [fst snd polar_matrix polar_matrix_tp polar_vector is_initialised]
    in *.
  destruct H as (H1 & H2 & H3).
  split; [split; assumption|]. split; [exact H3|]. split; [|reflexivity].
  subst tp pv; revert H2.
  destruct pm as [[p00 p01 p02] [p10 p11 p12] [p20 p21 p22]].
  unfold matmul, transpose, identity3, unit_vec;
    cbn [v0 v1 v2 dadd dmul R_arith].
  intros H2; injection H2; intros; assumption.
Qed.

End FrameOfInit.

(** ** The bookkeeping on the ways other than the [continue] *)

Section Bookkeeping.

Variable G : Type.
Variable e : env (T:=R) G.
Variable g : globals (T:=R) G.
Variable M : vec3 R.

Local Open Scope R_scope.

Lemma Rsum_upd (i : nat) (v : R) (l : list R) :
  (i < length l)%nat -> Rsum (upd i v l) = Rsum l - nth i l 0 + v.
Proof.
  revert i; induction l as [|h t IH]; intros [|j] Hi; simpl in *;
    try lia.
  - lra.
  - rewrite IH by lia; lra.
Qed.

Lemma total_spin_arrays (a b : globals (T:=R) G) :
  spin_arrays a = spin_arrays b -> total_spin a = total_spin b.
Proof.
  unfold spin_arrays, total_spin; intros H; injection H as Hx Hy Hz.
  rewrite Hx, Hy, Hz; reflexivity.
Qed.

(** The two sites are valid indices when the generator keeps to [0,1). *)
Lemma atoms_in_range :
  grnd_in_unit_interval e -> (0 < num_atoms g)%nat ->
  (atom_number1 (move_first e g) < num_atoms g)%nat
  /\ (atom_number2 (move_first e g) < num_atoms g)%nat.
Proof.
  intros Hg Hn.
  pose proof (move_first_atoms e g) as Ha; cbv zeta in Ha.
  destruct Ha as [H1 H2]; rewrite H1, H2.
  unfold pick_atom; cbn [dmul of_int to_int R_arith].
  split; apply Rtrunc_scaled_lt; auto.
Qed.

(** The sum of the spins once both have been moved. *)
Lemma total_spin_moved (m : first_move G) (s2 : vec3 R) :
  let moved :=
    set_spin (set_spin g (atom_number1 m) (spin1_final m))
      (atom_number2 m) s2 in
  is_first_move g m ->
  well_formed g ->
  (atom_number1 m < num_atoms g)%nat ->
  (atom_number2 m < num_atoms g)%nat ->
  total_spin moved
  = V3 (v0 (total_spin g) + v0 (spin1_final m) + v0 s2
        - v0 (spin1_initial m) - v0 (spin2_initial m))
       (v1 (total_spin g) + v1 (spin1_final m) + v1 s2
        - v1 (spin1_initial m) - v1 (spin2_initial m))
       (v2 (total_spin g) + v2 (spin1_final m) + v2 s2
        - v2 (spin1_initial m) - v2 (spin2_initial m)).
Proof.
  intros moved Hm (Lx & Ly & Lz) H1 H2.
  destruct Hm as (Hi & _ & _ & _ & Hj & _).
  rewrite Hi, Hj.
  unfold moved, total_spin, spin_at;
    cbn [set_spin x_spin_array y_spin_array z_spin_array v0 v1 v2 d0
         R_arith].
  rewrite !Rsum_upd by (rewrite ?upd_length; lia).
  f_equal; lra.
Qed.

(** X1. On every way through a trial other than the [continue] of the
    energy test, M_other stays the sum of all spins: the rejects change
    neither, and the Metropolis accept moves M_other by what the two
    spins moved. *)
Theorem X1_M_other_follows_the_spins :
  let m := move_first e g in
  let q := move_second e m M in
  well_formed g ->
  grnd_in_unit_interval e ->
  (0 < num_atoms g)%nat ->
  M = total_spin g ->
  (on_sphere m = true -> ~ delta_energy21 q < 0) ->
  snd (trial e g M) = total_spin (fst (trial e g M)).
Proof.
  cbv zeta; intros Hwf Hg Hn HM.
  generalize (atoms_in_range Hg Hn).
  first_half e g m Hm.
  set (q := move_second e m M).
  intros [H1 H2] Hpath.
  pose proof (decide_field e M Hm) as Hd; cbv zeta in Hd; fold q in Hd.
  destruct Hd as (_ & Hoff & _ & Hmet).
  destruct (on_sphere m) eqn:Hsph.
  - assert (Hde : (delta_energy21 q <? d0)%D = false)
      by (apply Rltb_false_iff; specialize (Hpath eq_refl);
          cbn [d0 R_arith]; lra).
    destruct (Hmet eq_refl Hde) as (_ & Ha).
    rewrite (decide_metropolis e m M Hsph Hde) in *; fold q in Ha |- *.
    match goal with |- context [if ?c then _ else _] => destruct c end.
    + rewrite (total_spin_arrays Ha).
      unfold q at 2; rewrite (total_spin_moved _ Hm Hwf H1 H2).
      cbn [path_accept snd moved_M dadd dsub R_arith]; fold q.
      rewrite HM; reflexivity.
    + rewrite (total_spin_arrays Ha); exact HM.
  - destruct (Hoff eq_refl) as (Ha & _).
    rewrite (total_spin_arrays Ha).
    rewrite decide_sphere_reject by assumption; exact HM.
Qed.

(** X2. On every way through a trial other than the [continue] of the
    energy test, mc_total grows by exactly 1. *)
Theorem X2_mc_total_counts_the_other_ways :
  let m := move_first e g in
  let q := move_second e m M in
  (on_sphere m = true -> ~ delta_energy21 q < 0) ->
  mc_total (fst (trial e g M)) = mc_total g + 1.
Proof.
  first_half e g m Hm.
  set (q := move_second e m M).
  intros Hpath.
  destruct (first_move_stats Hm) as (_ & Ht & _).
  destruct (on_sphere m) eqn:Hsph.
  - assert (Hde : (delta_energy21 q <? d0)%D = false)
      by (apply Rltb_false_iff; specialize (Hpath eq_refl);
          cbn [d0 R_arith]; lra).
    rewrite (decide_metropolis e m M Hsph Hde).
    match goal with |- context [if ?c then _ else _] => destruct c end;
      cbn [path_accept path_energy_reject fst set_stats set_mt set_spin
           move_second globals2 mc_total dadd d1 R_arith];
      rewrite Ht; reflexivity.
  - rewrite decide_sphere_reject by assumption.
    cbn [path_sphere_reject fst set_stats set_spin mc_total dadd d1 R_arith].
    rewrite Ht; reflexivity.
Qed.

(** X3. Whenever a pair move passes the sphere test with
    delta_energy21 < 0, the trial leaves both new spins in the field and
    touches none of the four statistics nor M_other. *)
Theorem X3_continue_skips_the_bookkeeping :
  let m := move_first e g in
  let q := move_second e m M in
  let g' := fst (trial e g M) in
  on_sphere m = true ->
  delta_energy21 q < 0 ->
  spin_arrays g'
  = spin_arrays
      (set_spin (set_spin g (atom_number1 m) (spin1_final m))
         (atom_number2 m) (spin2_final q))
  /\ mc_total g' = mc_total g
  /\ mc_success g' = mc_success g
  /\ energy_reject g' = energy_reject g
  /\ sphere_reject g' = sphere_reject g
  /\ snd (trial e g M) = M.
Proof.
  first_half e g m Hm.
  set (q := move_second e m M).
  intros Hsph Hlt.
  assert (Hde : (delta_energy21 q <? d0)%D = true)
    by (apply Rltb_true; exact Hlt).
  pose proof (decide_field e M Hm) as Hd; cbv zeta in Hd; fold q in Hd.
  destruct Hd as (_ & _ & Hcont & _).
  destruct (Hcont Hsph Hde) as (Ha & _).
  split; [exact Ha|].
  destruct (first_move_stats Hm) as (Hs & Ht & Hsr & Her).
  rewrite (decide_continue e m M Hsph Hde).
  cbn [path_continue fst snd move_second globals2 set_spin mc_total
       mc_success energy_reject sphere_reject].
  repeat split; assumption.
Qed.

End Bookkeeping.

(** ** The hypotheses hold on the example *)

Section RealWitnesses.

Local Open Scope R_scope.

Lemma ex_well_formed (rest : list R) : well_formed (ex_globals rest).
Proof. repeat split. Qed.

Lemma ex_orthogonal (rest : list R) : orthogonal_frame (ex_globals rest).
Proof.
  split; [reflexivity|].
  unfold matmul, identity3; run; fields.
Qed.

Lemma ex_unit_spins (rest : list R) : unit_spins (ex_globals rest).
Proof.
  intros i Hi; cbn [ex_globals num_atoms] in Hi.
  unfold unit_vec.
  destruct i as [|[|i]]; [run; lra | run; lra | lia].
Qed.

Lemma ex_no_energy_gain (rest : list R) :
  let e := ex_env no_field in
  let m := move_first e (ex_globals rest) in
  ~ delta_energy1 m + delta_energy2 (move_second e m ex_M_other) < 0.
Proof.
  cbv zeta; rewrite ex_first; run; lra.
Qed.

(** The frame of [ex_globals] is the identity, and its trial passes the
    sphere test. *)
Lemma C5_in_plane_magnetisation_conserved_witness :
  let e := ex_env field_down in
  let g := ex_globals [] in
  let m := move_first e g in
  let q := move_second e m ex_M_other in
  orthogonal_frame g
  /\ on_sphere m = true
  /\ v0 (matvec (polar_matrix g)
           (V3 (v0 (spin1_final m) + v0 (spin2_final q)
                - v0 (spin1_initial m) - v0 (spin2_initial m))
               (v1 (spin1_final m) + v1 (spin2_final q)
                - v1 (spin1_initial m) - v1 (spin2_initial m))
               (v2 (spin1_final m) + v2 (spin2_final q)
                - v2 (spin1_initial m) - v2 (spin2_initial m)))) = 0.
Proof.
  cbv zeta.
  assert (Ho : orthogonal_frame (ex_globals [])) by apply ex_orthogonal.
  assert (Hs : on_sphere (move_first (ex_env field_down) (ex_globals []))
               = true)
    by (rewrite ex_first; apply ex_on_sphere).
  split; [exact Ho|]. split; [exact Hs|].
  exact (proj1 (@C5_in_plane_magnetisation_conserved (list R)
                  (ex_env field_down) (ex_globals []) ex_M_other Ho Hs)).
Defined.

(** Without a field the trial of [ex_globals] passes the sphere test with
    delta_energy21 = 0, at 300 K and with Mz_old = 2. *)
Lemma X25_metropolis_acceptance_exact_witness :
  let e := ex_env no_field in
  let g := ex_globals [9/10] in
  let m := move_first e g in
  let q := move_second e m ex_M_other in
  on_sphere m = true
  /\ ~ delta_energy1 m + delta_energy2 q < 0
  /\ temperature e <> 0
  /\ Mz_old q <> 0
  /\ probability e m q
     = exp (- (delta_energy1 m + delta_energy2 q)
            * (9.27400915e-24 / (1.3806503e-23 * temperature e)))
       * (Mz_new q / Mz_old q) ^ 2
       * Rabs (v2 (spin2_init_mvd m) / v2 (spin2_fin_mvd q)).
Proof.
  cbv zeta.
  assert (Hs : on_sphere (move_first (ex_env no_field) (ex_globals [9/10]))
               = true)
    by (rewrite ex_first; apply ex_on_sphere).
  pose proof (@ex_no_energy_gain [9/10]) as Hd; cbv zeta in Hd.
  assert (HT : temperature (ex_env no_field) <> 0)
    by (cbn [ex_env temperature]; lra).
  assert (HM : Mz_old (move_second (ex_env no_field)
                         (move_first (ex_env no_field) (ex_globals [9/10]))
                         ex_M_other) <> 0)
    by (rewrite ex_first; run; lra).
  split; [exact Hs|]. split; [exact Hd|]. split; [exact HT|].
  split; [exact HM|].
  exact (proj1 (@X25_metropolis_acceptance_exact (list R) (ex_env no_field)
                  (ex_globals [9/10]) ex_M_other Hs Hd HT HM)).
Defined.

(** [ex_globals] holds two unit spins, and the first one moves to
    (3,0,4) before it is normalised. *)
Lemma C7_unit_spins_preserved_witness :
  let e := ex_env field_down in
  let g := ex_globals [] in
  let t := spin1_moved (move_first e g) in
  well_formed g
  /\ orthogonal_frame g
  /\ unit_spins g
  /\ v0 t * v0 t + v1 t * v1 t + v2 t * v2 t <> 0
  /\ unit_spins (fst (trial e g ex_M_other)).
Proof.
  cbv zeta.
  assert (Ht : let t := spin1_moved (move_first (ex_env field_down)
                                       (ex_globals [])) in
               v0 t * v0 t + v1 t * v1 t + v2 t * v2 t <> 0)
    by (cbv zeta; rewrite ex_first; run; lra).
  split; [apply ex_well_formed|].
  split; [apply ex_orthogonal|].
  split; [apply ex_unit_spins|].
  split; [exact Ht|].
  exact (@C7_unit_spins_preserved (list R) (ex_env field_down)
           (ex_globals []) ex_M_other (ex_well_formed [])
           (ex_orthogonal []) (@ex_unit_spins []) Ht).
Defined.

(** The three spin arrays of [ex_globals] have two entries each. *)
Lemma C10_sweep_enters_with_total_spin_witness :
  let e := ex_env field_down in
  let g := ex_globals [] in
  well_formed g /\ sweep_entry e g = (g, total_spin g).
Proof.
  cbv zeta; split; [apply ex_well_formed|].
  exact (proj1 (@C10_sweep_enters_with_total_spin (list R)
                  (ex_env field_down) (ex_globals [])
                  (ex_well_formed []))).
Defined.

(** With the generator that always returns 0 the trial of [ex_globals] is
    a sphere reject (site 0 twice), and M_other stays the sum (0,0,2). *)
Lemma X1_M_other_follows_the_spins_witness :
  let e := ex_still_env in
  let g := ex_globals [] in
  well_formed g
  /\ grnd_in_unit_interval e
  /\ (0 < num_atoms g)%nat
  /\ ex_M_other = total_spin g
  /\ on_sphere (move_first e g) = false
  /\ snd (trial e g ex_M_other) = total_spin (fst (trial e g ex_M_other)).
Proof.
  cbv zeta.
  assert (Hg : grnd_in_unit_interval ex_still_env)
    by (intros r; cbn [ex_still_env grnd fst]; lra).
  assert (Hn : (0 < num_atoms (ex_globals []))%nat)
    by (cbn [ex_globals num_atoms]; lia).
  assert (HM : ex_M_other = total_spin (ex_globals []))
    by (symmetry; apply ex_total_spin).
  assert (Hoff : on_sphere (move_first ex_still_env (ex_globals [])) = false).
  { apply same_site_off_sphere.
    pose proof (move_first_atoms ex_still_env (ex_globals [])) as Ha.
    cbv zeta in Ha; destruct Ha as [H1 H2]; rewrite H1, H2; reflexivity. }
  split; [apply ex_well_formed|].
  split; [exact Hg|]. split; [exact Hn|]. split; [exact HM|].
  split; [exact Hoff|].
  refine (@X1_M_other_follows_the_spins (list R) ex_still_env
            (ex_globals []) ex_M_other (ex_well_formed []) Hg Hn HM _).
  intros Hon; rewrite Hoff in Hon; discriminate.
Defined.

(** Without a field the energy does not change, and the trial of
    [ex_globals] is counted. *)
Lemma X2_mc_total_counts_the_other_ways_witness :
  let e := ex_env no_field in
  let g := ex_globals [9/10] in
  let m := move_first e g in
  let q := move_second e m ex_M_other in
  ~ delta_energy21 q < 0
  /\ mc_total (fst (trial e g ex_M_other)) = mc_total g + 1.
Proof.
  cbv zeta.
  pose proof (@ex_no_energy_gain [9/10]) as Hd; cbv zeta in Hd.
  split; [exact Hd|].
  exact (@X2_mc_total_counts_the_other_ways (list R) (ex_env no_field)
           (ex_globals [9/10]) ex_M_other (fun _ => Hd)).
Defined.

(** In the field along -z the trial of [ex_globals] passes the sphere test
    and lowers the energy. *)
Lemma X3_continue_skips_the_bookkeeping_witness :
  let e := ex_env field_down in
  let g := ex_globals [9/10] in
  let m := move_first e g in
  let q := move_second e m ex_M_other in
  on_sphere m = true
  /\ delta_energy21 q < 0
  /\ mc_total (fst (trial e g ex_M_other)) = mc_total g.
Proof.
  cbv zeta.
  assert (Hs : on_sphere (move_first (ex_env field_down) (ex_globals [9/10]))
               = true)
    by (rewrite ex_first; apply ex_on_sphere).
  assert (Hd : delta_energy21
                 (move_second (ex_env field_down)
                    (move_first (ex_env field_down) (ex_globals [9/10]))
                    ex_M_other) < 0)
    by (rewrite ex_first, ex_second_field_down; apply ex_energy_gain).
  split; [exact Hs|]. split; [exact Hd|].
  exact (proj1 (proj2 (@X3_continue_skips_the_bookkeeping (list R)
                         (ex_env field_down) (ex_globals [9/10])
                         ex_M_other Hs Hd))).
Defined.

End RealWitnesses.


(** ** A zero projected magnetisation, in IEEE arithmetic *)

Section FloatLemmas.

Local Open Scope float_scope.

Lemma zero_of_eqb (x : float) :
  (x =? 0) = true -> exists s, Prim2SF x = S754_zero s.
Proof.
  rewrite FloatAxioms.eqb_spec.
  change (Prim2SF 0) with (S754_zero false).
  destruct (Prim2SF x) as [s|s| |s m e]; try destruct s; cbn;
    try discriminate; eauto.
Qed.

(** 0 <= x without 0 < x: x is a zero. *)
Lemma zero_of_order (x : float) :
  (0 <=? x) = true -> (0 <? x) = false -> exists s, Prim2SF x = S754_zero s.
Proof.
  rewrite FloatAxioms.leb_spec, FloatAxioms.ltb_spec.
  change (Prim2SF 0) with (S754_zero false).
  destruct (Prim2SF x) as [s|s| |s m e]; try destruct s; cbn;
    try discriminate; eauto.
Qed.

Lemma div_zero_zero (a b : float) (s t : bool) :
  Prim2SF a = S754_zero s -> Prim2SF b = S754_zero t ->
  Prim2SF (a / b) = S754_nan.
Proof.
  intros Ha Hb; rewrite FloatAxioms.div_spec, Ha, Hb.
  destruct s, t; reflexivity.
Qed.

Lemma mul_nan_r (a b : float) :
  Prim2SF b = S754_nan -> Prim2SF (a * b) = S754_nan.
Proof.
  intros Hb; rewrite FloatAxioms.mul_spec, Hb.
  destruct (Prim2SF a); reflexivity.
Qed.

Lemma mul_nan_l (a b : float) :
  Prim2SF a = S754_nan -> Prim2SF (a * b) = S754_nan.
Proof.
  intros Ha; rewrite FloatAxioms.mul_spec, Ha; reflexivity.
Qed.

Lemma leb_nan_r (a b : float) : Prim2SF b = S754_nan -> (a <=? b) = false.
Proof.
  intros Hb; rewrite FloatAxioms.leb_spec, Hb.
  destruct (Prim2SF a); reflexivity.
Qed.

End FloatLemmas.

Section ZeroMzOld.

Context {L : Libm float}.
Variable G : Type.
Variable e : env (T:=float) G.
Variable g : globals (T:=float) G.
Variable M : vec3 float.

Local Open Scope float_scope.

(** With Mz_old a zero and Mz_new not positive, the Metropolis test
    fails. *)
Lemma zero_Mz_old_test (m : first_move G) (u : float) :
  let q := move_second e m M in
  (Mz_old q =? 0) = true ->
  (0 <? Mz_new q) = false ->
  ((probability e m q >=? u) && (Mz_new q >=? d0))%D = false.
Proof.
  intros q Hold Hnew.
  cbn [dge d0 float_arith].
  destruct (0 <=? Mz_new q) eqn:Hle; [|apply andb_false_r].
  destruct (@zero_of_eqb _ Hold) as [s Hs].
  destruct (@zero_of_order _ Hle Hnew) as [t Ht].
  pose proof (@div_zero_zero _ _ _ _ Ht Hs) as Hq.
  assert (Hp : Prim2SF (probability e m q) = S754_nan).
  { unfold probability; cbn [dmul ddiv float_arith].
    apply mul_nan_l, mul_nan_r, mul_nan_l; exact Hq. }
  rewrite (@leb_nan_r u _ Hp); reflexivity.
Qed.

(** C9 (amended). If Mz_old is zero when the Metropolis test is evaluated,
    the division yields an infinity or NaN and nothing faults; if moreover
    Mz_new is not positive (it is negative, a zero or NaN), the trial is an
    energy reject: both sites get their saved spins back, energy_reject
    and mc_total grow by 1, mc_success and M_other stay. *)
Theorem C9_zero_Mz_old_not_positive_Mz_new :
  let m := move_first e g in
  let q := move_second e m M in
  let r := snd (grnd e (mt (globals2 q))) in
  let g' := fst (trial e g M) in
  on_sphere m = true ->
  (delta_energy21 q <? 0) = false ->
  (Mz_old q =? 0) = true ->
  (0 <? Mz_new q) = false ->
  trial e g M = path_energy_reject m q r M
  /\ spin_arrays g' = spin_arrays g
  /\ energy_reject g' = energy_reject g + 1
  /\ mc_total g' = mc_total g + 1
  /\ mc_success g' = mc_success g
  /\ snd (trial e g M) = M.
Proof.
  first_half e g m Hm.
  set (q := move_second e m M).
  set (r := snd (grnd e (mt (globals2 q)))).
  intros Hsph Hde Hold Hnew.
  assert (Ht : decide_move e m M = path_energy_reject m q r M).
  { rewrite decide_metropolis by assumption.
    fold q; fold r.
    rewrite zero_Mz_old_test by assumption; reflexivity. }
  split; [exact Ht|].
  destruct (first_move_stats Hm) as (Hsu & Hto & _ & Her).
  rewrite Ht; cbn [path_energy_reject fst snd].
  rewrite set_stats_arrays.
  split.
  { apply (restore_both Hm (on_sphere_distinct _ Hsph)
             (s := spin2_final q)).
    rewrite set_mt_arrays; unfold q; apply second_move_arrays. }
  unfold q;
    cbn [set_stats set_spin set_mt move_second globals2 energy_reject
         mc_total mc_success dadd d1 float_arith].
  rewrite Hsu, Hto, Her; repeat split.
Qed.

End ZeroMzOld.

Section ZeroMzOldExamples.

Local Open Scope float_scope.

(** On [fex_opposed] the projected magnetisation is zero before and after
    the (null) pair move: an energy reject, whatever the library's exp. *)
Lemma C9_zero_Mz_old_not_positive_Mz_new_witness :
  let g := fex_opposed in
  let M := sum_spins g in
  let m := move_first fex_env g in
  let q := move_second fex_env m M in
  on_sphere m = true
  /\ (delta_energy21 q <? 0) = false
  /\ (Mz_old q =? 0) = true
  /\ (0 <? Mz_new q) = false
  /\ forall L : Libm float,
       energy_reject (fst (trial fex_env g M)) = energy_reject g + 1.
Proof.
  cbv zeta.
  set (g := fex_opposed).
  set (M := sum_spins g).
  assert (H1 : on_sphere (move_first fex_env g) = true)
    by (vm_compute; reflexivity).
  assert (H2 : (delta_energy21 (move_second fex_env (move_first fex_env g) M)
                <? 0) = false)
    by (vm_compute; reflexivity).
  assert (H3 : (Mz_old (move_second fex_env (move_first fex_env g) M) =? 0)
               = true)
    by (vm_compute; reflexivity).
  assert (H4 : (0 <? Mz_new (move_second fex_env (move_first fex_env g) M))
               = false)
    by (vm_compute; reflexivity).
  repeat (split; [assumption|]).
  intros L.
  exact (proj1 (proj2 (proj2
    (@C9_zero_Mz_old_not_positive_Mz_new L (list float) fex_env g M
       H1 H2 H3 H4)))).
Defined.

(** C9, as stated, fails on the trial of [fex_globals]: the sum of the
    spins has no z component, so Mz_old = 0; the pair move of sites 0 and 2
    passes the sphere test with delta_energy21 = 0, so the Metropolis test
    is evaluated; Mz_new > 0 makes Mz_new/Mz_old infinite, and for every
    exp with exp(-0) = 1 (the value C fixes) the move is accepted: the
    spins stay moved and mc_success, not energy_reject, counts it. *)
Lemma C9_counterexample :
  let g := fex_globals in
  let M := sum_spins g in
  let m := move_first fex_env g in
  let q := move_second fex_env m M in
  on_sphere m = true
  /\ (delta_energy21 q <? 0) = false
  /\ (Mz_old q =? 0) = true
  /\ Mz_new q / Mz_old q = infinity
  /\ x_spin_array g = [0; 0; 0.8; 0.8]
  /\ z_spin_array g = [1; -1; 0.6; -0.6]
  /\ forall L : Libm float,
       dexp (-0) = 1 ->
       let g' := fst (trial fex_env g M) in
       x_spin_array g'
       = [0.60000000000000009; 0; 0.19999999999999996; 0.8]
       /\ z_spin_array g' = [0.8; -1; 0.9797958971132712; -0.6]
       /\ mc_success g' = 1
       /\ energy_reject g' = 0.
Proof.
  cbv zeta.
  set (g := fex_globals).
  set (M := sum_spins g).
  assert (H1 : on_sphere (move_first fex_env g) = true)
    by (vm_compute; reflexivity).
  assert (H2 : (delta_energy21 (move_second fex_env (move_first fex_env g) M)
                <? 0) = false)
    by (vm_compute; reflexivity).
  repeat (split; [vm_compute; reflexivity|]).
  intros L HL.
  unfold trial; rewrite decide_metropolis by assumption.
  unfold probability.
  replace ((- delta_energy21 (move_second fex_env (move_first fex_env g) M)
            * kBTBohr fex_env)%D) with (-0) by (vm_compute; reflexivity).
  rewrite HL.
  vm_compute; repeat split.
Qed.


End ZeroMzOldExamples.

(** * Further properties of the code *)

(** ** The loop of [sim::CMCinit] *)

Section FillLoop.

Context {A : Type}.

(** [for(atom=s; atom<s+n; atom++) a[atom]=v;] keeps the length of [a]. *)
Lemma fill_from_length (v : A) (n s : nat) (a : list A) :
  length (fold_left (fun a atom => upd atom v a) (seq s n) a) = length a.
Proof.
  revert s a; induction n as [|k IH]; intros s a; simpl.
  - reflexivity.
  - rewrite IH; apply upd_length.
Qed.

(** It writes [v] at the indices it passes, and nothing elsewhere. *)
Lemma fill_from_nth (v d : A) (n s i : nat) (a : list A) :
  nth i (fold_left (fun a atom => upd atom v a) (seq s n) a) d
  = if (s <=? i) && (i <? s + n) && (i <? length a) then v else nth i a d.
Proof.
  revert s a; induction n as [|k IH]; intros s a.
  - simpl. replace (i <? s + 0) with (i <? s) by (f_equal; lia).
    destruct (Nat.leb_spec s i), (Nat.ltb_spec i s); simpl;
      try reflexivity; lia.
  - cbn [seq fold_left]. rewrite IH, upd_length.
    replace (i <? S s + k) with (i <? s + S k) by (f_equal; lia).
    destruct (Nat.eq_dec s i) as [->|Hne].
    + replace (S i <=? i) with false by (symmetry; apply Nat.leb_gt; lia).
      replace (i <=? i) with true by (symmetry; apply Nat.leb_le; lia).
      replace (i <? i + S k) with true by (symmetry; apply Nat.ltb_lt; lia).
      cbn [andb].
      destruct (Nat.ltb_spec i (length a)).
      * apply nth_upd_same; assumption.
      * rewrite upd_beyond by assumption; reflexivity.
    + replace (S s <=? i) with (s <=? i).
      * rewrite nth_upd_other by exact Hne; reflexivity.
      * destruct (Nat.leb_spec s i), (Nat.leb_spec (S s) i);
          try reflexivity; lia.
Qed.

(** On an array of [n] entries the loop over all of them leaves [n]
    copies of [v]. *)
Lemma fill_all (v : A) (a : list A) :
  fold_left (fun a atom => upd atom v a) (seq 0 (length a)) a
  = repeat v (length a).
Proof.
  destruct a as [|d t]; [reflexivity|].
  apply nth_ext with (d := d) (d' := d).
  - rewrite fill_from_length, repeat_length; reflexivity.
  - intros i Hi; rewrite fill_from_length in Hi.
    rewrite fill_from_nth.
    replace (i <? 0 + length (d :: t)) with true
      by (symmetry; apply Nat.ltb_lt; lia).
    replace (i <? length (d :: t)) with true
      by (symmetry; apply Nat.ltb_lt; lia).
    cbn [Nat.leb andb].
    symmetry; apply nth_repeat_lt; exact Hi.
Qed.

End FillLoop.

(** ** What [sim::CMCinit] leaves *)

Section InitSpins.

Context {T : Type} {A : Arith T} {L : Libm T} {G : Type}.

Local Open Scope dbl_scope.

(** On arrays of [num_atoms] entries the three loops of [CMCinit] leave
    [num_atoms] copies of the constraint direction. *)
Lemma CMCinit_arrays (e : env (T:=T) G) (g : globals (T:=T) G) :
  well_formed g ->
  spin_arrays (CMCinit e g)
  = (repeat (v0 (constraint_direction e)) (num_atoms g),
     repeat (v1 (constraint_direction e)) (num_atoms g),
     repeat (v2 (constraint_direction e)) (num_atoms g)).
Proof.
  intros (Lx & Ly & Lz).
  unfold CMCinit, spin_arrays, constraint_direction.
  destruct (polar_rot_matrix (constraint_phi e) (constraint_theta e))
    as [[pm pm_tp] pv].
  cbn [x_spin_array y_spin_array z_spin_array v0 v1 v2].
  assert (Hfill : forall (v : T) (a : list T),
             length a = num_atoms g ->
             fold_left (fun a atom => upd atom v a) (seq 0 (num_atoms g)) a
             = repeat v (num_atoms g))
    by (intros v a <-; apply fill_all).
  rewrite !Hfill by assumption; reflexivity.
Qed.

Lemma CMCinit_setup (e : env (T:=T) G) (g : globals (T:=T) G) :
  num_atoms (CMCinit e g) = num_atoms g
  /\ type_array (CMCinit e g) = type_array g
  /\ stats (CMCinit e g) = stats g
  /\ mt (CMCinit e g) = mt g
  /\ is_initialised (CMCinit e g) = true
  /\ hamiltonian_simulation_flags (CMCinit e g)
     = upd 3 0%Z (hamiltonian_simulation_flags g).
Proof.
  unfold CMCinit, stats.
  destruct (polar_rot_matrix (constraint_phi e) (constraint_theta e))
    as [[pm pm_tp] pv].
  repeat split.
Qed.

Lemma CMCinit_keeps_lengths (e : env (T:=T) G) (g : globals (T:=T) G) :
  well_formed g -> well_formed (CMCinit e g).
Proof.
  intros Hwf; pose proof (CMCinit_arrays e Hwf) as Ha.
  destruct (CMCinit_setup e g) as (Hn & _).
  revert Ha Hn; generalize (CMCinit e g); intros g' Ha Hn.
  unfold well_formed, spin_arrays in *; injection Ha as Hx Hy Hz.
  rewrite Hx, Hy, Hz, Hn, !repeat_length; repeat split.
Qed.

(** X7. [CMCinit] points every spin along the direction
    (sin phi cos theta, sin phi sin theta, cos phi) of the constraint
    angles (in degrees), whatever the spins were; it sets the initialised
    flag and clears entry 3 of hamiltonian_simulation_flags, and it leaves
    the other flags, the statistics (they are not reset), the material
    types and the generator as they were. *)
Theorem X7_CMCinit_aligns_every_spin
  (e : env (T:=T) G) (g : globals (T:=T) G) :
  let g' := CMCinit e g in
  well_formed g ->
  (forall i, (i < num_atoms g)%nat -> spin_at g' i = constraint_direction e)
  /\ well_formed g'
  /\ num_atoms g' = num_atoms g
  /\ is_initialised g' = true
  /\ ((3 < length (hamiltonian_simulation_flags g))%nat ->
      nth 3 (hamiltonian_simulation_flags g') 1%Z = 0%Z)
  /\ (forall j, j <> 3%nat ->
      nth j (hamiltonian_simulation_flags g') 0%Z
      = nth j (hamiltonian_simulation_flags g) 0%Z)
  /\ stats g' = stats g
  /\ type_array g' = type_array g
  /\ mt g' = mt g.
Proof.
  intros g' Hwf.
  pose proof (CMCinit_arrays e Hwf) as Ha.
  destruct (CMCinit_setup e g) as (Hn & Hty & Hst & Hmt & Hin & Hfl).
  fold g' in Ha, Hn, Hty, Hst, Hmt, Hin, Hfl.
  assert (Hwf' : well_formed g') by (apply CMCinit_keeps_lengths; exact Hwf).
  clearbody g'.
  split.
  { intros i Hi. unfold spin_arrays in Ha; injection Ha as Hx Hy Hz.
    unfold spin_at; rewrite Hx, Hy, Hz.
    rewrite !nth_repeat_lt by exact Hi.
    reflexivity. }
  split; [exact Hwf'|].
  split; [exact Hn|]. split; [exact Hin|].
  split; [intros H3; rewrite Hfl; apply nth_upd_same; exact H3|].
  split; [intros j Hj; rewrite Hfl; apply nth_upd_other; congruence|].
  split; [exact Hst|]. split; [exact Hty | exact Hmt].
Qed.

End InitSpins.

(** The spins of [ex_raw] point along x and y; [CMCinit] for
    phi = theta = 0 leaves the statistics 7, 9, 1, 1 it finds. *)
Lemma X7_CMCinit_aligns_every_spin_witness :
  let e := ex_env no_field in
  well_formed ex_raw
  /\ spin_at (CMCinit e ex_raw) 1 = constraint_direction e
  /\ stats (CMCinit e ex_raw) = (7, 9, 1, 1)%R.
Proof.
  cbv zeta.
  assert (Hwf : well_formed ex_raw) by (repeat split).
  pose proof (@X7_CMCinit_aligns_every_spin R R_arith R_libm (list R)
                (ex_env no_field) ex_raw Hwf) as H.
  split; [exact Hwf|].
  split.
  - apply (proj1 H); cbn [ex_raw num_atoms]; lia.
  - exact (proj1 (proj2 (proj2 (proj2 (proj2 (proj2 (proj2 H))))))).
Defined.

(** ** What no trial touches, for any reading of [double] *)

Section Setup.

Context {T : Type} {A : Arith T} {L : Libm T} {G : Type}.

Local Open Scope dbl_scope.

Lemma same_setup_refl (g : globals (T:=T) G) : same_setup g g.
Proof. repeat split. Qed.

Lemma same_setup_trans (a b c : globals (T:=T) G) :
  same_setup a b -> same_setup b c -> same_setup a c.
Proof.
  unfold same_setup; intros (H1 & H2 & H3 & H4 & H5 & H6 & H7)
    (K1 & K2 & K3 & K4 & K5 & K6 & K7).
  repeat split; congruence.
Qed.

Lemma set_spin_keeps_lengths (g : globals (T:=T) G) (i : nat) (s : vec3 T) :
  well_formed g -> well_formed (set_spin g i s).
Proof.
  unfold well_formed, set_spin;
    cbn [x_spin_array y_spin_array z_spin_array num_atoms].
  rewrite !upd_length; tauto.
Qed.

Lemma arrays_keep_lengths (a b : globals (T:=T) G) :
  num_atoms a = num_atoms b ->
  spin_arrays a = spin_arrays b ->
  well_formed b -> well_formed a.
Proof.
  unfold well_formed, spin_arrays; intros Hn H; injection H as Hx Hy Hz.
  rewrite Hx, Hy, Hz, Hn; tauto.
Qed.

Lemma spin_at_arrays (a b : globals (T:=T) G) (i : nat) :
  spin_arrays a = spin_arrays b -> spin_at a i = spin_at b i.
Proof.
  unfold spin_arrays, spin_at; intros H; injection H as Hx Hy Hz.
  rewrite Hx, Hy, Hz; reflexivity.
Qed.

Lemma spin_at_elsewhere (g : globals (T:=T) G) (i j : nat) (s : vec3 T) :
  i <> j -> spin_at (set_spin g i s) j = spin_at g j.
Proof.
  intros H; unfold spin_at, set_spin;
    cbn [x_spin_array y_spin_array z_spin_array].
  rewrite !nth_upd_other by exact H; reflexivity.
Qed.

(** The second half of a trial changes nothing but spins, statistics and
    the generator. *)
Lemma decide_setup (e : env (T:=T) G) (g : globals (T:=T) G)
  (m : first_move (T:=T) G) (M : vec3 T) :
  is_first_move g m -> same_setup (fst (decide_move e m M)) g.
Proof.
  intros Hm.
  assert (Hg1 : globals1 m
                = set_mt (set_spin g (atom_number1 m) (spin1_final m))
                    (mt (globals1 m)))
    by (destruct Hm as (_ & _ & _ & _ & _ & _ & _ & _ & Hg1); exact Hg1).
  unfold decide_move, same_setup.
  destruct (on_sphere m);
    [destruct (delta_energy21 (move_second e m M) <? d0);
     [|cbv zeta; unfold draw; cbn [fst snd mt set_mt];
       match goal with |- context [if ?c then _ else _] => destruct c end]
    |];
    cbn [path_continue path_accept path_energy_reject path_sphere_reject
         fst set_stats set_mt set_spin move_second globals2 polar_matrix
         polar_matrix_tp polar_vector is_initialised num_atoms type_array
         hamiltonian_simulation_flags];
    rewrite Hg1; repeat split.
Qed.

(** The spin field after the second half is the one before the trial or
    the one with both spins moved. *)
Lemma decide_arrays (e : env (T:=T) G) (g : globals (T:=T) G)
  (m : first_move (T:=T) G) (M : vec3 T) :
  is_first_move g m ->
  spin_arrays (fst (decide_move e m M)) = spin_arrays g
  \/ (on_sphere m = true
      /\ spin_arrays (fst (decide_move e m M))
         = spin_arrays
             (set_spin (set_spin g (atom_number1 m) (spin1_final m))
                (atom_number2 m) (spin2_final (move_second e m M)))).
Proof.
  intros Hm.
  pose proof (decide_field e M Hm) as Hd; cbv zeta in Hd.
  destruct Hd as (_ & Hoff & Hcont & Hmet).
  destruct (on_sphere m) eqn:Hsph.
  - destruct (delta_energy21 (move_second e m M) <? d0) eqn:Hde.
    + right; split; [reflexivity|]. apply Hcont; reflexivity.
    + destruct (Hmet eq_refl eq_refl) as (_ & Ha).
      match type of Ha with context [if ?c then _ else _] =>
        destruct c end;
        [right; split; [reflexivity | exact Ha] | left; exact Ha].
  - left; apply Hoff; reflexivity.
Qed.

Lemma decide_keeps_lengths (e : env (T:=T) G) (g : globals (T:=T) G)
  (m : first_move (T:=T) G) (M : vec3 T) :
  is_first_move g m -> well_formed g ->
  well_formed (fst (decide_move e m M)).
Proof.
  intros Hm Hwf.
  destruct (decide_setup e M Hm) as (Hn & _).
  destruct (decide_arrays e M Hm) as [Ha|[_ Ha]].
  - exact (arrays_keep_lengths Hn Ha Hwf).
  - eapply arrays_keep_lengths; [|exact Ha|]; [exact Hn|].
    do 2 apply set_spin_keeps_lengths; exact Hwf.
Qed.

(** X11. A trial changes no spin other than the two it picked, whatever
    way it takes and in any arithmetic; it changes neither the number of
    atoms, nor the material types, nor the frame, nor the flags. *)
Theorem X11_trial_touches_two_sites
  (e : env (T:=T) G) (g : globals (T:=T) G) (M : vec3 T) :
  let m := move_first e g in
  let g' := fst (trial e g M) in
  (forall i, i <> atom_number1 m -> i <> atom_number2 m ->
             spin_at g' i = spin_at g i)
  /\ same_setup g' g.
Proof.
  first_half e g m Hm.
  split; [|apply decide_setup; exact Hm].
  intros i H1 H2.
  destruct (decide_arrays e M Hm) as [Ha|[_ Ha]];
    rewrite (spin_at_arrays i Ha); [reflexivity|].
  rewrite !spin_at_elsewhere by congruence; reflexivity.
Qed.

(** ** The tracked projection *)

Lemma Mz_of_setup (a b : globals (T:=T) G) (M : vec3 T) :
  same_setup a b -> Mz_of a M = Mz_of b M.
Proof.
  intros (_ & _ & _ & Hv & _); unfold Mz_of; rewrite Hv; reflexivity.
Qed.

(** After the second half the projection of M_other on the constraint
    vector passes the test [>= 0.0] if it did before: an accepted move
    leaves the Mz_new that passed it, every other way leaves M_other. *)
Lemma decide_Mz (e : env (T:=T) G) (g : globals (T:=T) G)
  (m : first_move (T:=T) G) (M : vec3 T) :
  is_first_move g m ->
  (Mz_of g M >=? d0) = true ->
  (Mz_of g (snd (decide_move e m M)) >=? d0) = true.
Proof.
  intros Hm H.
  destruct (first_move_frame Hm) as (_ & _ & _ & Hv).
  destruct (on_sphere m) eqn:Hsph.
  - destruct (delta_energy21 (move_second e m M) <? d0) eqn:Hde.
    + rewrite decide_continue by assumption; exact H.
    + rewrite decide_metropolis by assumption.
      destruct (probability e m (move_second e m M)
                >=? fst (grnd e (mt (globals2 (move_second e m M)))));
        cbn [andb]; [|exact H].
      destruct (Mz_new (move_second e m M) >=? d0) eqn:Hz; [|exact H].
      cbn [path_accept snd].
      unfold Mz_of, moved_M; cbn [v0 v1 v2].
      rewrite <- Hv; exact Hz.
  - rewrite decide_sphere_reject by assumption; exact H.
Qed.

(** X12. The projection of the tracked magnetisation M_other on the
    constraint vector, the Mz_old of the next trial, never fails the test
    [>= 0.0] in a loop of trials entered with one that passes it: in IEEE
    arithmetic too it is never negative and never NaN. *)
Theorem X12_tracked_Mz_stays_non_negative
  (e : env (T:=T) G) (n : nat) (g : globals (T:=T) G) (M : vec3 T) :
  (Mz_of g M >=? d0) = true ->
  (Mz_of (fst (mc_loop e n g M)) (snd (mc_loop e n g M)) >=? d0) = true.
Proof.
  revert g M; induction n as [|k IH]; intros g M H; [exact H|].
  cbn [mc_loop].
  destruct (trial e g M) as [g' M'] eqn:Ht.
  apply IH.
  assert (Hg : g' = fst (trial e g M)) by (rewrite Ht; reflexivity).
  assert (HM : M' = snd (trial e g M)) by (rewrite Ht; reflexivity).
  rewrite Hg, HM; clear Ht Hg HM.
  unfold trial.
  rewrite (Mz_of_setup _ (decide_setup e M (move_first_spec e g))).
  apply decide_Mz; [apply move_first_spec | exact H].
Qed.

End Setup.

Section SetupWitness.

Local Open Scope R_scope.

(** [ex_M_other] is (0,0,2) and the constraint vector (0,0,1). *)
Lemma X12_tracked_Mz_stays_non_negative_witness :
  let e := ex_env no_field in
  let g := ex_globals [9/10] in
  (Mz_of g ex_M_other >=? d0)%D = true
  /\ (Mz_of (fst (mc_loop e 1 g ex_M_other))
        (snd (mc_loop e 1 g ex_M_other)) >=? d0)%D = true.
Proof.
  cbv zeta.
  assert (H : (Mz_of (ex_globals [9/10]) ex_M_other >=? d0)%D = true).
  { unfold Mz_of; cbn [ex_globals polar_vector ex_M_other v0 v1 v2 dge d0
                       dadd dmul R_arith].
    apply Rgeb_true_iff; lra. }
  split; [exact H|].
  exact (@X12_tracked_Mz_stays_non_negative R R_arith R_libm (list R)
           (ex_env no_field) 1 (ex_globals [9/10]) ex_M_other H).
Defined.

End SetupWitness.

(** ** Initialisation happens once *)

Section Angles.

Context {T : Type} {A : Arith T} {L : Libm T} {G : Type}.

Local Open Scope dbl_scope.

Lemma trial_setup (e : env (T:=T) G) (g : globals (T:=T) G) (M : vec3 T) :
  same_setup (fst (trial e g M)) g.
Proof. apply decide_setup, move_first_spec. Qed.

Lemma mc_loop_setup (e : env (T:=T) G) (n : nat) (g : globals (T:=T) G)
  (M : vec3 T) :
  same_setup (fst (mc_loop e n g M)) g.
Proof.
  revert g M; induction n as [|k IH]; intros g M.
  - apply same_setup_refl.
  - cbn [mc_loop].
    pose proof (trial_setup e g M) as Ht.
    destruct (trial e g M) as [g' M'].
    exact (same_setup_trans (IH g' M') Ht).
Qed.

Lemma move_first_angles (e : env (T:=T) G) (phi theta : T)
  (g : globals (T:=T) G) :
  move_first (with_angles e phi theta) g = move_first e g.
Proof. reflexivity. Qed.

Lemma decide_move_angles (e : env (T:=T) G) (phi theta : T)
  (m : first_move (T:=T) G) (M : vec3 T) :
  decide_move (with_angles e phi theta) m M = decide_move e m M.
Proof. reflexivity. Qed.

Lemma mc_loop_angles (e : env (T:=T) G) (phi theta : T) (n : nat)
  (g : globals (T:=T) G) (M : vec3 T) :
  mc_loop (with_angles e phi theta) n g M = mc_loop e n g M.
Proof.
  revert g M; induction n as [|k IH]; intros g M; [reflexivity|].
  cbn [mc_loop]; unfold trial.
  rewrite move_first_angles, decide_move_angles.
  destruct (decide_move e (move_first e g) M) as [g' M']; apply IH.
Qed.

(** X19. The constraint angles are read by [CMCinit] only. Every sweep
    leaves the module initialised, and a sweep of an initialised state
    does not depend on sim::constraint_phi and sim::constraint_theta: it
    keeps the frame it finds, so that angles changed after the first sweep
    have no effect. *)
Theorem X19_angles_are_read_at_initialisation_only
  (e : env (T:=T) G) (g : globals (T:=T) G) (phi theta : T) :
  let g0 := if is_initialised g then g else CMCinit e g in
  let g' := fst (ConstrainedMonteCarlo e g) in
  is_initialised g' = true
  /\ same_setup g' g0
  /\ (is_initialised g = true ->
      ConstrainedMonteCarlo (with_angles e phi theta) g
      = ConstrainedMonteCarlo e g)
  /\ ConstrainedMonteCarlo (with_angles e phi theta) g'
     = ConstrainedMonteCarlo e g'.
Proof.
  intros g0 g'.
  assert (Hinit : forall h : globals (T:=T) G,
             is_initialised h = true ->
             forall e' : env (T:=T) G, sweep_entry e' h = (h, sum_spins h))
    by (intros h Hh e'; unfold sweep_entry; rewrite Hh; reflexivity).
  assert (Hsame : forall h : globals (T:=T) G,
             is_initialised h = true ->
             ConstrainedMonteCarlo (with_angles e phi theta) h
             = ConstrainedMonteCarlo e h).
  { intros h Hh; unfold ConstrainedMonteCarlo, sweep.
    rewrite !(Hinit h Hh), mc_loop_angles; reflexivity. }
  assert (H0 : is_initialised g0 = true).
  { unfold g0; destruct (is_initialised g) eqn:Hi; [exact Hi|].
    apply (CMCinit_setup e g). }
  assert (Hs : same_setup g' g0).
  { unfold g', ConstrainedMonteCarlo, sweep, sweep_entry; fold g0.
    cbn [fst]; apply mc_loop_setup. }
  assert (H' : is_initialised g' = true).
  { destruct Hs as (_ & _ & Hi & _); rewrite Hi; exact H0. }
  split; [exact H'|]. split; [exact Hs|].
  split; [apply Hsame | apply Hsame; exact H'].
Qed.

End Angles.

(** ** The choice of a site *)

Section PickAtom.

Variable G : Type.

Local Open Scope R_scope.

(** The truncation of a real that is not negative is its integer part. *)
Lemma Rtrunc_floor (x : R) (i : nat) :
  0 <= x -> (Z.to_nat (Rtrunc x) = i <-> INR i <= x < INR i + 1).
Proof.
  intros Hx; unfold Rtrunc; destruct (Rle_dec 0 x) as [_|Hn]; [|tauto].
  destruct (base_Int_part x) as [Hle Hgt].
  assert (Hk : (0 <= Int_part x)%Z).
  { assert (-1 < Int_part x)%Z by (apply lt_IZR; lra). lia. }
  rewrite INR_IZR_INZ.
  split.
  - intros <-. rewrite Z2Nat.id by exact Hk. lra.
  - intros [H1 H2].
    assert (Int_part x < Z.of_nat i + 1)%Z
      by (apply lt_IZR; rewrite plus_IZR; lra).
    assert (Z.of_nat i < Int_part x + 1)%Z
      by (apply lt_IZR; rewrite plus_IZR; lra).
    lia.
Qed.

(** X10. [int(mtrandom::grnd()*atoms::num_atoms)] picks site i exactly for
    the numbers u with i <= u N < i+1: every site of a system of N atoms
    has an interval of width 1/N. A number of [0,1) picks a valid index;
    the number 1.0 picks the index N, one past the end of the arrays. *)
Theorem X10_pick_atom_range (g : globals (T:=R) G) (u : R) (i : nat) :
  0 <= u ->
  (pick_atom g u = i <-> INR i <= u * INR (num_atoms g) < INR i + 1)
  /\ (u < 1 -> (0 < num_atoms g)%nat -> (pick_atom g u < num_atoms g)%nat)
  /\ pick_atom g 1 = num_atoms g.
Proof.
  intros Hu.
  unfold pick_atom; cbn [dmul of_int to_int R_arith].
  rewrite <- INR_IZR_INZ.
  assert (HN : 0 <= INR (num_atoms g)) by apply pos_INR.
  split; [apply Rtrunc_floor; nra|].
  split.
  - intros H1 Hn. rewrite INR_IZR_INZ.
    apply Rtrunc_scaled_lt; [lra | exact Hn].
  - apply Rtrunc_floor; lra.
Qed.

End PickAtom.

(** The number 1/2 picks the second of two sites. *)
Lemma X10_pick_atom_range_witness :
  (0 <= 1 / 2)%R /\ pick_atom (ex_globals []) (1 / 2)%R = 1%nat.
Proof.
  assert (H : (0 <= 1 / 2)%R) by lra.
  split; [exact H|].
  apply (proj1 (@X10_pick_atom_range (list R) (ex_globals []) (1 / 2)%R
                  1%nat H)).
  cbn [ex_globals num_atoms INR]; lra.
Defined.

(** ** The frame as a function of the angles *)

Section FrameOfAngles.

Local Open Scope R_scope.

(** X9. For angles phi and theta in degrees, with a = phi pi/180 and
    b = theta pi/180 for the literal pi of the function,
    [polar_rot_matrix] returns the matrix with rows
    (cos a cos b, cos a sin b, -sin a), (-sin b, cos b, 0) and
    (sin a cos b, sin a sin b, cos a), and the constraint vector
    c = (sin a cos b, sin a sin b, cos a). The matrix rotates c to the
    z axis, and its transpose rotates the z axis to c. *)
Theorem X9_polar_frame_of_angles (phi theta : R) :
  let a := phi / 360 * 2 * 3.14159265358979323846264338327 in
  let b := theta / 360 * 2 * 3.14159265358979323846264338327 in
  let pm := fst (fst (polar_rot_matrix phi theta)) in
  let tp := snd (fst (polar_rot_matrix phi theta)) in
  let c := snd (polar_rot_matrix phi theta) in
  pm = V3 (V3 (cos a * cos b) (cos a * sin b) (- sin a))
          (V3 (- sin b) (cos b) 0)
          (V3 (sin a * cos b) (sin a * sin b) (cos a))
  /\ c = V3 (sin a * cos b) (sin a * sin b) (cos a)
  /\ matvec pm c = V3 0 0 1
  /\ matvec tp (V3 0 0 1) = c.
Proof.
  intros a b.
  unfold polar_rot_matrix; cbv zeta; cbn [fst snd].
  cbn [dsin dcos R_libm dmul ddiv dneg R_arith d0 d1 d2 d360 pi_literal].
  fold a; fold b.
  pose proof (sin2_cos2 a) as Ha; pose proof (sin2_cos2 b) as Hb.
  unfold Rsqr in Ha, Hb.
  set (sy := sin a) in *; set (cy := cos a) in *.
  set (sz := sin b) in *; set (cz := cos b) in *.
  unfold matvec, matmul, rowmul, transpose;
    cbn [v0 v1 v2 dadd dmul R_arith].
  split; [f_equal; f_equal; ring|].
  split; [f_equal; ring|].
  split.
  - f_equal.
    + transitivity (cy * sy * (sz * sz + cz * cz - 1)); [ring|].
      rewrite Hb; ring.
    + ring.
    + transitivity (sy * sy * (sz * sz + cz * cz) + cy * cy); [ring|].
      rewrite Hb; lra.
  - f_equal; ring.
Qed.

End FrameOfAngles.

(** ** The state after [sim::CMCinit], in exact arithmetic *)

Section InitReal.

Variable G : Type.

Local Open Scope R_scope.

Lemma Rsum_repeat (v : R) (n : nat) : Rsum (repeat v n) = INR n * v.
Proof.
  induction n as [|k IH].
  - simpl; lra.
  - rewrite S_INR; cbn [repeat Rsum fold_right] in *.
    unfold Rsum in IH; rewrite IH; lra.
Qed.

Lemma constraint_direction_unit (e : env (T:=R) G) :
  unit_vec (constraint_direction e).
Proof.
  unfold unit_vec, constraint_direction;
    cbn [v0 v1 v2 dsin dcos R_libm dmul ddiv R_arith].
  set (a := constraint_phi e * M_PI / d180).
  set (b := constraint_theta e * M_PI / d180).
  pose proof (sin2_cos2 a) as Ha; pose proof (sin2_cos2 b) as Hb.
  unfold Rsqr in Ha, Hb.
  transitivity (sin a * sin a * (sin b * sin b + cos b * cos b)
                + cos a * cos a); [ring|].
  rewrite Hb; lra.
Qed.

Lemma CMCinit_unit_spins (e : env (T:=R) G) (g : globals (T:=R) G) :
  well_formed g -> unit_spins (CMCinit e g).
Proof.
  intros Hwf i Hi.
  pose proof (CMCinit_arrays e Hwf) as Ha.
  destruct (CMCinit_setup e g) as (Hn & _).
  rewrite Hn in Hi.
  pose proof (constraint_direction_unit e) as Hu.
  revert Ha; generalize (CMCinit e g); intros g' Ha.
  unfold spin_arrays in Ha; injection Ha as Hx Hy Hz.
  unfold spin_at; rewrite Hx, Hy, Hz.
  rewrite !nth_repeat_lt by exact Hi; exact Hu.
Qed.

Lemma CMCinit_orthogonal (e : env (T:=R) G) (g : globals (T:=R) G) :
  orthogonal_frame (CMCinit e g).
Proof.
  pose proof (polar_rot_matrix_orthogonal (constraint_phi e)
                (constraint_theta e)) as H; cbv zeta in H.
  unfold orthogonal_frame, CMCinit.
  destruct (polar_rot_matrix (constraint_phi e) (constraint_theta e))
    as [[pm tp] pv].
  cbn [fst snd polar_matrix polar_matrix_tp] in *.
  destruct H as (H1 & H2 & _); split; assumption.
Qed.

(** X8. After [CMCinit] every spin is a unit vector, the frame is
    orthogonal, and the sum of the spins, with which the first sweep is
    entered, is num_atoms times the direction
    (sin phi cos theta, sin phi sin theta, cos phi). *)
Theorem X8_CMCinit_leaves_unit_spins
  (e : env (T:=R) G) (g : globals (T:=R) G) :
  let g' := CMCinit e g in
  let s := constraint_direction e in
  let N := INR (num_atoms g) in
  well_formed g ->
  unit_vec s
  /\ unit_spins g'
  /\ orthogonal_frame g'
  /\ total_spin g' = V3 (N * v0 s) (N * v1 s) (N * v2 s)
  /\ (is_initialised g = false ->
      sweep_entry e g = (g', V3 (N * v0 s) (N * v1 s) (N * v2 s))).
Proof.
  intros g' s N Hwf.
  assert (Ht : total_spin g' = V3 (N * v0 s) (N * v1 s) (N * v2 s)).
  { pose proof (CMCinit_arrays e Hwf) as Ha; fold g' in Ha.
    clearbody g'.
    unfold spin_arrays in Ha; injection Ha as Hx Hy Hz.
    unfold total_spin; rewrite Hx, Hy, Hz, !Rsum_repeat; reflexivity. }
  split; [apply constraint_direction_unit|].
  split; [apply CMCinit_unit_spins; exact Hwf|].
  split; [apply CMCinit_orthogonal|].
  split; [exact Ht|].
  intros Hi; unfold sweep_entry; rewrite Hi; fold g'.
  rewrite sum_spins_total by (apply CMCinit_keeps_lengths; exact Hwf).
  rewrite Ht; reflexivity.
Qed.

End InitReal.

(** The two spins of [ex_raw] are replaced by unit vectors. *)
Lemma X8_CMCinit_leaves_unit_spins_witness :
  well_formed ex_raw /\ unit_spins (CMCinit (ex_env no_field) ex_raw).
Proof.
  assert (Hwf : well_formed ex_raw) by (repeat split).
  split; [exact Hwf|].
  exact (proj1 (proj2 (@X8_CMCinit_leaves_unit_spins (list R)
                         (ex_env no_field) ex_raw Hwf))).
Defined.

(** ** The hemisphere of the second spin *)

Section Hemisphere.

Variable G : Type.
Variable e : env (T:=R) G.
Variable g : globals (T:=R) G.
Variable M : vec3 R.

Local Open Scope R_scope.

(** X13. The second spin keeps its side of the plane normal to the
    constraint direction: its new z component in the constraint frame
    has the size sqrt(1 - x^2 - y^2) and the sign of the old one, a spin
    that lay in the plane going to the positive side. It is never zero. *)
Theorem X13_second_spin_keeps_its_hemisphere :
  let m := move_first e g in
  let q := move_second e m M in
  let x := spin2_fin_mvd_0 m in
  let y := spin2_fin_mvd_1 m in
  let z := v2 (spin2_init_mvd m) in
  let z' := v2 (spin2_fin_mvd q) in
  on_sphere m = true ->
  (z < 0 -> z' = - sqrt (1 - x * x - y * y) /\ z' < 0)
  /\ (0 <= z -> z' = sqrt (1 - x * x - y * y) /\ 0 < z')
  /\ z' * z' = 1 - x * x - y * y.
Proof.
  first_half e g m Hm.
  intros Hon.
  pose proof (inside_positive m Hon) as Hpos.
  pose proof (spin2_final_spec e M Hm) as Hf; cbv zeta in Hf.
  destruct Hf as (_ & _ & _ & Hz).
  rewrite Hz; clear Hz.
  set (w := 1 - spin2_fin_mvd_0 m * spin2_fin_mvd_0 m
            - spin2_fin_mvd_1 m * spin2_fin_mvd_1 m) in *.
  pose proof (sqrt_lt_R0 _ Hpos) as Hs.
  assert (Hq : sqrt w * sqrt w = w) by (apply sqrt_sqrt; lra).
  unfold sign; cbn [dlt dneg dmul d0 d1 R_arith].
  split; [|split].
  - intros Hneg; rewrite Rltb_true by exact Hneg. split; lra.
  - intros Hge; rewrite Rltb_false by exact Hge. split; lra.
  - destruct (Rltb (v2 (spin2_init_mvd m)) 0); nra.
Qed.

End Hemisphere.

(** ** A whole sweep, in exact arithmetic *)

Section TrialReal.

Variable G : Type.
Variable e : env (T:=R) G.
Variable g : globals (T:=R) G.
Variable m : first_move (T:=R) G.
Variable M : vec3 R.
Hypothesis Hm : is_first_move g m.

Local Open Scope R_scope.

Lemma orthogonal_setup (a b : globals (T:=R) G) :
  same_setup a b -> orthogonal_frame b -> orthogonal_frame a.
Proof.
  intros (_ & _ & _ & _ & Htp & Hp & _); unfold orthogonal_frame.
  rewrite Htp, Hp; tauto.
Qed.

Lemma in_plane_setup (a b : globals (T:=R) G) (s : vec3 R) :
  same_setup a b -> in_plane a s = in_plane b s.
Proof.
  intros (_ & _ & _ & _ & _ & Hp & _); unfold in_plane.
  rewrite Hp; reflexivity.
Qed.

(** In the constraint frame the in-plane part of the second new spin is
    what the two old spins had together, less the part of the first new
    spin. *)
Lemma pair_move_in_plane :
  orthogonal_frame g ->
  let q := move_second e m M in
  let P := polar_matrix g in
  v0 (matvec P (spin2_final q))
  = v0 (matvec P (spin1_initial m)) + v0 (matvec P (spin2_initial m))
    - v0 (matvec P (spin1_final m))
  /\ v1 (matvec P (spin2_final q))
     = v1 (matvec P (spin1_initial m)) + v1 (matvec P (spin2_initial m))
       - v1 (matvec P (spin1_final m)).
Proof.
  intros Ho q P.
  pose proof (spin2_final_back e M Hm Ho) as Hback; fold q in Hback.
  pose proof (spin2_final_spec e M Hm) as Hf; cbv zeta in Hf; fold q in Hf.
  destruct Hf as (_ & H0 & H1 & _).
  destruct Hm as (_ & Hi1 & _ & Hf1 & _ & Hi2 & Hx & Hy & _).
  unfold P; split.
  - rewrite Hback, H0, Hx, Hi1, Hi2, Hf1; reflexivity.
  - rewrite Hback, H1, Hy, Hi1, Hi2, Hf1; reflexivity.
Qed.

(** Whatever way the second half takes, the in-plane components of the
    sum of all spins are those before the trial. *)
Lemma decide_in_plane :
  well_formed g -> orthogonal_frame g ->
  (atom_number1 m < num_atoms g)%nat ->
  (atom_number2 m < num_atoms g)%nat ->
  in_plane g (total_spin (fst (decide_move e m M)))
  = in_plane g (total_spin g).
Proof.
  intros Hwf Ho H1 H2.
  destruct (decide_arrays e M Hm) as [Ha|[_ Ha]];
    rewrite (total_spin_arrays Ha); [reflexivity|].
  rewrite (total_spin_moved _ Hm Hwf H1 H2).
  pose proof (pair_move_in_plane Ho) as Hp; cbv zeta in Hp.
  revert Hp; unfold in_plane.
  generalize (spin2_final (move_second e m M)).
  destruct (polar_matrix g) as [[p00 p01 p02] [p10 p11 p12] [p20 p21 p22]].
  destruct (total_spin g) as [t0 t1 t2].
  destruct (spin1_final m) as [a0 a1 a2].
  destruct (spin1_initial m) as [c0 c1 c2].
  destruct (spin2_initial m) as [e0 e1 e2].
  intros [b0 b1 b2]; unfold matvec; cbn [v0 v1 v2 dadd dsub dmul R_arith].
  intros [Hx Hy]; f_equal; lra.
Qed.

(** Unit spins stay unit spins, whatever way the second half takes. *)
Lemma decide_unit_spins :
  let t := spin1_moved m in
  well_formed g -> orthogonal_frame g -> unit_spins g ->
  v0 t * v0 t + v1 t * v1 t + v2 t * v2 t <> 0 ->
  unit_spins (fst (decide_move e m M)).
Proof.
  intros t Hwf Ho Hu Ht.
  destruct (decide_setup e M Hm) as (Hn & _).
  destruct (decide_arrays e M Hm) as [Ha|[Hon Ha]].
  - exact (unit_spins_arrays Hn Ha Hu).
  - eapply unit_spins_arrays; [|exact Ha|]; [exact Hn|].
    apply set_spin_unit.
    + apply set_spin_well_formed; exact Hwf.
    + apply set_spin_unit; auto.
      apply (unit_spin1_final Hm); exact Ht.
    + apply (unit_spin2_final e M Hm); assumption.
Qed.

(** What one trial does to the four statistics: each grows by 0 or 1,
    mc_total by what the three others grow together. *)
Lemma decide_stats_step :
  let g' := fst (decide_move e m M) in
  let ds := mc_success g' - mc_success g in
  let de := energy_reject g' - energy_reject g in
  let dr := sphere_reject g' - sphere_reject g in
  0 <= ds /\ 0 <= de /\ 0 <= dr
  /\ ds + de + dr <= 1
  /\ mc_total g' - mc_total g = ds + de + dr.
Proof.
  destruct (first_move_stats Hm) as (Hs & Ht & Hsr & Her).
  cbv zeta.
  destruct (on_sphere m) eqn:Hsph.
  - destruct (delta_energy21 (move_second e m M) <? d0)%D eqn:Hde.
    + rewrite decide_continue by assumption.
      cbn [path_continue fst move_second globals2 set_spin mc_total
           mc_success energy_reject sphere_reject].
      rewrite Hs, Ht, Hsr, Her; repeat split; lra.
    + rewrite decide_metropolis by assumption.
      match goal with |- context [if ?c then _ else _] => destruct c end;
        cbn [path_accept path_energy_reject fst move_second globals2
             set_spin set_mt set_stats mc_total mc_success energy_reject
             sphere_reject dadd d1 R_arith];
        rewrite Hs, Ht, Hsr, Her; repeat split; lra.
  - rewrite decide_sphere_reject by assumption.
    cbn [path_sphere_reject fst set_spin set_stats mc_total mc_success
         energy_reject sphere_reject dadd d1 R_arith].
    rewrite Hs, Ht, Hsr, Her; repeat split; lra.
Qed.

(** A trial whose two sites coincide is a sphere reject. *)
Lemma decide_same_site :
  atom_number1 m = atom_number2 m ->
  let g' := fst (decide_move e m M) in
  spin_arrays g' = spin_arrays g
  /\ sphere_reject g' = sphere_reject g + 1
  /\ mc_total g' = mc_total g + 1
  /\ mc_success g' = mc_success g
  /\ energy_reject g' = energy_reject g
  /\ snd (decide_move e m M) = M.
Proof.
  intros Heq; cbv zeta.
  destruct (first_move_stats Hm) as (Hs & Ht & Hsr & Her).
  rewrite decide_sphere_reject by (apply same_site_off_sphere; exact Heq).
  cbn [path_sphere_reject fst snd].
  rewrite set_stats_arrays, (restore_first Hm).
  cbn [set_stats set_spin sphere_reject mc_total mc_success energy_reject
       dadd d1 R_arith].
  rewrite Hs, Ht, Hsr, Her; repeat split.
Qed.

End TrialReal.

Section SweepReal.

Variable G : Type.
Variable e : env (T:=R) G.

Local Open Scope R_scope.

Lemma mc_loop_in_plane (n : nat) (g : globals (T:=R) G) (M : vec3 R) :
  well_formed g -> orthogonal_frame g -> grnd_in_unit_interval e ->
  (0 < num_atoms g)%nat ->
  in_plane g (total_spin (fst (mc_loop e n g M)))
  = in_plane g (total_spin g).
Proof.
  intros Hwf Ho Hg; revert g M Hwf Ho.
  induction n as [|k IH]; intros g M Hwf Ho Hn; [reflexivity|].
  cbn [mc_loop].
  pose proof (trial_setup e g M) as Hs.
  assert (Hw1 : well_formed (fst (trial e g M)))
    by (apply decide_keeps_lengths with (g := g);
        [apply move_first_spec | exact Hwf]).
  assert (Hp : in_plane g (total_spin (fst (trial e g M)))
               = in_plane g (total_spin g)).
  { destruct (atoms_in_range g Hg Hn) as [H1 H2].
    unfold trial; apply decide_in_plane; auto using move_first_spec. }
  destruct (trial e g M) as [g' M']; cbn [fst] in *.
  rewrite <- Hp, <- !(in_plane_setup _ Hs).
  apply IH; [exact Hw1 | exact (orthogonal_setup Hs Ho) |].
  destruct Hs as (Hn' & _); rewrite Hn'; exact Hn.
Qed.

(** X14. A sweep conserves the two components of the total
    magnetisation (the sum of all spins of the field) that lie in the plane
    normal to the constraint direction, whatever ways its trials take,
    the unconditional acceptance included: with an orthogonal frame and a
    generator that keeps to [0,1), ConstrainedMonteCarlo leaves them as
    they are when the loop of trials is entered. *)
Theorem X14_sweep_conserves_in_plane_magnetisation (g : globals (T:=R) G) :
  let g0 := if is_initialised g then g else CMCinit e g in
  let g' := fst (ConstrainedMonteCarlo e g) in
  well_formed g ->
  (is_initialised g = true -> orthogonal_frame g) ->
  grnd_in_unit_interval e ->
  in_plane g0 (total_spin g') = in_plane g0 (total_spin g0).
Proof.
  intros g0 g' Hwf Ho Hg.
  assert (Hwf0 : well_formed g0).
  { unfold g0; destruct (is_initialised g);
      [exact Hwf | apply CMCinit_keeps_lengths; exact Hwf]. }
  assert (Ho0 : orthogonal_frame g0).
  { unfold g0; destruct (is_initialised g);
      [apply Ho; reflexivity | apply CMCinit_orthogonal]. }
  unfold g', ConstrainedMonteCarlo, sweep, sweep_entry; fold g0.
  cbn [fst].
  destruct (num_atoms g0) as [|k] eqn:HN; [reflexivity|].
  rewrite <- HN.
  apply mc_loop_in_plane; auto. lia.
Qed.

Lemma mc_loop_unit_spins (n : nat) (g : globals (T:=R) G) (M : vec3 R) :
  never_cancels e ->
  well_formed g -> orthogonal_frame g -> unit_spins g ->
  let g' := fst (mc_loop e n g M) in
  well_formed g' /\ orthogonal_frame g' /\ unit_spins g'.
Proof.
  intros Hnc; revert g M.
  induction n as [|k IH]; intros g M Hwf Ho Hu; [cbn; tauto|].
  cbn [mc_loop].
  pose proof (trial_setup e g M) as Hs.
  assert (Hw1 : well_formed (fst (trial e g M)))
    by (apply decide_keeps_lengths with (g := g);
        [apply move_first_spec | exact Hwf]).
  assert (Hu1 : unit_spins (fst (trial e g M))).
  { pose proof (Hnc g Hwf Hu) as Ht; cbv zeta in Ht.
    unfold trial; apply decide_unit_spins with (g := g);
      auto using move_first_spec. }
  destruct (trial e g M) as [g' M']; cbn [fst] in *.
  apply IH; [exact Hw1 | exact (orthogonal_setup Hs Ho) | exact Hu1].
Qed.

(** X15. A sweep keeps every spin a unit vector: if the spin arrays
    have num_atoms entries, the state is either not yet initialised or has
    an orthogonal frame and unit spins, and no Gaussian step of the
    generator cancels the spin it is added to, then after
    ConstrainedMonteCarlo every spin is a unit vector, the arrays have
    their length and the frame is orthogonal, so that the next sweep
    starts from the same conditions. *)
Theorem X15_sweep_keeps_unit_spins (g : globals (T:=R) G) :
  let g' := fst (ConstrainedMonteCarlo e g) in
  well_formed g ->
  (is_initialised g = true -> orthogonal_frame g /\ unit_spins g) ->
  never_cancels e ->
  unit_spins g' /\ well_formed g' /\ orthogonal_frame g'
  /\ is_initialised g' = true.
Proof.
  intros g' Hwf Hinit Hnc.
  set (g0 := if is_initialised g then g else CMCinit e g).
  assert (H0 : well_formed g0 /\ orthogonal_frame g0 /\ unit_spins g0
               /\ is_initialised g0 = true).
  { unfold g0; destruct (is_initialised g) eqn:Hi.
    - destruct (Hinit eq_refl); auto.
    - split; [apply CMCinit_keeps_lengths; exact Hwf|].
      split; [apply CMCinit_orthogonal|].
      split; [apply CMCinit_unit_spins; exact Hwf|].
      apply (CMCinit_setup e g). }
  destruct H0 as (Hw0 & Ho0 & Hu0 & Hi0).
  pose proof (mc_loop_unit_spins (num_atoms g0) (sum_spins g0)
                Hnc Hw0 Ho0 Hu0) as H; cbv zeta in H.
  pose proof (mc_loop_setup e (num_atoms g0) g0 (sum_spins g0)) as Hs.
  assert (Hg' : g' = fst (mc_loop e (num_atoms g0) g0 (sum_spins g0)))
    by reflexivity.
  rewrite Hg'.
  destruct H as (Hw & Ho & Hu).
  split; [exact Hu|]. split; [exact Hw|]. split; [exact Ho|].
  destruct Hs as (_ & _ & Hi & _); rewrite Hi; exact Hi0.
Qed.

(** X16. In a loop of n trials none of the four statistics decreases,
    mc_total grows by exactly what mc_success, energy_reject and
    sphere_reject grow together, and by at most n. *)
Theorem X16_statistics_of_a_loop
  (n : nat) (g : globals (T:=R) G) (M : vec3 R) :
  let g' := fst (mc_loop e n g M) in
  let ds := mc_success g' - mc_success g in
  let de := energy_reject g' - energy_reject g in
  let dr := sphere_reject g' - sphere_reject g in
  0 <= ds /\ 0 <= de /\ 0 <= dr
  /\ mc_total g' - mc_total g = ds + de + dr
  /\ mc_total g' - mc_total g <= INR n.
Proof.
  revert g M; induction n as [|k IH]; intros g M.
  - cbn [mc_loop fst INR]; repeat split; lra.
  - rewrite S_INR; cbn [mc_loop].
    pose proof (decide_stats_step e M (move_first_spec e g)) as Ht.
    fold (trial e g M) in Ht; cbv zeta in Ht.
    destruct (trial e g M) as [g1 M1]; cbn [fst] in Ht.
    specialize (IH g1 M1); cbv zeta in IH.
    destruct Ht as (A1 & A2 & A3 & A4 & A5).
    destruct IH as (B1 & B2 & B3 & B4 & B5).
    cbv zeta; repeat split; lra.
Qed.

Lemma mc_loop_single (n : nat) (g : globals (T:=R) G) (M : vec3 R) :
  grnd_in_unit_interval e ->
  num_atoms g = 1%nat ->
  let g' := fst (mc_loop e n g M) in
  spin_arrays g' = spin_arrays g
  /\ sphere_reject g' = sphere_reject g + INR n
  /\ mc_total g' = mc_total g + INR n
  /\ mc_success g' = mc_success g
  /\ energy_reject g' = energy_reject g
  /\ snd (mc_loop e n g M) = M.
Proof.
  intros Hg; revert g M; induction n as [|k IH]; intros g M HN.
  - cbn [mc_loop fst snd INR]; repeat split; lra.
  - rewrite S_INR; cbn [mc_loop].
    pose proof (trial_setup e g M) as Hs.
    assert (Heq : atom_number1 (move_first e g)
                  = atom_number2 (move_first e g)).
    { assert (Hpos : (0 < num_atoms g)%nat) by lia.
      destruct (atoms_in_range g Hg Hpos) as [H1 H2]. lia. }
    pose proof (decide_same_site e M (move_first_spec e g) Heq) as Ht.
    fold (trial e g M) in Ht; cbv zeta in Ht.
    destruct (trial e g M) as [g1 M1]; cbn [fst snd] in Ht, Hs.
    destruct Ht as (Ha & A1 & A2 & A3 & A4 & A5).
    assert (HN1 : num_atoms g1 = 1%nat)
      by (destruct Hs as (Hn & _); rewrite Hn; exact HN).
    specialize (IH g1 M1 HN1); cbv zeta in IH.
    destruct IH as (Hb & B1 & B2 & B3 & B4 & B5).
    cbv zeta.
    split; [rewrite Hb; exact Ha|].
    rewrite B1, B2, B3, B4, B5, A1, A2, A3, A4, A5.
    repeat split; lra.
Qed.

(** X17. A system of one atom never moves: both sites of every trial
    are that atom, so every trial is a sphere reject. A sweep of an
    initialised one-atom state leaves the spin as it was, counts one
    sphere reject and one trial, and accepts and energy-rejects
    nothing. *)
Theorem X17_one_atom_never_moves (g : globals (T:=R) G) :
  let g' := fst (ConstrainedMonteCarlo e g) in
  grnd_in_unit_interval e ->
  num_atoms g = 1%nat ->
  is_initialised g = true ->
  spin_arrays g' = spin_arrays g
  /\ sphere_reject g' = sphere_reject g + 1
  /\ mc_total g' = mc_total g + 1
  /\ mc_success g' = mc_success g
  /\ energy_reject g' = energy_reject g.
Proof.
  intros g' Hg HN Hi.
  assert (Hg' : g' = fst (mc_loop e 1 g (sum_spins g))).
  { unfold g', ConstrainedMonteCarlo, sweep, sweep_entry.
    rewrite Hi, HN; reflexivity. }
  pose proof (@mc_loop_single 1%nat g (sum_spins g) Hg HN) as H;
    cbv zeta in H.
  rewrite <- Hg' in H; cbn [INR] in H.
  destruct H as (H1 & H2 & H3 & H4 & H5 & _).
  repeat split; assumption.
Qed.

End SweepReal.

(** ** The hypotheses of the sweep hold on the examples *)

Section FirstMoved.

Context {T : Type} {A : Arith T} {G : Type}.

Local Open Scope dbl_scope.

(** The first spin before its normalisation: the spin of the site picked
    by the generator's first number, plus its next three Gaussian
    numbers. *)
Lemma move_first_moved (e : env (T:=T) G) (g : globals (T:=T) G) :
  let r1 := grnd e (mt g) in
  let n0 := gaussian e (snd r1) in
  let n1 := gaussian e (snd n0) in
  let n2 := gaussian e (snd n1) in
  let s := spin_at g (pick_atom g (fst r1)) in
  spin1_moved (move_first e g)
  = V3 (fst n0 + v0 s) (fst n1 + v1 s) (fst n2 + v2 s).
Proof. cbv zeta; vm_compute; reflexivity. Qed.

End FirstMoved.

Section SweepWitnesses.

Local Open Scope R_scope.

Lemma ex_still_unit_interval : grnd_in_unit_interval ex_still_env.
Proof. intros r; cbn [ex_still_env grnd fst]; lra. Qed.

Lemma ex_drift_unit_interval : grnd_in_unit_interval ex_drift_env.
Proof. intros r; cbn [ex_drift_env grnd fst]; lra. Qed.

(** A step of (2,2,2) cannot cancel a unit vector, nor the zero read
    beyond the arrays. *)
Lemma ex_drift_never_cancels : never_cancels ex_drift_env.
Proof.
  intros g (Lx & Ly & Lz) Hu; cbv zeta.
  pose proof (move_first_moved ex_drift_env g) as Hmv; cbv zeta in Hmv.
  rewrite Hmv; clear Hmv.
  cbn [ex_drift_env grnd gaussian fst snd v0 v1 v2 dadd R_arith].
  set (a := pick_atom g 0).
  destruct (Nat.lt_ge_cases a (num_atoms g)) as [Hin|Hout].
  - specialize (Hu a Hin); unfold unit_vec in Hu.
    destruct (spin_at g a) as [x y z]; cbn [v0 v1 v2] in *.
    intros H0.
    pose proof (Rle_0_sqr (2 + x)) as Px.
    pose proof (Rle_0_sqr (2 + y)) as Py.
    pose proof (Rle_0_sqr (2 + z)) as Pz.
    unfold Rsqr in Px, Py, Pz.
    assert (Hx : (2 + x) * (2 + x) = 0) by lra.
    apply Rmult_integral in Hx.
    assert (Hx2 : x = -2) by (destruct Hx; lra).
    subst x; nra.
  - unfold spin_at; rewrite !nth_overflow by lia.
    cbn [v0 v1 v2 d0 R_arith]; lra.
Qed.

(** The trial of [ex_globals] passes the sphere test; its second spin
    lies on the positive side before and after. *)
Lemma X13_second_spin_keeps_its_hemisphere_witness :
  let e := ex_env field_down in
  let g := ex_globals [] in
  let m := move_first e g in
  let q := move_second e m ex_M_other in
  on_sphere m = true
  /\ v2 (spin2_fin_mvd q) * v2 (spin2_fin_mvd q)
     = 1 - spin2_fin_mvd_0 m * spin2_fin_mvd_0 m
       - spin2_fin_mvd_1 m * spin2_fin_mvd_1 m.
Proof.
  cbv zeta.
  assert (Hs : on_sphere (move_first (ex_env field_down) (ex_globals []))
               = true)
    by (rewrite ex_first; apply ex_on_sphere).
  split; [exact Hs|].
  exact (proj2 (proj2 (@X13_second_spin_keeps_its_hemisphere (list R)
                         (ex_env field_down) (ex_globals []) ex_M_other
                         Hs))).
Defined.

(** [ex_globals] is initialised, with the identity as its frame. *)
Lemma X14_sweep_conserves_in_plane_magnetisation_witness :
  let e := ex_drift_env in
  let g := ex_globals [] in
  well_formed g
  /\ orthogonal_frame g
  /\ grnd_in_unit_interval e
  /\ in_plane g (total_spin (fst (ConstrainedMonteCarlo e g)))
     = in_plane g (total_spin g).
Proof.
  cbv zeta.
  split; [apply ex_well_formed|].
  split; [apply ex_orthogonal|].
  split; [exact ex_drift_unit_interval|].
  exact (@X14_sweep_conserves_in_plane_magnetisation (list R) ex_drift_env
           (ex_globals []) (ex_well_formed [])
           (fun _ => ex_orthogonal []) ex_drift_unit_interval).
Defined.

Lemma X15_sweep_keeps_unit_spins_witness :
  let e := ex_drift_env in
  let g := ex_globals [] in
  well_formed g
  /\ orthogonal_frame g
  /\ unit_spins g
  /\ never_cancels e
  /\ unit_spins (fst (ConstrainedMonteCarlo e g)).
Proof.
  cbv zeta.
  split; [apply ex_well_formed|].
  split; [apply ex_orthogonal|].
  split; [apply ex_unit_spins|].
  split; [exact ex_drift_never_cancels|].
  exact (proj1 (@X15_sweep_keeps_unit_spins (list R) ex_drift_env
                  (ex_globals []) (ex_well_formed [])
                  (fun _ => conj (ex_orthogonal []) (@ex_unit_spins []))
                  ex_drift_never_cancels)).
Defined.

(** The single spin of [ex_single] stays along +z. *)
Lemma X17_one_atom_never_moves_witness :
  let e := ex_still_env in
  grnd_in_unit_interval e
  /\ num_atoms ex_single = 1%nat
  /\ is_initialised ex_single = true
  /\ spin_arrays (fst (ConstrainedMonteCarlo e ex_single))
     = spin_arrays ex_single.
Proof.
  cbv zeta.
  split; [exact ex_still_unit_interval|].
  split; [reflexivity|]. split; [reflexivity|].
  exact (proj1 (@X17_one_atom_never_moves (list R) ex_still_env ex_single
                  ex_still_unit_interval eq_refl eq_refl)).
Defined.

End SweepWitnesses.

(** ** The direction in which a pair move changes the magnetisation *)

Section AlongTheConstraint.

Variable G : Type.
Variable e : env (T:=R) G.
Variable g : globals (T:=R) G.
Variable M : vec3 R.

Local Open Scope R_scope.

(** X21. A pair move changes the total magnetisation along the
    constraint direction only, and Mz_new - Mz_old is that change: for an
    orthogonal frame R whose third row is the constraint vector (the
    frame of [CMCinit]), R.dM = (0, 0, Mz_new - Mz_old) for
    dM = spin1_final + spin2_final - spin1_initial - spin2_initial,
    whatever M_other is. *)
Theorem X21_pair_move_changes_Mz_only :
  let m := move_first e g in
  let q := move_second e m M in
  let dM :=
    V3 (v0 (spin1_final m) + v0 (spin2_final q)
        - v0 (spin1_initial m) - v0 (spin2_initial m))
       (v1 (spin1_final m) + v1 (spin2_final q)
        - v1 (spin1_initial m) - v1 (spin2_initial m))
       (v2 (spin1_final m) + v2 (spin2_final q)
        - v2 (spin1_initial m) - v2 (spin2_initial m)) in
  orthogonal_frame g ->
  polar_vector g = v2 (polar_matrix g) ->
  on_sphere m = true ->
  matvec (polar_matrix g) dM = V3 0 0 (Mz_new q - Mz_old q).
Proof.
  first_half e g m Hm.
  intros Ho Hc _.
  pose proof (pair_move_in_plane e M Hm Ho) as Hp; cbv zeta in Hp.
  destruct (first_move_frame Hm) as (_ & _ & _ & Hv).
  set (q := move_second e m M) in *.
  set (c := polar_vector g).
  assert (Hold : Mz_old q = v0 M * v0 c + v1 M * v1 c + v2 M * v2 c)
    by (unfold c; rewrite <- Hv; reflexivity).
  assert (Hnew : Mz_new q
                 = (v0 M + v0 (spin1_final m) + v0 (spin2_final q)
                    - v0 (spin1_initial m) - v0 (spin2_initial m)) * v0 c
                   + (v1 M + v1 (spin1_final m) + v1 (spin2_final q)
                      - v1 (spin1_initial m) - v1 (spin2_initial m)) * v1 c
                   + (v2 M + v2 (spin1_final m) + v2 (spin2_final q)
                      - v2 (spin1_initial m) - v2 (spin2_initial m)) * v2 c)
    by (unfold c; rewrite <- Hv; reflexivity).
  rewrite Hold, Hnew; unfold c; rewrite Hc; clear Hold Hnew c.
  revert Hp; generalize (spin2_final q).
  destruct (polar_matrix g) as [[p00 p01 p02] [p10 p11 p12] [p20 p21 p22]].
  destruct (spin1_final m) as [a0 a1 a2].
  destruct (spin1_initial m) as [c0 c1 c2].
  destruct (spin2_initial m) as [e0 e1 e2].
  destruct M as [M0 M1 M2].
  intros [b0 b1 b2]; unfold matvec;
    cbn [v0 v1 v2 dadd dsub dmul R_arith].
  intros [Hx Hy]; f_equal; lra.
Qed.

End AlongTheConstraint.

Section AlongTheConstraintWitness.

Local Open Scope R_scope.

(** In [ex_globals] the frame is the identity and the constraint vector
    its third row (0,0,1). *)
Lemma X21_pair_move_changes_Mz_only_witness :
  let e := ex_env field_down in
  let g := ex_globals [] in
  let m := move_first e g in
  let q := move_second e m ex_M_other in
  orthogonal_frame g
  /\ polar_vector g = v2 (polar_matrix g)
  /\ on_sphere m = true
  /\ matvec (polar_matrix g)
       (V3 (v0 (spin1_final m) + v0 (spin2_final q)
            - v0 (spin1_initial m) - v0 (spin2_initial m))
           (v1 (spin1_final m) + v1 (spin2_final q)
            - v1 (spin1_initial m) - v1 (spin2_initial m))
           (v2 (spin1_final m) + v2 (spin2_final q)
            - v2 (spin1_initial m) - v2 (spin2_initial m)))
     = V3 0 0 (Mz_new q - Mz_old q).
Proof.
  cbv zeta.
  assert (Ho : orthogonal_frame (ex_globals [])) by apply ex_orthogonal.
  assert (Hc : polar_vector (ex_globals [])
               = v2 (polar_matrix (ex_globals []))) by reflexivity.
  assert (Hs : on_sphere (move_first (ex_env field_down) (ex_globals []))
               = true)
    by (rewrite ex_first; apply ex_on_sphere).
  split; [exact Ho|]. split; [exact Hc|]. split; [exact Hs|].
  exact (@X21_pair_move_changes_Mz_only (list R) (ex_env field_down)
           (ex_globals []) ex_M_other Ho Hc Hs).
Defined.

End AlongTheConstraintWitness.

(** ** A system without atoms *)

Section NoAtom.

Context {T : Type} {A : Arith T} {L : Libm T} {G : Type}.

Local Open Scope dbl_scope.

(** X22. With num_atoms = 0 a sweep makes no trial: it draws no number
    from the generator, reads and writes no spin (those of [CMCinit]
    included, when it runs) and counts nothing; M_other is entered and
    left as (0,0,0), and the state returned is the one found, initialised
    if it was not. *)
Theorem X22_sweep_of_no_atom
  (e : env (T:=T) G) (g : globals (T:=T) G) :
  let g0 := if is_initialised g then g else CMCinit e g in
  num_atoms g = 0%nat ->
  sweep e g = (g0, V3 d0 d0 d0)
  /\ ConstrainedMonteCarlo e g = (g0, EXIT_SUCCESS)
  /\ spin_arrays g0 = spin_arrays g
  /\ stats g0 = stats g
  /\ mt g0 = mt g.
Proof.
  intros g0 HN.
  assert (HN0 : num_atoms g0 = 0%nat).
  { unfold g0; destruct (is_initialised g); [exact HN|].
    destruct (CMCinit_setup e g) as (Hn & _); rewrite Hn; exact HN. }
  assert (Hs : sweep e g = (g0, V3 d0 d0 d0)).
  { unfold sweep, sweep_entry; fold g0.
    unfold sum_spins; rewrite HN0; reflexivity. }
  split; [exact Hs|].
  split; [unfold ConstrainedMonteCarlo; rewrite Hs; reflexivity|].
  unfold g0; destruct (is_initialised g); [repeat split|].
  destruct (CMCinit_setup e g) as (_ & _ & Hst & Hmt & _).
  split; [|split; assumption].
  unfold CMCinit, spin_arrays.
  destruct (polar_rot_matrix (constraint_phi e) (constraint_theta e))
    as [[pm pm_tp] pv].
  cbn [x_spin_array y_spin_array z_spin_array]; rewrite HN; reflexivity.
Qed.

End NoAtom.

(** [ex_empty] has no atom and is initialised by the sweep. *)
Lemma X22_sweep_of_no_atom_witness :
  num_atoms ex_empty = 0%nat
  /\ ConstrainedMonteCarlo (ex_env no_field) ex_empty
     = (CMCinit (ex_env no_field) ex_empty, EXIT_SUCCESS).
Proof.
  split; [reflexivity|].
  exact (proj1 (proj2 (@X22_sweep_of_no_atom R R_arith R_libm (list R)
                         (ex_env no_field) ex_empty eq_refl))).
Defined.

(** ** Signs, zeros and NaN in IEEE arithmetic *)

Section FloatCases.

Local Open Scope float_scope.

Lemma Prim2SF_injective (x y : float) : Prim2SF x = Prim2SF y -> x = y.
Proof.
  intros H; rewrite <- (FloatAxioms.SF2Prim_Prim2SF x),
              <- (FloatAxioms.SF2Prim_Prim2SF y), H; reflexivity.
Qed.

(** x < 0 fails: x is NaN, a zero or positive. *)
Lemma not_negative_cases (x : float) :
  (x <? 0) = false ->
  Prim2SF x = S754_nan
  \/ (exists s, Prim2SF x = S754_zero s)
  \/ Prim2SF x = S754_infinity false
  \/ (exists m e, Prim2SF x = S754_finite false m e).
Proof.
  rewrite FloatAxioms.ltb_spec.
  change (Prim2SF 0) with (S754_zero false).
  destruct (Prim2SF x) as [s|s| |s m e]; try destruct s; cbn;
    try discriminate; eauto 6.
Qed.

(** The exponent -x * (+infinity) for such an x: NaN or -infinity. *)
Lemma exponent_at_infinity (x : float) :
  (x <? 0) = false ->
  Prim2SF (- x * infinity) = S754_nan \/ - x * infinity = neg_infinity.
Proof.
  intros H.
  assert (Hm : Prim2SF (- x * infinity)
               = SF64mul (SFopp (Prim2SF x)) (S754_infinity false))
    by (rewrite FloatAxioms.mul_spec, FloatAxioms.opp_spec; reflexivity).
  destruct (not_negative_cases H) as [Hx|[[s Hx]|[Hx|[m [e Hx]]]]];
    rewrite Hx in Hm.
  - left; exact Hm.
  - left; rewrite Hm; destruct s; reflexivity.
  - right; apply Prim2SF_injective; rewrite Hm; reflexivity.
  - right; apply Prim2SF_injective; rewrite Hm; reflexivity.
Qed.

(** A product with a zero is a zero or NaN. *)
Lemma mul_zero_l (a b : float) :
  (exists s, Prim2SF a = S754_zero s) \/ Prim2SF a = S754_nan ->
  (exists s, Prim2SF (a * b) = S754_zero s) \/ Prim2SF (a * b) = S754_nan.
Proof.
  rewrite FloatAxioms.mul_spec.
  intros [[s ->]| ->]; [|right; reflexivity].
  destruct (Prim2SF b) as [t|t| |t m e]; cbn; eauto.
Qed.

(** A positive number is not below a zero or NaN. *)
Lemma leb_zero_or_nan (u p : float) :
  (0 <? u) = true ->
  (exists s, Prim2SF p = S754_zero s) \/ Prim2SF p = S754_nan ->
  (u <=? p) = false.
Proof.
  rewrite FloatAxioms.ltb_spec, FloatAxioms.leb_spec.
  change (Prim2SF 0) with (S754_zero false).
  intros Hu [[s ->]| ->];
    destruct (Prim2SF u) as [t|t| |t m e]; try destruct t; cbn in *;
    try discriminate; reflexivity.
Qed.

End FloatCases.

(** ** Energies that are not numbers, and the temperature zero *)

Section ColdAndNaN.

Context {L : Libm float}.
Variable G : Type.
Variable e : env (T:=float) G.
Variable g : globals (T:=float) G.
Variable M : vec3 float.

Local Open Scope float_scope.

(** What an energy reject leaves, once the Metropolis test is known to
    fail. *)
Lemma failed_test_rejects (m : first_move G) :
  let q := move_second e m M in
  let u := fst (grnd e (mt (globals2 q))) in
  let g' := fst (decide_move e m M) in
  is_first_move g m ->
  on_sphere m = true ->
  (delta_energy21 q <? 0) = false ->
  ((probability e m q >=? u) && (Mz_new q >=? d0))%D = false ->
  spin_arrays g' = spin_arrays g
  /\ energy_reject g' = energy_reject g + 1
  /\ mc_total g' = mc_total g + 1
  /\ mc_success g' = mc_success g
  /\ sphere_reject g' = sphere_reject g
  /\ snd (decide_move e m M) = M.
Proof.
  intros q u g' Hm Hsph Hde Htest.
  destruct (first_move_stats Hm) as (Hsu & Hto & Hsr & Her).
  unfold g'; rewrite decide_metropolis by assumption.
  fold q; fold u; rewrite Htest.
  cbn [path_energy_reject fst snd].
  rewrite set_stats_arrays.
  split.
  { apply (restore_both Hm (on_sphere_distinct _ Hsph)
             (s := spin2_final q)).
    rewrite set_mt_arrays; unfold q; apply second_move_arrays. }
  unfold q;
    cbn [set_stats set_spin set_mt move_second globals2 energy_reject
         mc_total mc_success sphere_reject dadd d1 float_arith].
  rewrite Hsu, Hto, Her, Hsr; repeat split.
Qed.

(** The test fails when exp returns a zero or NaN and the number drawn is
    positive. *)
Lemma vanishing_weight_fails (m : first_move G) (u : float) :
  let q := move_second e m M in
  (exists s, Prim2SF (dexp (- delta_energy21 q * kBTBohr e)%D) = S754_zero s)
  \/ Prim2SF (dexp (- delta_energy21 q * kBTBohr e)%D) = S754_nan ->
  (0 <? u) = true ->
  ((probability e m q >=? u) && (Mz_new q >=? d0))%D = false.
Proof.
  intros q Hexp Hu.
  cbn [dge float_arith].
  rewrite leb_zero_or_nan; [reflexivity | exact Hu |].
  unfold probability; cbn [dmul float_arith].
  apply mul_zero_l, mul_zero_l; exact Hexp.
Qed.

(** X18. An energy difference that is NaN (an energy function that
    returned NaN, or infinities that cancelled) never moves a spin: NaN
    is not below zero, so the Metropolis test is evaluated, its
    probability is NaN for every exp that maps NaN to NaN, and the trial
    is an energy reject that restores both sites. *)
Theorem X18_nan_energy_is_rejected :
  let m := move_first e g in
  let q := move_second e m M in
  let g' := fst (trial e g M) in
  (forall x, Prim2SF x = S754_nan -> Prim2SF (dexp x) = S754_nan) ->
  on_sphere m = true ->
  Prim2SF (delta_energy21 q) = S754_nan ->
  spin_arrays g' = spin_arrays g
  /\ energy_reject g' = energy_reject g + 1
  /\ mc_total g' = mc_total g + 1
  /\ mc_success g' = mc_success g
  /\ sphere_reject g' = sphere_reject g
  /\ snd (trial e g M) = M.
Proof.
  first_half e g m Hm.
  set (q := move_second e m M).
  intros Hexp Hsph Hnan.
  assert (Hde : (delta_energy21 q <? 0) = false)
    by (rewrite FloatAxioms.ltb_spec, Hnan; reflexivity).
  apply (failed_test_rejects Hm Hsph Hde); fold q.
  cbn [dge float_arith].
  rewrite leb_nan_r; [reflexivity|].
  unfold probability; cbn [dmul dneg float_arith].
  apply mul_nan_l, mul_nan_l, Hexp, mul_nan_l.
  rewrite FloatAxioms.opp_spec, Hnan; reflexivity.
Qed.

(** X20. At the temperature 0 the factor mu_B/(k_B T) is +infinity and
    the sweep is a strict descent: a pair move that does not lower the
    energy (delta_energy21 < 0 fails: it is a zero, positive or NaN) is an
    energy reject whenever the number drawn is positive, for every exp
    with the values C fixes at NaN and at -infinity; a move with
    delta_energy21 = 0, which has the weight exp(0) at any other
    temperature, has the weight NaN. *)
Theorem X20_zero_temperature_is_a_strict_descent :
  let m := move_first e g in
  let q := move_second e m M in
  let u := fst (grnd e (mt (globals2 q))) in
  let g' := fst (trial e g M) in
  (forall x, Prim2SF x = S754_nan -> Prim2SF (dexp x) = S754_nan) ->
  dexp neg_infinity = 0 ->
  temperature e = 0 ->
  on_sphere m = true ->
  (delta_energy21 q <? 0) = false ->
  (0 <? u) = true ->
  kBTBohr e = infinity
  /\ ((delta_energy21 q =? 0) = true ->
      Prim2SF (probability e m q) = S754_nan)
  /\ spin_arrays g' = spin_arrays g
  /\ energy_reject g' = energy_reject g + 1
  /\ mc_total g' = mc_total g + 1
  /\ mc_success g' = mc_success g
  /\ snd (trial e g M) = M.
Proof.
  first_half e g m Hm.
  set (q := move_second e m M).
  set (u := fst (grnd e (mt (globals2 q)))).
  intros Hnan Hinf HT Hsph Hde Hu.
  assert (Hk : kBTBohr e = infinity).
  { unfold kBTBohr; rewrite HT; vm_compute; reflexivity. }
  split; [exact Hk|].
  split.
  { intros Hz. destruct (@zero_of_eqb _ Hz) as [s Hs].
    unfold probability; cbn [dmul dneg float_arith].
    apply mul_nan_l, mul_nan_l, Hnan.
    rewrite Hk, FloatAxioms.mul_spec, FloatAxioms.opp_spec, Hs.
    destruct s; reflexivity. }
  assert (Hw : (exists s, Prim2SF (dexp (- delta_energy21 q * kBTBohr e)%D)
                          = S754_zero s)
               \/ Prim2SF (dexp (- delta_energy21 q * kBTBohr e)%D)
                  = S754_nan).
  { rewrite Hk; cbn [dmul dneg float_arith].
    destruct (@exponent_at_infinity _ Hde) as [Hx|Hx].
    - right; apply Hnan; exact Hx.
    - left; exists false; rewrite Hx, Hinf; reflexivity. }
  pose proof (failed_test_rejects Hm Hsph Hde
                (@vanishing_weight_fails m u Hw Hu)) as H.
  cbv zeta in H; tauto.
Qed.

End ColdAndNaN.

Section ColdAndNaNWitnesses.

Local Open Scope float_scope.

Lemma ex_libm_nan (x : float) :
  Prim2SF x = S754_nan -> Prim2SF (dexp (Libm := ex_libm) x) = S754_nan.
Proof.
  intros Hx; cbn [dexp ex_libm].
  rewrite FloatAxioms.eqb_spec, Hx; cbn.
  rewrite FloatAxioms.add_spec, Hx; reflexivity.
Qed.

(** With an energy function that returns NaN the trial of [fex_opposed]
    passes the sphere test and is rejected. *)
Lemma X18_nan_energy_is_rejected_witness :
  let g := fex_opposed in
  let M := sum_spins g in
  let m := move_first fex_nan_env g in
  let q := move_second fex_nan_env m M in
  (forall x, Prim2SF x = S754_nan ->
             Prim2SF (dexp (Libm := ex_libm) x) = S754_nan)
  /\ on_sphere m = true
  /\ Prim2SF (delta_energy21 q) = S754_nan
  /\ spin_arrays (fst (trial (L := ex_libm) fex_nan_env g M))
     = spin_arrays g.
Proof.
  cbv zeta.
  assert (H1 : on_sphere (move_first fex_nan_env fex_opposed) = true)
    by (vm_compute; reflexivity).
  assert (H2 : Prim2SF (delta_energy21
                          (move_second fex_nan_env
                             (move_first fex_nan_env fex_opposed)
                             (sum_spins fex_opposed))) = S754_nan)
    by (vm_compute; reflexivity).
  split; [exact ex_libm_nan|]. split; [exact H1|]. split; [exact H2|].
  exact (proj1 (@X18_nan_energy_is_rejected ex_libm (list float)
                  fex_nan_env fex_opposed (sum_spins fex_opposed)
                  ex_libm_nan H1 H2)).
Defined.

(** At T = 0 and without a field the null pair move of [fex_opposed] has
    delta_energy21 = 0, and the number drawn is 0.25. *)
Lemma X20_zero_temperature_is_a_strict_descent_witness :
  let g := fex_opposed in
  let M := sum_spins g in
  let m := move_first fex_cold_env g in
  let q := move_second fex_cold_env m M in
  (forall x, Prim2SF x = S754_nan ->
             Prim2SF (dexp (Libm := ex_libm) x) = S754_nan)
  /\ dexp (Libm := ex_libm) neg_infinity = 0
  /\ temperature fex_cold_env = 0
  /\ on_sphere m = true
  /\ (delta_energy21 q <? 0) = false
  /\ (0 <? fst (grnd fex_cold_env (mt (globals2 q)))) = true
  /\ (delta_energy21 q =? 0) = true
  /\ kBTBohr fex_cold_env = infinity
  /\ energy_reject (fst (trial (L := ex_libm) fex_cold_env g M))
     = energy_reject g + 1.
Proof.
  cbv zeta.
  assert (H0 : dexp (Libm := ex_libm) neg_infinity = 0)
    by (vm_compute; reflexivity).
  assert (HT : temperature fex_cold_env = 0) by reflexivity.
  assert (H1 : on_sphere (move_first fex_cold_env fex_opposed) = true)
    by (vm_compute; reflexivity).
  assert (H2 : (delta_energy21
                  (move_second fex_cold_env
                     (move_first fex_cold_env fex_opposed)
                     (sum_spins fex_opposed)) <? 0) = false)
    by (vm_compute; reflexivity).
  assert (H3 : (0 <? fst (grnd fex_cold_env
                            (mt (globals2
                                   (move_second fex_cold_env
                                      (move_first fex_cold_env fex_opposed)
                                      (sum_spins fex_opposed))))))
               = true)
    by (vm_compute; reflexivity).
  pose proof (@X20_zero_temperature_is_a_strict_descent ex_libm
                (list float) fex_cold_env fex_opposed
                (sum_spins fex_opposed) ex_libm_nan H0 HT H1 H2 H3) as H.
  split; [exact ex_libm_nan|]. split; [exact H0|]. split; [exact HT|].
  split; [exact H1|]. split; [exact H2|]. split; [exact H3|].
  split; [vm_compute; reflexivity|].
  split; [exact (proj1 H)|].
  exact (proj1 (proj2 (proj2 (proj2 H)))).
Defined.

End ColdAndNaNWitnesses.

(** ** A projection that stays positive *)

Section PositiveMzReal.

Variable G : Type.
Variable e : env (T:=R) G.

Local Open Scope R_scope.

(** A move to Mz_new = 0 has the probability 0. *)
Lemma probability_at_zero (m : first_move G) (q : second_move G) :
  Mz_new q = 0 -> probability e m q = 0.
Proof.
  intros H; unfold probability; cbn [dmul ddiv R_arith]; rewrite H.
  unfold Rdiv; rewrite !Rmult_0_l, Rmult_0_r, Rmult_0_l; reflexivity.
Qed.

Lemma decide_Mz_positive (g : globals (T:=R) G) (m : first_move (T:=R) G)
  (M : vec3 R) :
  is_first_move g m ->
  (forall r, 0 < fst (grnd e r)) ->
  0 < Mz_of g M ->
  0 < Mz_of g (snd (decide_move e m M)).
Proof.
  intros Hm Hg H.
  destruct (first_move_frame Hm) as (_ & _ & _ & Hv).
  destruct (on_sphere m) eqn:Hsph.
  - destruct (delta_energy21 (move_second e m M) <? d0)%D eqn:Hde.
    + rewrite decide_continue by assumption; exact H.
    + rewrite decide_metropolis by assumption.
      set (q := move_second e m M).
      destruct (probability e m q >=? fst (grnd e (mt (globals2 q))))%D
        eqn:Hp; cbn [andb]; [|exact H].
      destruct (Mz_new q >=? d0)%D eqn:Hz; [|exact H].
      cbn [path_accept snd].
      assert (Hnew : Mz_of g (moved_M m q M) = Mz_new q)
        by (unfold Mz_of, moved_M; cbn [v0 v1 v2]; rewrite <- Hv;
            reflexivity).
      rewrite Hnew.
      cbn [dge d0 R_arith] in Hp, Hz.
      apply Rgeb_true_iff in Hp; apply Rgeb_true_iff in Hz.
      destruct (Req_dec (Mz_new q) 0) as [H0|H0]; [|lra].
      rewrite (probability_at_zero m q H0) in Hp.
      specialize (Hg (mt (globals2 q))); lra.
  - rewrite decide_sphere_reject by assumption; exact H.
Qed.

(** X23. With a generator whose uniform numbers are positive, the
    projection of the tracked M_other on the constraint vector stays
    positive through any number of trials: a move to Mz_new = 0 has the
    probability 0 and is not accepted. The denominator Mz_old of the
    probability is therefore never zero in a loop entered with a positive
    projection. *)
Theorem X23_tracked_Mz_stays_positive
  (n : nat) (g : globals (T:=R) G) (M : vec3 R) :
  (forall r, 0 < fst (grnd e r)) ->
  0 < Mz_of g M ->
  0 < Mz_of (fst (mc_loop e n g M)) (snd (mc_loop e n g M)).
Proof.
  intros Hg; revert g M; induction n as [|k IH]; intros g M H; [exact H|].
  cbn [mc_loop].
  destruct (trial e g M) as [g' M'] eqn:Ht.
  apply IH.
  assert (Hg' : g' = fst (trial e g M)) by (rewrite Ht; reflexivity).
  assert (HM : M' = snd (trial e g M)) by (rewrite Ht; reflexivity).
  rewrite Hg', HM; clear Ht Hg' HM.
  unfold trial.
  rewrite (Mz_of_setup _ (decide_setup e M (move_first_spec e g))).
  apply decide_Mz_positive; [apply move_first_spec | exact Hg | exact H].
Qed.

End PositiveMzReal.

Section PositiveMzFloat.

Context {L : Libm float}.
Variable G : Type.
Variable e : env (T:=float) G.

Local Open Scope float_scope.

Lemma mul_zero_r (a b : float) :
  (exists s, Prim2SF b = S754_zero s) \/ Prim2SF b = S754_nan ->
  (exists s, Prim2SF (a * b) = S754_zero s) \/ Prim2SF (a * b) = S754_nan.
Proof.
  rewrite FloatAxioms.mul_spec.
  intros [[s ->]| ->].
  - destruct (Prim2SF a) as [t|t| |t m e']; cbn; eauto.
  - right; destruct (Prim2SF a); reflexivity.
Qed.

Lemma div_zero_l (a b : float) (s : bool) :
  Prim2SF a = S754_zero s ->
  (exists t, Prim2SF (a / b) = S754_zero t) \/ Prim2SF (a / b) = S754_nan.
Proof.
  rewrite FloatAxioms.div_spec; intros ->.
  destruct (Prim2SF b) as [t|t| |t m e']; cbn; eauto.
Qed.

(** In IEEE arithmetic a move to Mz_new = 0 has the probability 0 or
    NaN, whatever exp returns. *)
Lemma probability_at_zero_float (m : first_move G) (q : second_move G)
  (s : bool) :
  Prim2SF (Mz_new q) = S754_zero s ->
  (exists t, Prim2SF (probability e m q) = S754_zero t)
  \/ Prim2SF (probability e m q) = S754_nan.
Proof.
  intros H; unfold probability; cbn [dmul ddiv float_arith].
  apply mul_zero_l, mul_zero_r, mul_zero_l.
  exact (@div_zero_l _ _ _ H).
Qed.

Lemma decide_Mz_positive_float (g : globals (T:=float) G)
  (m : first_move (T:=float) G) (M : vec3 float) :
  is_first_move g m ->
  (forall r, (0 <? fst (grnd e r)) = true) ->
  (0 <? Mz_of g M) = true ->
  (0 <? Mz_of g (snd (decide_move e m M))) = true.
Proof.
  intros Hm Hg H.
  destruct (first_move_frame Hm) as (_ & _ & _ & Hv).
  destruct (on_sphere m) eqn:Hsph.
  - destruct (delta_energy21 (move_second e m M) <? d0)%D eqn:Hde.
    + rewrite decide_continue by assumption; exact H.
    + rewrite decide_metropolis by assumption.
      set (q := move_second e m M).
      destruct (probability e m q >=? fst (grnd e (mt (globals2 q))))%D
        eqn:Hp; cbn [andb]; [|exact H].
      destruct (Mz_new q >=? d0)%D eqn:Hz; [|exact H].
      cbn [path_accept snd].
      assert (Hnew : Mz_of g (moved_M m q M) = Mz_new q)
        by (unfold Mz_of, moved_M; cbn [v0 v1 v2]; rewrite <- Hv;
            reflexivity).
      rewrite Hnew.
      cbn [dge d0 float_arith] in Hp, Hz.
      destruct (0 <? Mz_new q) eqn:Hpos; [reflexivity|].
      destruct (@zero_of_order _ Hz Hpos) as [s Hs].
      rewrite (@leb_zero_or_nan _ _ (Hg (mt (globals2 q)))
                 (@probability_at_zero_float m q s Hs)) in Hp.
      discriminate.
  - rewrite decide_sphere_reject by assumption; exact H.
Qed.

(** X24. The same in IEEE arithmetic, for every exp: with a generator
    whose uniform numbers are positive, the projection of the tracked
    M_other on the constraint vector stays positive (and so neither a zero
    nor NaN) through any number of trials, because a move to Mz_new = 0
    has the probability 0 or NaN. *)
Theorem X24_tracked_Mz_stays_positive_float
  (n : nat) (g : globals (T:=float) G) (M : vec3 float) :
  (forall r, (0 <? fst (grnd e r)) = true) ->
  (0 <? Mz_of g M) = true ->
  (0 <? Mz_of (fst (mc_loop e n g M)) (snd (mc_loop e n g M))) = true.
Proof.
  intros Hg; revert g M; induction n as [|k IH]; intros g M H; [exact H|].
  cbn [mc_loop].
  destruct (trial e g M) as [g' M'] eqn:Ht.
  apply IH.
  assert (Hg' : g' = fst (trial e g M)) by (rewrite Ht; reflexivity).
  assert (HM : M' = snd (trial e g M)) by (rewrite Ht; reflexivity).
  rewrite Hg', HM; clear Ht Hg' HM.
  unfold trial.
  rewrite (Mz_of_setup _ (decide_setup e M (move_first_spec e g))).
  apply decide_Mz_positive_float;
    [apply move_first_spec | exact Hg | exact H].
Qed.

End PositiveMzFloat.

Section PositiveMzWitnesses.

(** [ex_M_other] has the projection 2 on the constraint vector of
    [ex_globals]. *)
Lemma X23_tracked_Mz_stays_positive_witness :
  let g := ex_globals [] in
  (forall r, (0 < fst (grnd ex_half_env r))%R)
  /\ (0 < Mz_of g ex_M_other)%R
  /\ (0 < Mz_of (fst (mc_loop ex_half_env 2 g ex_M_other))
            (snd (mc_loop ex_half_env 2 g ex_M_other)))%R.
Proof.
  cbv zeta.
  assert (Hg : forall r, (0 < fst (grnd ex_half_env r))%R)
    by (intros r; cbn [ex_half_env grnd fst]; lra).
  assert (H : (0 < Mz_of (ex_globals []) ex_M_other)%R).
  { unfold Mz_of; cbn [ex_globals polar_vector ex_M_other v0 v1 v2
                       dadd dmul R_arith]; lra. }
  split; [exact Hg|]. split; [exact H|].
  exact (@X23_tracked_Mz_stays_positive (list R) ex_half_env 2
           (ex_globals []) ex_M_other Hg H).
Defined.

(** The vector (0,0,1) has the projection 1 on the constraint vector of
    [fex_opposed]. *)
Lemma X24_tracked_Mz_stays_positive_float_witness :
  let g := fex_opposed in
  let M := V3 0%float 0%float 1%float in
  (forall r, (0 <? fst (grnd fex_half_env r))%float = true)
  /\ (0 <? Mz_of g M)%float = true
  /\ (0 <? Mz_of (fst (mc_loop (L := ex_libm) fex_half_env 2 g M))
             (snd (mc_loop (L := ex_libm) fex_half_env 2 g M)))%float
     = true.
Proof.
  cbv zeta.
  assert (Hg : forall r, (0 <? fst (grnd fex_half_env r))%float = true)
    by (intros r; reflexivity).
  assert (H : (0 <? Mz_of fex_opposed (V3 0%float 0%float 1%float))%float
              = true) by (vm_compute; reflexivity).
  split; [exact Hg|]. split; [exact H|].
  exact (@X24_tracked_Mz_stays_positive_float ex_libm (list float)
           fex_half_env 2 fex_opposed (V3 0%float 0%float 1%float) Hg H).
Defined.

End PositiveMzWitnesses.

(** ** A Gaussian step that cancels the spin, in IEEE arithmetic *)

Section CancelledSpin.

Context {L : Libm float}.
Variable G : Type.
Variable e : env (T:=float) G.
Variable g : globals (T:=float) G.
Variable M : vec3 float.

Local Open Scope float_scope.

Lemma square_of_zero (a : float) (s : bool) :
  Prim2SF a = S754_zero s -> Prim2SF (a * a) = S754_zero false.
Proof.
  intros H; rewrite FloatAxioms.mul_spec, H; destruct s; reflexivity.
Qed.

Lemma add_zeros (a b : float) :
  Prim2SF a = S754_zero false -> Prim2SF b = S754_zero false ->
  Prim2SF (a + b) = S754_zero false.
Proof.
  intros Ha Hb; rewrite FloatAxioms.add_spec, Ha, Hb; reflexivity.
Qed.

(** 1.0/sqrt(+0) is +infinity, and a zero times it is NaN. *)
Lemma zero_by_inverse_root (a n : float) (s : bool) :
  Prim2SF a = S754_zero s -> Prim2SF n = S754_zero false ->
  Prim2SF (a * (1 / PrimFloat.sqrt n)) = S754_nan.
Proof.
  intros Ha Hn.
  rewrite FloatAxioms.mul_spec, FloatAxioms.div_spec, FloatAxioms.sqrt_spec,
    Ha, Hn.
  destruct s; reflexivity.
Qed.

Lemma add_nan_l (a b : float) :
  Prim2SF a = S754_nan -> Prim2SF (a + b) = S754_nan.
Proof.
  intros Ha; rewrite FloatAxioms.add_spec, Ha; reflexivity.
Qed.

Lemma add_nan_r (a b : float) :
  Prim2SF b = S754_nan -> Prim2SF (a + b) = S754_nan.
Proof.
  intros Hb; rewrite FloatAxioms.add_spec, Hb.
  destruct (Prim2SF a); reflexivity.
Qed.

Lemma sub_nan_r (a b : float) :
  Prim2SF b = S754_nan -> Prim2SF (a - b) = S754_nan.
Proof.
  intros Hb; rewrite FloatAxioms.sub_spec, Hb.
  destruct (Prim2SF a); reflexivity.
Qed.

Lemma ltb_nan_l (a b : float) : Prim2SF a = S754_nan -> (a <? b) = false.
Proof.
  intros Ha; rewrite FloatAxioms.ltb_spec, Ha; reflexivity.
Qed.

(** The first new spin is NaN in every component, and so is the in-plane
    x component asked of the second spin. *)
Lemma cancelled_is_nan (m : first_move G) :
  let t := spin1_moved m in
  is_first_move g m ->
  (v0 t =? 0) = true -> (v1 t =? 0) = true -> (v2 t =? 0) = true ->
  Prim2SF (v0 (spin1_final m)) = S754_nan
  /\ Prim2SF (v1 (spin1_final m)) = S754_nan
  /\ Prim2SF (v2 (spin1_final m)) = S754_nan
  /\ Prim2SF (spin2_fin_mvd_0 m) = S754_nan.
Proof.
  intros t Hm H0 H1 H2.
  destruct (@zero_of_eqb _ H0) as [s0 Z0].
  destruct (@zero_of_eqb _ H1) as [s1 Z1].
  destruct (@zero_of_eqb _ H2) as [s2 Z2].
  destruct Hm as (_ & _ & Hf & Hfm & _ & _ & Hx & _).
  cbv zeta in Hf; fold t in Hf.
  cbn [dadd dmul ddiv dsqrt d1 float_arith] in Hf.
  assert (Hn : Prim2SF (v0 t * v0 t + v1 t * v1 t + v2 t * v2 t)
               = S754_zero false).
  { apply add_zeros; [apply add_zeros|];
      eapply square_of_zero; eassumption. }
  assert (N0 : Prim2SF (v0 (spin1_final m)) = S754_nan)
    by (rewrite Hf; cbn [v0]; exact (@zero_by_inverse_root _ _ _ Z0 Hn)).
  assert (N1 : Prim2SF (v1 (spin1_final m)) = S754_nan)
    by (rewrite Hf; cbn [v1]; exact (@zero_by_inverse_root _ _ _ Z1 Hn)).
  assert (N2 : Prim2SF (v2 (spin1_final m)) = S754_nan)
    by (rewrite Hf; cbn [v2]; exact (@zero_by_inverse_root _ _ _ Z2 Hn)).
  repeat (split; [assumption|]).
  rewrite Hx, Hfm; unfold matvec; cbn [v0 dadd dsub dmul float_arith].
  apply sub_nan_r, add_nan_r, mul_nan_r; exact N2.
Qed.

(** X5. In IEEE arithmetic, whenever the Gaussian step cancels the first
    spin exactly (the three components of spin plus step are zeros), the
    normalised spin 0 * (1/sqrt(0)) is NaN in every component, NaN fails
    the comparison of the sphere test, and the trial is a sphere reject:
    the spin field is the one before the trial, sphere_reject and mc_total
    grow by 1, and M_other stays. The zero vector excluded by the
    hypothesis of C7 therefore leaves no spin that is not a unit vector. *)
Theorem X5_cancelled_spin_is_rejected :
  let m := move_first e g in
  let t := spin1_moved m in
  let g' := fst (trial e g M) in
  (v0 t =? 0) = true -> (v1 t =? 0) = true -> (v2 t =? 0) = true ->
  Prim2SF (v0 (spin1_final m)) = S754_nan
  /\ Prim2SF (v1 (spin1_final m)) = S754_nan
  /\ Prim2SF (v2 (spin1_final m)) = S754_nan
  /\ on_sphere m = false
  /\ spin_arrays g' = spin_arrays g
  /\ sphere_reject g' = sphere_reject g + 1
  /\ mc_total g' = mc_total g + 1
  /\ mc_success g' = mc_success g
  /\ energy_reject g' = energy_reject g
  /\ snd (trial e g M) = M.
Proof.
  first_half e g m Hm.
  intros H0 H1 H2.
  destruct (cancelled_is_nan Hm H0 H1 H2) as (N0 & N1 & N2 & Nx).
  assert (Hoff : on_sphere m = false).
  { unfold on_sphere; cbn [dlt dadd dmul d1 float_arith].
    rewrite ltb_nan_l; [reflexivity|].
    apply add_nan_l, mul_nan_l; exact Nx. }
  repeat (split; [assumption|]).
  destruct (first_move_stats Hm) as (Hsu & Hto & Hsr & Her).
  rewrite decide_sphere_reject by exact Hoff.
  cbn [path_sphere_reject fst snd].
  rewrite set_stats_arrays, (restore_first Hm).
  cbn [set_stats set_spin sphere_reject mc_total mc_success energy_reject
       dadd d1 float_arith].
  rewrite Hsu, Hto, Hsr, Her; repeat split.
Qed.

End CancelledSpin.

Section CancelledSpinWitness.

Local Open Scope float_scope.

(** On [fex_cancelled] the spin (0,0,1) of site 0 meets the step
    (0,0,-1). *)
Lemma X5_cancelled_spin_is_rejected_witness :
  let g := fex_cancelled in
  let M := sum_spins g in
  let t := spin1_moved (move_first fex_env g) in
  (v0 t =? 0) = true /\ (v1 t =? 0) = true /\ (v2 t =? 0) = true
  /\ on_sphere (move_first fex_env g) = false
  /\ spin_arrays (fst (trial (L := ex_libm) fex_env g M)) = spin_arrays g.
Proof.
  cbv zeta.
  assert (H0 : (v0 (spin1_moved (move_first fex_env fex_cancelled)) =? 0)
               = true) by (vm_compute; reflexivity).
  assert (H1 : (v1 (spin1_moved (move_first fex_env fex_cancelled)) =? 0)
               = true) by (vm_compute; reflexivity).
  assert (H2 : (v2 (spin1_moved (move_first fex_env fex_cancelled)) =? 0)
               = true) by (vm_compute; reflexivity).
  pose proof (@X5_cancelled_spin_is_rejected ex_libm (list float)
                fex_env fex_cancelled (sum_spins fex_cancelled) H0 H1 H2)
    as H.
  cbv zeta in H.
  destruct H as (_ & _ & _ & Hoff & Ha & _).
  repeat (split; [assumption|]).
  exact Ha.
Defined.

End CancelledSpinWitness.
